(** * Schema-driven binary decoding: the reader of [encoding/binary]
      and the expression language of its struct tags.

    The development follows the layout of the Go sources:
    - [reflect]    : the part of Go's run-time type information the reader
                     consults (kinds, types, values, in-memory sizes);
    - [expression] : the PEG grammar of [expression.peg] as a recursive
                     descent recogniser building the syntax tree, and the
                     evaluator of that tree over the record being decoded;
    - [binary]     : [BinaryReader] and its [ReadInterface] method from
                     [reader.go], over an in-memory seekable byte source.

    The properties follow in [expression_facts] and [binary_facts]. *)

From Stdlib Require Import ZArith List String Ascii Bool Lia.
From Stdlib.Strings Require Import Byte.
From stdpp Require Import base list.
Import ListNotations.

#[local] Open Scope string_scope.
#[local] Open Scope list_scope.
#[local] Open Scope Z_scope.
Set Warnings "-register-all".

(** ** Go integers

    [int], [int64] and [uint64] are 64 bits wide on the platforms the
    package is built for; conversions between integer types keep the low
    bits (two's complement). *)

Module goint.

Definition to_unsigned (w : Z) (z : Z) : Z := z mod 2 ^ w.

Definition to_signed (w : Z) (z : Z) : Z :=
  (z + 2 ^ (w - 1)) mod 2 ^ w - 2 ^ (w - 1).

(** [int(x)]: conversion to the 64-bit signed [int]; also the result of
    every [int] operation that overflows. *)
Definition int (z : Z) : Z := to_signed 64 z.

Definition MaxInt32 : Z := 2 ^ 31 - 1.
Definition MaxInt : Z := 2 ^ 63 - 1.
Definition MinInt : Z := - 2 ^ 63.

Definition in_int (z : Z) : Prop := MinInt <= z <= MaxInt.

End goint.

(** ** Run-time type information ([reflect])

    [ReadInterface] inspects its destination through Go's [reflect]
    package.  Only what the reader consults is modelled: the kind of a
    type, its element type or fields with their tags, its in-memory size,
    and the values stored at a location. *)

Module reflect.

Inductive Kind :=
| Invalid | Bool
| Int | Int8 | Int16 | Int32 | Int64
| Uint | Uint8 | Uint16 | Uint32 | Uint64 | Uintptr
| Float32 | Float64 | Complex64 | Complex128
| Array | Chan | Func | Interface | Map | Ptr | Slice | String | Struct
| UnsafePointer.

Definition Kind_eqb (a b : Kind) : bool :=
  match a, b with
  | Invalid, Invalid | Bool, Bool | Int, Int | Int8, Int8 | Int16, Int16
  | Int32, Int32 | Int64, Int64 | Uint, Uint | Uint8, Uint8 | Uint16, Uint16
  | Uint32, Uint32 | Uint64, Uint64 | Uintptr, Uintptr | Float32, Float32
  | Float64, Float64 | Complex64, Complex64 | Complex128, Complex128
  | Array, Array | Chan, Chan | Func, Func | Interface, Interface | Map, Map
  | Ptr, Ptr | Slice, Slice | String, String | Struct, Struct
  | UnsafePointer, UnsafePointer => true
  | _, _ => false
  end.

(** A struct tag, [key:"value"] pairs in the order they are written. *)
Definition StructTag := list (string * string).

(** [Tag.Get]: the value of the first pair with that key, or the empty
    string. *)
Fixpoint Get (key : string) (tag : StructTag) : string :=
  match tag with
  | [] => EmptyString
  | (k, v) :: tag' => if String.eqb k key then v else Get key tag'
  end.

(** A type is a shape with, for a declared type, the name its methods are
    attached to. *)
Inductive type :=
| mkType (TypeName : option string) (Shape : shape)
with shape :=
| Basic (k : Kind)               (* kinds without decodable structure *)
| ArrayOf (len : nat) (elem : type)
| SliceOf (elem : type)
| StructOf (fields : list StructField)
with StructField :=
| mkField (Name : string) (PkgPath : string) (Type_ : type) (Tag : StructTag).

Definition TypeName (t : type) : option string :=
  match t with mkType n _ => n end.
Definition Shape (t : type) : shape :=
  match t with mkType _ s => s end.
Definition Name (f : StructField) : string :=
  match f with mkField n _ _ _ => n end.
Definition PkgPath (f : StructField) : string :=
  match f with mkField _ p _ _ => p end.
Definition Type_ (f : StructField) : type :=
  match f with mkField _ _ t _ => t end.
Definition Tag (f : StructField) : StructTag :=
  match f with mkField _ _ _ g => g end.

(** [Type.Kind] *)
Definition KindOf (t : type) : Kind :=
  match Shape t with
  | Basic k => k
  | ArrayOf _ _ => Array
  | SliceOf _ => Slice
  | StructOf _ => Struct
  end.

(** [StructField.IsExported]: the package path of a field is empty when
    the field is exported, and qualifies its name when it is not.  A
    [Value] reached through an unexported field can neither be set nor
    turned into an interface value. *)
Definition IsExported (f : StructField) : bool :=
  String.eqb (PkgPath f) "".

(** Values, as stored at a location of the corresponding kind.  Floating
    point numbers are kept as their IEEE bit pattern. *)
Inductive value :=
| VBool (b : bool)
| VInt (i : Z)
| VUint (u : Z)
| VFloat (bits : Z)
| VString (s : list byte)
| VList (elems : list value)          (* arrays and slices *)
| VStruct (fields : list value)
| VOther.                             (* kinds the reader cannot decode *)

Definition Elems (v : value) : list value :=
  match v with VList l => l | _ => [] end.
Definition Fields (v : value) : list value :=
  match v with VStruct l => l | _ => [] end.

(** The zero value of a type ([reflect.Zero]). *)
Fixpoint Zero (t : type) : value :=
  match t with
  | mkType _ s =>
      match s with
      | Basic Bool => VBool false
      | Basic (Int | Int8 | Int16 | Int32 | Int64) => VInt 0
      | Basic (Uint | Uint8 | Uint16 | Uint32 | Uint64 | Uintptr) => VUint 0
      | Basic (Float32 | Float64) => VFloat 0
      | Basic String => VString []
      | Basic _ => VOther
      | ArrayOf n e => VList (replicate n (Zero e))
      | SliceOf _ => VList []
      | StructOf fs =>
          VStruct ((fix zeros (l : list StructField) : list value :=
                      match l with
                      | [] => []
                      | mkField _ _ ft _ :: l' => Zero ft :: zeros l'
                      end) fs)
      end
  end.

(** [Type.Size] and [Type.Align] as laid out by the gc compiler on a
    64-bit target: every field at the next multiple of its alignment,
    one more byte for a struct that is not empty and ends in a field of
    size 0, and the whole rounded up to the alignment of the struct. *)
Definition KindSize (k : Kind) : Z :=
  match k with
  | Invalid => 0
  | Bool | Int8 | Uint8 => 1
  | Int16 | Uint16 => 2
  | Int32 | Uint32 | Float32 => 4
  | Int | Int64 | Uint | Uint64 | Uintptr | Float64 | Complex64 => 8
  | Chan | Func | Map | Ptr | UnsafePointer => 8
  | Complex128 | String | Interface => 16
  | Slice => 24
  | Array | Struct => 0
  end.

Definition KindAlign (k : Kind) : Z :=
  match k with
  | Invalid | Bool | Int8 | Uint8 => 1
  | Int16 | Uint16 => 2
  | Int32 | Uint32 | Float32 | Complex64 => 4
  | _ => 8
  end.

Definition roundUp (x a : Z) : Z := (x + a - 1) / a * a.

Fixpoint Align (t : type) : Z :=
  match t with
  | mkType _ s =>
      match s with
      | Basic k => KindAlign k
      | ArrayOf _ e => Align e
      | SliceOf _ => 8
      | StructOf fs =>
          (fix widest (l : list StructField) : Z :=
             match l with
             | [] => 1
             | mkField _ _ ft _ :: l' => Z.max (Align ft) (widest l')
             end) fs
      end
  end.

Fixpoint Size (t : type) : Z :=
  match t with
  | mkType _ s =>
      match s with
      | Basic k => KindSize k
      | ArrayOf n e => Z.of_nat n * Size e
      | SliceOf _ => 24
      | StructOf fs =>
          let laid :=
            (fix layout (l : list StructField) (offset last : Z) : Z * Z :=
               match l with
               | [] => (offset, last)
               | mkField _ _ ft _ :: l' =>
                   layout l' (roundUp offset (Align ft) + Size ft) (Size ft)
               end) fs 0 1 in
          (* a struct that is not empty and ends in a field of size 0
             gets one more byte *)
          roundUp
            (if (0 <? fst laid) && (snd laid =? 0) then fst laid + 1 else fst laid)
            (Align t)
      end
  end.

(** Induction over types, through the fields of structs. *)
Fixpoint type_induction (P : type -> Prop)
    (Hbasic : forall nm k, P (mkType nm (Basic k)))
    (Harray : forall nm n e, P e -> P (mkType nm (ArrayOf n e)))
    (Hslice : forall nm e, P e -> P (mkType nm (SliceOf e)))
    (Hstruct : forall nm fs, Forall (fun f => P (Type_ f)) fs ->
                             P (mkType nm (StructOf fs)))
    (t : type) {struct t} : P t :=
  match t with
  | mkType nm sh =>
      match sh with
      | Basic k => Hbasic nm k
      | ArrayOf n e =>
          Harray nm n e (type_induction P Hbasic Harray Hslice Hstruct e)
      | SliceOf e =>
          Hslice nm e (type_induction P Hbasic Harray Hslice Hstruct e)
      | StructOf fs =>
          Hstruct nm fs
            ((fix each (l : list StructField) : Forall (fun f => P (Type_ f)) l :=
                match l with
                | [] => List.Forall_nil _
                | f :: l' =>
                    @List.Forall_cons _ (fun f => P (Type_ f)) f l'
                      (match f return P (Type_ f) with
                       | mkField _ _ ft _ =>
                           type_induction P Hbasic Harray Hslice Hstruct ft
                       end)
                      (each l')
                end) fs)
      end
  end.

(** No field of the type, at any depth, carries the tag [key]. *)
Fixpoint untagged (key : string) (t : type) : bool :=
  match t with
  | mkType _ sh =>
      match sh with
      | Basic _ => true
      | ArrayOf _ e => untagged key e
      | SliceOf e => untagged key e
      | StructOf fs =>
          (fix each (l : list StructField) : bool :=
             match l with
             | [] => true
             | mkField _ _ ft tag :: l' =>
                 String.eqb (Get key tag) "" && untagged key ft && each l'
             end) fs
      end
  end.

(** Type literals. *)
Definition basic (k : Kind) : type := mkType None (Basic k).
Definition arrayOf (n : nat) (elem : type) : type := mkType None (ArrayOf n elem).
Definition sliceOf (elem : type) : type := mkType None (SliceOf elem).
Definition structOf (fs : list StructField) : type := mkType None (StructOf fs).
(** [type name t]: a declared type with the shape of [t]. *)
Definition declared (name : string) (t : type) : type := mkType (Some name) (Shape t).

(** [Value.FieldByName] on a struct value: the field's type and value. *)
Fixpoint FieldByName (fs : list StructField) (vals : list value)
    (name : string) : option (type * value) :=
  match fs, vals with
  | f :: fs', v :: vals' =>
      if String.eqb (Name f) name then Some (Type_ f, v)
      else FieldByName fs' vals' name
  | _, _ => None
  end.

End reflect.

(** ** The expression grammar ([expression.peg]) *)

Module expression.

Definition input := list ascii.

(** A PEG rule consumes a prefix of its input and returns what is left. *)
Definition parser (A : Type) := input -> option (A * input).

(** Binary operators, named after the grammar rules that recognise them. *)
Inductive operator :=
| OShiftRight | OShiftLeft | OAndNot | OMask | OAdd | OSub | OMul
| OEq | ONe | OLt | OLe | OGt | OGe.

(** The syntax tree handed to the evaluator: the nodes of the rules
    [Constant] and [DotIdentifier] keep the text they matched. *)
Inductive Node :=
| NConstant (text : input)
| NDotIdentifier (path : list input)
| NOp (o : operator) (l r : Node).

(** *** Character classes *)

Definition code (c : ascii) : N := N_of_ascii c.
Definition between (lo hi : N) (c : ascii) : bool :=
  ((lo <=? code c) && (code c <=? hi))%N.

Definition is_upper (c : ascii) : bool := between 65 90 c.          (* [A-Z] *)
Definition is_lower (c : ascii) : bool := between 97 122 c.         (* [a-z] *)
Definition is_digit (c : ascii) : bool := between 48 57 c.          (* [0-9] *)
Definition is_hex (c : ascii) : bool :=                             (* [a-fA-F0-9] *)
  between 97 102 c || between 65 70 c || is_digit c.
Definition is_ident (c : ascii) : bool :=                           (* [_A-Za-z0-9] *)
  (code c =? 95)%N || is_upper c || is_lower c || is_digit c.
Definition is_space (c : ascii) : bool :=                           (* [ \t\n\r] *)
  ((code c =? 32) || (code c =? 9) || (code c =? 10) || (code c =? 13))%N.

(** *** PEG combinators *)

(** A string literal. *)
Fixpoint literal (tok s : input) : option input :=
  match tok with
  | [] => Some s
  | c :: tok' =>
      match s with
      | d :: s' => if Ascii.eqb c d then literal tok' s' else None
      | [] => None
      end
  end.

(** [[class]*]: the longest run of characters of a class. *)
Fixpoint span (p : ascii -> bool) (s : input) : input * input :=
  match s with
  | c :: s' => if p c then let (m, r) := span p s' in (c :: m, r) else ([], s)
  | [] => ([], [])
  end.

(** [[class]+] *)
Definition span1 (p : ascii -> bool) : parser input := fun s =>
  match span p s with
  | ([], _) => None
  | (m, r) => Some (m, r)
  end.

(** Ordered choice [p / q]: [q] is tried only when [p] fails. *)
Definition choice {A} (p q : parser A) : parser A := fun s =>
  match p s with
  | Some r => Some r
  | None => q s
  end.
Infix "</>" := choice (at level 61, left associativity).

(** [p*]: repeat while [p] succeeds.  Every iteration of the one starred
    rule of the grammar consumes input, so [length s] rounds are enough
    (lemma [star_fuel] below). *)
Fixpoint star {A} (fuel : nat) (p : parser A) (s : input) : list A * input :=
  match fuel with
  | O => ([], s)
  | S n =>
      match p s with
      | Some (a, s') => let (l, r) := star n p s' in (a :: l, r)
      | None => ([], s)
      end
  end.

(** *** Terminal rules *)

(** Spacing? *)
Definition optSpacing (s : input) : input := snd (span is_space s).

(** EndOfFile <- !. *)
Definition EndOfFile (s : input) : bool :=
  match s with [] => true | _ => false end.

(** Constant <- ("0x" [a-fA-F0-9]+) / [0-9]+ *)
Definition Constant : parser Node :=
  (fun s =>
     match literal ["0"; "x"]%char s with
     | Some s1 =>
         match span1 is_hex s1 with
         | Some (ds, s2) => Some (NConstant ("0" :: "x" :: ds)%char, s2)
         | None => None
         end
     | None => None
     end)
  </>
  (fun s =>
     match span1 is_digit s with
     | Some (ds, s1) => Some (NConstant ds, s1)
     | None => None
     end).

(** Identifier <- [A-Z] [_A-Za-z0-9]* *)
Definition Identifier : parser input := fun s =>
  match s with
  | c :: s1 =>
      if is_upper c then let (cs, s2) := span is_ident s1 in Some (c :: cs, s2)
      else None
  | [] => None
  end.

(** '.' Identifier *)
Definition dotted : parser input := fun s =>
  match literal ["."]%char s with
  | Some s' => Identifier s'
  | None => None
  end.

(** DotIdentifier <- Identifier ('.' Identifier)* *)
Definition DotIdentifier : parser Node := fun s =>
  match Identifier s with
  | Some (i, s1) =>
      let (ids, s2) := star (length s1) dotted s1 in
      Some (NDotIdentifier (i :: ids), s2)
  | None => None
  end.

(** *** The operator rules

    Every operator rule has the shape [Grouping token Grouping]; the rules
    are stated over the [Grouping] rule they refer to, and the recursion
    of the grammar (Grouping -> Op -> Grouping) is tied in [Grouping]
    below. *)

Section Operators.

Variable G : parser Node.

Definition binary (tok : input) (o : operator) : parser Node := fun s =>
  match G s with
  | Some (l, s1) =>
      match literal tok s1 with
      | Some s2 =>
          match G s2 with
          | Some (r, s3) => Some (NOp o l r, s3)
          | None => None
          end
      | None => None
      end
  | None => None
  end.

Definition ShiftRight := binary [">"; ">"]%char OShiftRight.
Definition ShiftLeft := binary ["<"; "<"]%char OShiftLeft.
Definition Mask := binary ["&"]%char OMask.
Definition Add := binary ["+"]%char OAdd.
Definition Sub := binary ["-"]%char OSub.
Definition Mul := binary ["*"]%char OMul.
Definition AndNot := binary ["&"; "^"]%char OAndNot.
Definition Eq := binary ["="; "="]%char OEq.
Definition Ne := binary ["!"; "="]%char ONe.
Definition Lt := binary ["<"]%char OLt.
Definition Le := binary ["<"; "="]%char OLe.
Definition Gt := binary [">"]%char OGt.
Definition Ge := binary [">"; "="]%char OGe.

(** BooleanOp <- Eq / Lt / Gt / Le / Ge / Ne *)
Definition BooleanOp : parser Node := Eq </> Lt </> Gt </> Le </> Ge </> Ne.

(** Op <- ShiftRight / ShiftLeft / AndNot / Mask / Add / Sub / Mul / BooleanOp *)
Definition Op : parser Node :=
  ShiftRight </> ShiftLeft </> AndNot </> Mask </> Add </> Sub </> Mul
  </> BooleanOp.

(** '(' Op ')' *)
Definition Paren : parser Node := fun s =>
  match literal ["("]%char s with
  | Some s1 =>
      match Op s1 with
      | Some (t, s2) =>
          match literal [")"]%char s2 with
          | Some s3 => Some (t, s3)
          | None => None
          end
      | None => None
      end
  | None => None
  end.

End Operators.

(** Grouping <- Spacing? ('(' Op ')' / Constant / DotIdentifier) Spacing?

    [fuel] bounds the nesting depth of parentheses; an input of [n]
    characters nests fewer than [n] deep (theorem [Grouping_fuel]). *)
Fixpoint Grouping (fuel : nat) : parser Node := fun s =>
  match fuel with
  | O => None
  | S n =>
      match (Paren (Grouping n) </> Constant </> DotIdentifier) (optSpacing s) with
      | Some (t, s1) => Some (t, optSpacing s1)
      | None => None
      end
  end.

(** Expression <- (Op / Grouping) EndOfFile *)
Definition Expression (fuel : nat) (s : input) : option Node :=
  match (Op (Grouping fuel) </> Grouping fuel) s with
  | Some (t, s1) => if EndOfFile s1 then Some t else None
  | None => None
  end.

(** [EXPRESSION.Parse] followed by [RootNode]: [None] when [Parse]
    reports failure. *)
Definition Parse (text : string) : option Node :=
  let s := list_ascii_of_string text in
  Expression (S (length s)) s.

(** *** Evaluation

    [eval.go] is not among the sources; [eval_test.go] fixes the signature
    of [Eval] and its results on fifteen expressions (checked below,
    [Eval_tests]).  The evaluator is written from the specification. *)

(** Modelled from the spec: the failures of [expression.Eval], an
    unresolved path (unknown field name, or a step through a value that
    is no record).  The spec does not say what a path ending at a value
    that is no integer evaluates to: it is the second failure here. *)
Inductive EvalError :=
| UnresolvedPath (path : list input)
| NotAnInteger (path : list input).

(** Modelled from the spec: the constants of [expression.Eval] are
    decimal or 0x-prefixed hexadecimal non-negative integers. *)
Definition digit (c : ascii) : Z :=
  let n := Z.of_N (code c) in
  if is_digit c then n - 48
  else if between 97 102 c then n - 87
  else n - 55.

Definition number (base : Z) (ds : input) : Z :=
  fold_left (fun acc c => acc * base + digit c) ds 0.

Definition constant (text : input) : Z :=
  match text with
  | "0"%char :: "x"%char :: (_ :: _) as ds => number 16 ds
  | _ => number 10 text
  end.

(** Modelled from the spec: the path resolution of [expression.Eval].
    The first identifier names a field of the record in scope, each
    further one a field of the record-typed value of the step before;
    names are compared as they are written. *)
Fixpoint resolve (fs : list reflect.StructField) (vals : list reflect.value)
    (path : list input) : option reflect.value :=
  match path with
  | [] => None
  | id :: rest =>
      match reflect.FieldByName fs vals (string_of_list_ascii id) with
      | Some (t, v) =>
          match rest with
          | [] => Some v
          | _ :: _ =>
              match reflect.Shape t, v with
              | reflect.StructOf fs', reflect.VStruct vals' => resolve fs' vals' rest
              | _, _ => None
              end
          end
      | None => None
      end
  end.

(** Modelled from the spec: the integer operations of [expression.Eval],
    on the signed 64-bit [int]: logical shifts, bitwise and, "left and
    not right", addition, subtraction, multiplication, and comparisons
    yielding 1 or 0. *)
Definition apply (o : operator) (a b : Z) : Z :=
  let bit (c : bool) : Z := if c then 1 else 0 in
  match o with
  | OShiftLeft => if (0 <=? b) && (b <? 64) then goint.int (Z.shiftl a b) else 0
  | OShiftRight =>
      if (0 <=? b) && (b <? 64)
      then goint.int (Z.shiftr (goint.to_unsigned 64 a) b) else 0
  | OMask => goint.int (Z.land a b)
  | OAndNot => goint.int (Z.land a (Z.lnot b))
  | OAdd => goint.int (a + b)
  | OSub => goint.int (a - b)
  | OMul => goint.int (a * b)
  | OEq => bit (a =? b)
  | ONe => bit (negb (a =? b))
  | OLt => bit (a <? b)
  | OLe => bit (a <=? b)
  | OGt => bit (a >? b)
  | OGe => bit (a >=? b)
  end.

(** Modelled from the spec: [expression.Eval], absent from the sources.
    Leaf constants evaluate to themselves; a dotted identifier is
    resolved through the fields of the context record; a binary node
    evaluates its left child, then its right child, and applies the
    integer operation. *)
Fixpoint Eval (fs : list reflect.StructField) (vals : list reflect.value)
    (n : Node) : EvalError + Z :=
  match n with
  | NConstant text => inr (goint.int (constant text))
  | NDotIdentifier path =>
      match resolve fs vals path with
      | Some (reflect.VInt i) => inr (goint.int i)
      | Some (reflect.VUint u) => inr (goint.int u)
      | Some _ => inl (NotAnInteger path)
      | None => inl (UnresolvedPath path)
      end
  | NOp o l r =>
      match Eval fs vals l with
      | inr a =>
          match Eval fs vals r with
          | inr b => inr (apply o a b)
          | inl e => inl e
          end
      | inl e => inl e
      end
  end.

End expression.


(** ** The reader ([reader.go]) *)

Module binary.

(** *** The byte source

    [BinaryReader.Reader] is an [io.ReadSeeker].  It is modelled by the
    standard in-memory one, [bytes.Reader]: the bytes and the index of the
    next byte to read. *)
Record Source := mkSource { data : list byte; offset : nat }.

Definition remaining (s : Source) : nat := length (data s) - offset s.

Inductive ByteOrder := LittleEndian | BigEndian.

(** What a decode call does to its surroundings, in the order it happens:
    the calls received by the byte source and the calls of user-supplied
    methods.  The trace is not part of the Go state; it is kept to state
    what the reader does, not only what it returns. *)
Inductive Event :=
| EvRead (len : nat)                   (* Reader.Read on a buffer of len bytes *)
| EvSeek (off : Z) (whence : Z)        (* Reader.Seek *)
| EvCustomRead (type_name : string)    (* the Read method of a declared type *)
| EvValidate (type_name : string).     (* the Validate method of a declared type *)

Record BinaryReader := mkReader {
  Reader : Source;
  Endianess : ByteOrder;
  Trace : list Event
}.

Definition position (r : BinaryReader) : nat := offset (Reader r).

Inductive error :=
| ErrExpectedPointer (k : reflect.Kind)   (* "Expected a pointer not %s" *)
| ErrUnknownKind (k : reflect.Kind)       (* "Don't know how to read type %s" *)
| ErrSliceLength                          (* "SliceHeader require a known length" *)
| ErrShortRead                            (* "Didn't read the expected number of bytes" *)
| ErrEOF                                  (* io.EOF *)
| ErrSeek                                 (* the source rejected the seek *)
| ErrParse (text : string)                (* EXPRESSION.Error *)
| ErrEval (e : expression.EvalError)
| ErrCustom (msg : string).               (* made by user code *)

Inductive outcome (A : Type) :=
| Ok (a : A)
| Err (e : error)
| Panic (msg : string).
Arguments Ok {A} a.
Arguments Err {A} e.
Arguments Panic {A} msg.

(** A method of [*BinaryReader]: it may change the reader, and returns a
    value, an error, or panics.  A destination is decoded in place; what
    a call that fails leaves in it is not kept. *)
Definition M (A : Type) := BinaryReader -> outcome A * BinaryReader.

Definition ret {A} (a : A) : M A := fun r => (Ok a, r).
Definition fail {A} (e : error) : M A := fun r => (Err e, r).
Definition panic {A} (msg : string) : M A := fun r => (Panic msg, r).
Definition bind {A B} (m : M A) (k : A -> M B) : M B := fun r =>
  match m r with
  | (Ok a, r') => k a r'
  | (Err e, r') => (Err e, r')
  | (Panic msg, r') => (Panic msg, r')
  end.

Notation "x <- m ;; k" := (bind m (fun x => k))
  (at level 100, m at next level, right associativity).

Definition record (e : Event) : M unit := fun r =>
  (Ok tt, mkReader (Reader r) (Endianess r) (Trace r ++ [e])).

Fixpoint forEach {A B} (f : A -> M B) (l : list A) : M (list B) :=
  match l with
  | [] => ret []
  | a :: l' => b <- f a ;; bs <- forEach f l' ;; ret (b :: bs)
  end.

(** [bytes.Reader.Read]: at the end of the data it reports [io.EOF];
    otherwise it copies what is left, up to the size of the buffer, and
    advances by as much. *)
Definition io_Read (len : nat) : M (nat * list byte) := fun r =>
  let s := Reader r in
  let tr := Trace r ++ [EvRead len] in
  if (length (data s) <=? offset s)%nat
  then (Err ErrEOF, mkReader s (Endianess r) tr)
  else
    let got := take len (drop (offset s) (data s)) in
    (Ok (length got, got ++ replicate (len - length got) x00),
     mkReader (mkSource (data s) (offset s + length got)) (Endianess r) tr).

(** [bytes.Reader.Seek]: the new position is computed in [int64] and
    wraps around; a negative one is rejected, one past the end is not. *)
Definition io_Seek (off : Z) (whence : Z) : M Z := fun r =>
  let s := Reader r in
  let tr := Trace r ++ [EvSeek off whence] in
  let r1 := mkReader s (Endianess r) tr in
  let base :=
    if whence =? 0 then Some 0
    else if whence =? 1 then Some (Z.of_nat (offset s))
    else if whence =? 2 then Some (Z.of_nat (length (data s)))
    else None in
  match base with
  | None => (Err ErrSeek, r1)
  | Some b =>
      let abs := goint.to_signed 64 (b + off) in
      if abs <? 0 then (Err ErrSeek, r1)
      else (Ok abs, mkReader (mkSource (data s) (Z.to_nat abs)) (Endianess r) tr)
  end.

(** *** Fixed-width reads *)

Definition Seek (off : Z) (whence : Z) : M Z := io_Seek off whence.

(** [make([]byte, size)] panics for a negative size and for one beyond
    [maxAlloc], what the runtime can allocate at all: 2^48 bytes on the
    common 64-bit targets (amd64, arm64).  The source is in memory and was allocated itself,
    so that a size within its length is within the limit: on the
    sources that can exist [fits] is the test [size <= maxAlloc].  An
    allocation within the limit that the machine cannot serve ends the
    program; that is not modelled. *)
Definition maxAlloc : Z := 2 ^ 48.

Definition fits (size : Z) (s : Source) : bool :=
  (size <=? maxAlloc) || (size <=? Z.of_nat (length (data s))).

Definition Read (size : Z) : M (list byte) := fun r =>
  if (size <? 0) || negb (fits size (Reader r))
  then panic "makeslice: len out of range" r
  else if size =? 0 then ret [] r
  else
    (got <- io_Read (Z.to_nat size) ;;
     if negb (fst got =? length (snd got))%nat then fail ErrShortRead
     else ret (snd got)) r.

Definition byteZ (b : byte) : Z := Z.of_N (Byte.to_N b).
Definition Zbyte (z : Z) : byte :=
  match Byte.of_N (Z.to_N z) with Some b => b | None => x00 end.

(** [ByteOrder.Uint16], [Uint32] and [Uint64] over the bytes read. *)
Definition littleEndian (bs : list byte) : Z :=
  fold_right (fun b acc => Z.lor (byteZ b) (Z.shiftl acc 8)) 0 bs.
Definition order (o : ByteOrder) (bs : list byte) : Z :=
  match o with
  | LittleEndian => littleEndian bs
  | BigEndian => littleEndian (rev bs)
  end.

Definition unsigned (width : Z) : M Z :=
  bs <- Read width ;; fun r => (Ok (order (Endianess r) bs), r).

Definition Uint64 : M Z := unsigned 8.
Definition Uint32 : M Z := unsigned 4.
Definition Uint16 : M Z := unsigned 2.
Definition Uint8 : M Z := bs <- Read 1 ;; ret (byteZ (nth 0 bs x00)).
Definition Int64 : M Z := d <- Uint64 ;; ret (goint.to_signed 64 d).
Definition Int32 : M Z := d <- Uint32 ;; ret (goint.to_signed 32 d).
Definition Int16 : M Z := d <- Uint16 ;; ret (goint.to_signed 16 d).
Definition Int8 : M Z := bs <- Read 1 ;; ret (goint.to_signed 8 (byteZ (nth 0 bs x00))).
(** The bit pattern of the integer read is the floating point number. *)
Definition Float32 : M Z := i <- Int32 ;; ret (goint.to_unsigned 32 i).
Definition Float64 : M Z := i <- Int64 ;; ret (goint.to_unsigned 64 i).

(** [float32(float64(f))] on the bit pattern of a [float32], a sign
    bit, 8 bits of exponent and 23 bits of fraction: the two conversions
    keep every number and every quiet NaN, and make a signalling NaN
    (the exponent all ones, a fraction that is not 0 and whose first bit
    is clear) quiet by setting that bit. *)
Definition quiet32 (bits : Z) : Z :=
  let exponent := (bits / 2 ^ 23) mod 2 ^ 8 in
  let fraction := bits mod 2 ^ 23 in
  if (exponent =? 255) && (0 <? fraction) && (fraction <? 2 ^ 22)
  then bits + 2 ^ 22
  else bits.

(** *** User-supplied methods

    A declared type may implement [Reader] (a custom [Read]) and
    [Validateable] ([Validate]).  A method has a value or a pointer
    receiver; the method set of [T] holds the methods with a value
    receiver, that of [*T] holds all of them.  [Read] is given the
    reader and may call its methods: it is a computation of the same
    sort as they are, which returns its receiver as it has become, or
    any error, or panics. *)
Inductive receiver := ValueReceiver | PointerReceiver.

Definition ReadFunc := reflect.value -> M reflect.value.
Definition ValidateFunc := reflect.value -> option string.

Record Methods := mkMethods {
  ReadMethod : option (receiver * ReadFunc);
  ValidateMethod : option (receiver * ValidateFunc)
}.

Definition noMethods : Methods := mkMethods None None.

Definition inMethodSet (isptr : bool) (recv : receiver) : bool :=
  match recv with
  | ValueReceiver => true
  | PointerReceiver => isptr
  end.

(** The argument of [ReadInterface], an [interface{}]: a pointer to a
    location of some type, or a plain value (nil is left out). *)
Inductive iface :=
| PointerTo (t : reflect.type) (target : reflect.value)
| Plain (t : reflect.type) (v : reflect.value).

Definition isPointer (v : iface) : bool :=
  match v with PointerTo _ _ => true | Plain _ _ => false end.
Definition typeOf (v : iface) : reflect.type :=
  match v with PointerTo t _ | Plain t _ => t end.
Definition valueOf (v : iface) : reflect.value :=
  match v with PointerTo _ x | Plain _ x => x end.

Section Engine.

(** The methods declared for each type name. *)
Variable methods : string -> Methods.

(** [v.(Reader)] *)
Definition asReader (isptr : bool) (t : reflect.type) : option (receiver * ReadFunc) :=
  match reflect.TypeName t with
  | Some n =>
      match ReadMethod (methods n) with
      | Some (recv, f) => if inMethodSet isptr recv then Some (recv, f) else None
      | None => None
      end
  | None => None
  end.

(** [v.(Validateable)] *)
Definition asValidateable (isptr : bool) (t : reflect.type) : option (receiver * ValidateFunc) :=
  match reflect.TypeName t with
  | Some n =>
      match ValidateMethod (methods n) with
      | Some (recv, f) => if inMethodSet isptr recv then Some (recv, f) else None
      | None => None
      end
  | None => None
  end.

Definition typeName (t : reflect.type) : string :=
  match reflect.TypeName t with Some n => n | None => "" end.

(** [ri.Read(r)]: with a value receiver the method works on a copy. *)
Definition callRead (t : reflect.type) (recv : receiver) (f : ReadFunc)
    (x : reflect.value) : M reflect.value :=
  _ <- record (EvCustomRead (typeName t)) ;;
  x' <- f x ;;
  ret (match recv with PointerReceiver => x' | ValueReceiver => x end).

(** [val.Validate()] *)
Definition callValidate (t : reflect.type) (f : ValidateFunc)
    (x : reflect.value) : M reflect.value :=
  _ <- record (EvValidate (typeName t)) ;;
  match f x with
  | Some msg => fail (ErrCustom msg)
  | None => ret x
  end.

(** *** The steps of one struct field

    [fs] and [vals] are the type and the current contents of the struct
    being decoded ([v2]); the expressions of the tags are evaluated against
    them. *)

Section Field.

Variable fs : list reflect.StructField.

(** [e.Parse(text)], then [expression.Eval(&v2, e.RootNode())] *)
Definition evaluate (vals : list reflect.value) (text : string) : M Z :=
  match expression.Parse text with
  | None => fail (ErrParse text)
  | Some root =>
      match expression.Eval fs vals root with
      | inl e => fail (ErrEval e)
      | inr ev => ret ev
      end
  end.

Definition isEmpty (s : string) : bool := String.eqb s "".

(** The [if] tag: [false] when the field is passed over ([continue]). *)
Definition ifStep (vals : list reflect.value) (tag : reflect.StructTag) : M bool :=
  let fi := reflect.Get "if" tag in
  if isEmpty fi then ret true
  else ev <- evaluate vals fi ;; ret (negb (ev =? 0)).

(** The [skip] tag: a seek relative to the current position. *)
Definition skipStep (vals : list reflect.value) (tag : reflect.StructTag) : M unit :=
  let l := reflect.Get "skip" tag in
  if isEmpty l then ret tt
  else ev <- evaluate vals l ;; _ <- Seek ev 1 ;; ret tt.

(** The [length] tag: a length prefix of the named width, or an
    expression; [-1] without the tag. *)
Definition lengthStep (vals : list reflect.value) (tag : reflect.StructTag) : M Z :=
  let l := reflect.Get "length" tag in
  if isEmpty l then ret (-1)
  else if String.eqb l "uint8" then s <- Uint8 ;; ret (goint.int s)
  else if String.eqb l "uint16" then s <- Uint16 ;; ret (goint.int s)
  else if String.eqb l "uint32" then s <- Uint32 ;; ret (goint.int s)
  else if String.eqb l "uint64" then s <- Uint64 ;; ret (goint.int s)
  else evaluate vals l.

(** [for i, v := range data { if v == 0 { data = data[:i]; break } }] *)
Fixpoint truncate (bs : list byte) : list byte :=
  match bs with
  | [] => []
  | b :: bs' => if byteZ b =? 0 then [] else b :: truncate bs'
  end.

(** [for i := 0; i < max; i++]: read byte after byte up to a null byte.
    Returns the bytes before it and, when it was found, the number of
    bytes read.  Every round reads one byte of the source, so one round
    more than there are bytes left (the last one fails) is all the loop
    can make; [fuel] is that bound (lemma [scan_fuel]). *)
Fixpoint scan (fuel : nat) (i max : Z) (acc : list byte) : M (list byte * option Z) :=
  if negb (i <? max) then ret (acc, None)
  else
    match fuel with
    | O => fail ErrEOF
    | S n =>
        u <- Uint8 ;;
        if u =? 0 then ret (acc, Some (goint.int (i + 1)))
        else scan n (goint.int (i + 1)) max (acc ++ [Zbyte u])
    end.

Definition scanString (max : Z) : M (list byte * option Z) := fun r =>
  scan (S (remaining (Reader r))) 0 max [] r.

(** The panics of [reflect]: storing a [[]byte] into an int8 slice, and
    using a value reached through an unexported field. *)
Definition notAssignable : string :=
  "reflect.Set: value of type []uint8 is not assignable to type []int8".
Definition notExported : string :=
  "reflect: value obtained using unexported field".

(** [switch f.Type().Kind()]: decode the value of the field [f2], whose
    current value is [f], given the [size] the length tag gave.  Returns
    the decoded value and the size recorded for the alignment.  [RI t x]
    is [r.ReadInterface] on a pointer to the location [x] of type [t]. *)
Definition valueStep (RI : reflect.type -> reflect.value -> M reflect.value)
    (vals : list reflect.value) (f2 : reflect.StructField) (f : reflect.value)
    (size : Z) : M (reflect.value * Z) :=
  let settable := reflect.IsExported f2 in
  let unexported {A} : M A := panic notExported in
  match reflect.Shape (reflect.Type_ f2) with
  | reflect.Basic reflect.String =>
      res <-
        (if size >=? 0 then
           data <- Read size ;; ret (truncate data, size)
         else
           max <-
             (let m := reflect.Get "max" (reflect.Tag f2) in
              if isEmpty m then ret goint.MaxInt32 else evaluate vals m) ;;
           found <- scanString max ;;
           ret (fst found, match snd found with Some n => n | None => size end)) ;;
      if settable then ret (reflect.VString (fst res), snd res) else unexported
  | reflect.SliceOf elem =>
      if size =? -1 then fail ErrSliceLength
      else if reflect.Kind_eqb (reflect.KindOf elem) reflect.Int8 then
        b <- Read size ;;
        if settable
        then panic notAssignable
        else unexported
      else if size <? 0 then panic "reflect.MakeSlice: negative len"
      else
        v3 <- forEach (RI elem) (replicate (Z.to_nat size) (reflect.Zero elem)) ;;
        if settable then ret (reflect.VList v3, size) else unexported
  | _ =>
      if settable then
        x <- RI (reflect.Type_ f2) f ;;
        ret (x, goint.int (reflect.Size (reflect.Type_ f2)))
      else unexported
  end.

(** The correction computed from the alignment and the recorded size. *)
Definition padding (align size : Z) : Z :=
  if align <? size then
    goint.int (Z.land (goint.int (size + goint.int (align - 1)))
                      (Z.lnot (goint.int (align - 1))) - size)
  else if align >? size then goint.int (align - size)
  else 0.

(** The [align] tag. *)
Definition alignStep (vals : list reflect.value) (tag : reflect.StructTag)
    (size : Z) : M unit :=
  let al := reflect.Get "align" tag in
  if isEmpty al then ret tt
  else
    align <- evaluate vals al ;;
    let seek := padding align size in
    if seek >? 0 then _ <- Seek seek 1 ;; ret tt else ret tt.

(** One round of [for i := 0; i < v2.NumField(); i++]. *)
Definition readField (RI : reflect.type -> reflect.value -> M reflect.value)
    (i : nat) (f2 : reflect.StructField) (vals : list reflect.value)
    : M (list reflect.value) :=
  present <- ifStep vals (reflect.Tag f2) ;;
  if negb present then ret vals
  else
    _ <- skipStep vals (reflect.Tag f2) ;;
    size <- lengthStep vals (reflect.Tag f2) ;;
    res <- valueStep RI vals f2 (nth i vals reflect.VOther) size ;;
    let vals' := <[i := fst res]> vals in
    _ <- alignStep vals' (reflect.Tag f2) (snd res) ;;
    ret vals'.

(** [for i := 0; i < v2.NumField(); i++], from field [i] on; [rest] are
    the fields not yet visited. *)
Fixpoint readFields (RI : reflect.type -> reflect.value -> M reflect.value)
    (rest : list reflect.StructField) (i : nat) (vals : list reflect.value)
    : M (list reflect.value) :=
  match rest with
  | [] => ret vals
  | f2 :: rest' =>
      vals' <- readField RI i f2 vals ;;
      readFields RI rest' (S i) vals'
  end.

End Field.

(** *** ReadInterface *)

(** The body of [ReadInterface] around its [switch v2.Kind()], which is
    [switch] here: the custom [Read] first, then the pointer check, the
    switch, and [Validate]. *)
Definition readInterface (switch : reflect.value -> M reflect.value)
    (isptr : bool) (t : reflect.type) (x : reflect.value) : M reflect.value :=
  match asReader isptr t with
  | Some (recv, ri) => callRead t recv ri x
  | None =>
      if negb isptr then fail (ErrExpectedPointer (reflect.KindOf t))
      else
        x' <- switch x ;;
        match asValidateable isptr t with
        | Some (_, val) => callValidate t val x'
        | None => ret x'
        end
  end.

(** [switch v2.Kind()] for a location [v2] of type [t]. *)
Fixpoint kindSwitch (t : reflect.type) (v2 : reflect.value) {struct t}
    : M reflect.value :=
  match t with
  | reflect.mkType _ sh =>
      match sh with
      | reflect.Basic reflect.Bool =>
          d <- Uint8 ;; ret (reflect.VBool (negb (d =? 0)))
      | reflect.Basic reflect.Uint => d <- Uint64 ;; ret (reflect.VUint d)
      | reflect.Basic reflect.Uint64 => d <- Uint64 ;; ret (reflect.VUint d)
      | reflect.Basic reflect.Uint32 => d <- Uint32 ;; ret (reflect.VUint d)
      | reflect.Basic reflect.Uint16 => d <- Uint16 ;; ret (reflect.VUint d)
      | reflect.Basic reflect.Uint8 => d <- Uint8 ;; ret (reflect.VUint d)
      | reflect.Basic reflect.Int => d <- Int64 ;; ret (reflect.VInt d)
      | reflect.Basic reflect.Int64 => d <- Int64 ;; ret (reflect.VInt d)
      | reflect.Basic reflect.Int32 => d <- Int32 ;; ret (reflect.VInt d)
      | reflect.Basic reflect.Int16 => d <- Int16 ;; ret (reflect.VInt d)
      | reflect.Basic reflect.Int8 => d <- Int8 ;; ret (reflect.VInt d)
      | reflect.Basic reflect.Float32 =>
          (* [v2.SetFloat(float64(f))] *)
          f <- Float32 ;; ret (reflect.VFloat (quiet32 f))
      | reflect.Basic reflect.Float64 => f <- Float64 ;; ret (reflect.VFloat f)
      | reflect.ArrayOf _ elem =>
          l <- forEach (readInterface (kindSwitch elem) true elem) (reflect.Elems v2) ;;
          ret (reflect.VList l)
      | reflect.SliceOf elem =>
          l <- forEach (readInterface (kindSwitch elem) true elem) (reflect.Elems v2) ;;
          ret (reflect.VList l)
      | reflect.Basic reflect.String =>
          found <- scanString goint.MaxInt32 ;;
          ret (reflect.VString (fst found))
      | reflect.StructOf fs =>
          l <- readFields fs (fun t' => readInterface (kindSwitch t') true t')
                 fs O (reflect.Fields v2) ;;
          ret (reflect.VStruct l)
      | reflect.Basic k => fail (ErrUnknownKind k)
      end
  end.

(** [func (r *BinaryReader) ReadInterface(v interface{}) error]; the
    value returned is the one left at the destination. *)
Definition ReadInterface (v : iface) : M reflect.value :=
  readInterface (kindSwitch (typeOf v)) (isPointer v) (typeOf v) (valueOf v).

End Engine.

End binary.

(** * The search tree of package [container]

    A [*Node] is [option Node], nil being [None]; the data of a node, an
    [interface{}], is [option A], nil being [None] (a node without data
    is an empty tree; [Add] is not given nil).  The code works in place
    through pointers.  A pointer into the tree is modelled by the path
    that leads to its node from the root, and an assignment through a
    pointer by the replacement of the subtree at that path. *)

Module container.

Inductive panicValue :=
| PString (msg : string)
| PResult (c : Z)                 (* [panic(c)] on a comparison result *)
| PNilDereference                 (* a field of a nil pointer *)
| PIndex.                         (* an index or slice bound out of range *)

Inductive result (T : Type) :=
| Done (x : T)
| Panic (p : panicValue).
Arguments Done {T} x.
Arguments Panic {T} p.

Definition ComparisonResult := Z.
Definition Less : ComparisonResult := 0.
Definition Equal : ComparisonResult := 1.
Definition Greater : ComparisonResult := 2.

Section Trees.

Variable A : Type.

Inductive Node :=
| mkNode (Data : option A) (Children0 Children1 : option Node).

Definition Data (n : Node) : option A :=
  match n with mkNode d _ _ => d end.

(** [n.Children[i]]; the code uses the indices 0 and 1 only. *)
Definition Children (n : Node) (i : Z) : option Node :=
  match n with mkNode _ c0 c1 => if i =? 0 then c0 else c1 end.

Definition Compare := A -> A -> ComparisonResult.

Record Tree := mkTree { TreeCompare : Compare; Root : Node }.

(** A pointer to a node of the tree: the child indices from the root. *)
Definition pointer := list Z.

(** [*p], from the node the path starts at. *)
Fixpoint load (p : pointer) (n : Node) : option Node :=
  match p with
  | [] => Some n
  | i :: p' =>
      match Children n i with
      | Some c => load p' c
      | None => None
      end
  end.

(** The tree once the pointer variable at [p] (the root, or the slot
    [Children[i]] of a node) holds [slot]. *)
Fixpoint store (p : pointer) (slot : option Node) (cur : option Node)
    : option Node :=
  match p with
  | [] => slot
  | i :: p' =>
      match cur with
      | Some (mkNode d c0 c1) =>
          Some (if i =? 0 then mkNode d (store p' slot c0) c1
                else mkNode d c0 (store p' slot c1))
      | None => None
      end
  end.

(** The root after [*p = n']; the root is a node, not a pointer. *)
Definition assign (p : pointer) (n' : option Node) (root : Node) : Node :=
  match store p n' (Some root) with
  | Some root' => root'
  | None => root
  end.

(** [func (n *Node) find(data, cmp, child, parent) (rchild, retparent, node)];
    [here] is the pointer [n] itself. *)
Fixpoint find (n : Node) (data : A) (cmp : Compare) (child : Z)
    (parent : option pointer) (here : pointer)
    : result (Z * option pointer * option pointer) :=
  match n with
  | mkNode d c0 c1 =>
      match d with
      | None => Done (child, parent, Some here)
      | Some x =>
          let c := cmp data x in
          if c =? Equal then Done (child, parent, Some here)
          else if c =? Less then
            match c0 with
            | None => Done (0, Some here, None)
            | Some l => find l data cmp 0 (Some here) (here ++ [0])
            end
          else if c =? Greater then
            match c1 with
            | None => Done (1, Some here, None)
            | Some r => find r data cmp 1 (Some here) (here ++ [1])
            end
          else Panic (PResult c)
      end
  end.

Definition Find (n : Node) (data : A) (cmp : Compare)
    : result (Z * option pointer * option pointer) :=
  find n data cmp (-1) None [].

(** [func (n *Node) Walk(ch chan interface{})]: the values sent on the
    channel, in the order they are sent. *)
Fixpoint Walk (n : Node) : list A :=
  match n with
  | mkNode d c0 c1 =>
      (match c0 with Some l => Walk l | None => [] end)
      ++ (match d with Some x => [x] | None => [] end)
      ++ (match c1 with Some r => Walk r | None => [] end)
  end.

(** [func (n *Node) delete(child int, parent *Node)], called with the
    parent of [n] and the index of [n] in it, or with nil for the root.
    The result is what the pointer variable that held [n] holds
    afterwards: [n] itself as it was changed in place, or nil when the
    parent's slot was cleared. *)
Fixpoint delete (n : Node) (parent : bool) : result (option Node) :=
  match n with
  | mkNode d a b =>
      match a, b with
      | None, None =>
          if parent then Done None
          else Done (Some (mkNode None None None))
      | None, Some nb => Done (Some nb)
      | Some na, Some _ => Done (Some na)
      | Some na, None =>
          match na with
          | mkNode ad al ac =>
              match ac with
              | Some nac =>
                  match delete nac true with
                  | Done slot =>
                      Done (Some (mkNode (Data nac) (Some (mkNode ad al slot)) None))
                  | Panic p => Panic p
                  end
              | None => Panic PNilDereference      (* [b.Children[0]], [b] nil *)
              end
          end
      end
  end.

Definition setData (data : option A) (n : Node) : Node :=
  match n with mkNode _ c0 c1 => mkNode data c0 c1 end.

Definition setChild (i : Z) (c : option Node) (n : Node) : Node :=
  match n with
  | mkNode d c0 c1 => if i =? 0 then mkNode d c c1 else mkNode d c0 c
  end.

(** [func (t *Tree) Add(data interface{})] *)
Definition Add (t : Tree) (data : A) : result Tree :=
  match Find (Root t) data (TreeCompare t) with
  | Panic p => Panic p
  | Done (child, p, n) =>
      match n with
      | Some np =>
          match load np (Root t) with
          | Some node =>
              Done (mkTree (TreeCompare t)
                      (assign np (Some (setData (Some data) node)) (Root t)))
          | None => Panic PNilDereference
          end
      | None =>
          match p with
          | Some pp =>
              match load pp (Root t) with
              | Some pn =>
                  match Data pn with
                  | Some _ =>
                      Done (mkTree (TreeCompare t)
                              (assign pp
                                 (Some (setChild child
                                          (Some (mkNode (Some data) None None)) pn))
                                 (Root t)))
                  | None => Panic (PString "Both parent and child was null")
                  end
              | None => Panic PNilDereference
              end
          | None => Panic PNilDereference
          end
      end
  end.

(** [func (t *Tree) Delete(data interface{})] *)
Definition Delete (t : Tree) (data : A) : result Tree :=
  match Find (Root t) data (TreeCompare t) with
  | Panic p => Panic p
  | Done (child, p, n) =>
      match n with
      | None => Panic (PString "Unable to find that node")
      | Some np =>
          match load np (Root t) with
          | Some node =>
              match delete node (match p with Some _ => true | None => false end) with
              | Done slot => Done (mkTree (TreeCompare t) (assign np slot (Root t)))
              | Panic v => Panic v
              end
          | None => Panic PNilDereference
          end
      end
  end.

End Trees.

Arguments mkNode {A} Data Children0 Children1.
Arguments Data {A} n.
Arguments Children {A} n i.
Arguments mkTree {A} TreeCompare Root.
Arguments TreeCompare {A} t.
Arguments Root {A} t.
Arguments load {A} p n.
Arguments store {A} p slot cur.
Arguments assign {A} p n' root.
Arguments find {A} n data cmp child parent here.
Arguments Find {A} n data cmp.
Arguments Walk {A} n.
Arguments delete {A} n parent.
Arguments setData {A} data n.
Arguments setChild {A} i c n.
Arguments Add {A} t data.
Arguments Delete {A} t data.

(** ** The arrays

    The methods have pointer receivers and work on the slice [model] in
    place: a method takes the array and returns it with its result.  An
    [interface{}] is nil, an [int] or a value of another type. *)

Inductive any :=
| Nil
| Int (i : Z)
| Other (v : string).

Inductive error := ErrNotInt | ErrIndexOOB.

(** The builtin [copy(dst, src)]: [dst] afterwards. *)
Definition copy {T} (dst src : list T) : list T :=
  take (length dst) src ++ drop (length src) dst.

(** [s[i]] and the bounds of [s[i:]] and [s[:i]]; a bound between the
    length and the capacity passes the slicing and fails at the next
    index, so that the length is the bound here. *)
Definition inRange {T} (s : list T) (i : Z) : bool :=
  (0 <=? i) && (i <? Z.of_nat (length s)).
Definition inBounds {T} (s : list T) (i : Z) : bool :=
  (0 <=? i) && (i <=? Z.of_nat (length s)).

(** [type Array interface] *)
Class Array (T : Type) := {
  Insert : T -> Z -> any -> result (option error * T);
  Remove : T -> Z -> result (any * option error * T);
  Get : T -> Z -> result any;
  Len : T -> Z
}.

Record IntArray := mkIntArray { model : list Z }.
Record BasicArray := mkBasicArray { items : list any }.   (* the field [model] *)
Record BoundsCheckingArray (T : Type) := mkBoundsCheckingArray { embedded : T }.
Arguments mkBoundsCheckingArray {T} embedded.
Arguments embedded {T} b.

(** The slice [nmodel] that [Insert] builds. *)
Definition nmodel {T} (zero : T) (model : list T) (index : Z) (data : T) : list T :=
  let i := Z.to_nat index in
  let nmodel := replicate (length model + 1) zero in
  let nmodel := copy nmodel (take i model) in
  let nmodel := <[i := data]> nmodel in
  take (i + 1) nmodel ++ copy (drop (i + 1) nmodel) (drop i model).

(** [func (i *IntArray) Insert(index int, data interface{}) error]: the
    new slice is built and dropped. *)
Definition IntArray_Insert (a : IntArray) (index : Z) (data : any)
    : result (option error * IntArray) :=
  match data with
  | Int ii =>
      if inBounds (model a) index then
        let built := nmodel 0 (model a) index ii in
        Done (None, a)
      else Panic PIndex
  | _ => Done (Some ErrNotInt, a)
  end.

(** [func (i *IntArray) Remove(index int) (olddata interface{}, err error)] *)
Definition IntArray_Remove (a : IntArray) (index : Z)
    : result (any * option error * IntArray) :=
  if inRange (model a) index then
    let i := Z.to_nat index in
    let olddata := Int (nth i (model a) 0) in
    Done (olddata, None,
          mkIntArray (take i (model a)
                      ++ copy (drop i (model a)) (drop (i + 1) (model a))))
  else Panic PIndex.

Definition IntArray_Get (a : IntArray) (index : Z) : result any :=
  if inRange (model a) index then Done (Int (nth (Z.to_nat index) (model a) 0))
  else Panic PIndex.

Definition IntArray_Len (a : IntArray) : Z := Z.of_nat (length (model a)).

#[export] Instance IntArray_Array : Array IntArray := {
  Insert := IntArray_Insert;
  Remove := IntArray_Remove;
  Get := IntArray_Get;
  Len := IntArray_Len
}.

(** [func (a *BasicArray) Insert(index int, data interface{}) error] *)
Definition BasicArray_Insert (a : BasicArray) (index : Z) (data : any)
    : result (option error * BasicArray) :=
  if inBounds (items a) index then
    let built := nmodel Nil (items a) index data in
    Done (None, a)
  else Panic PIndex.

Definition BasicArray_Remove (a : BasicArray) (i : Z)
    : result (any * option error * BasicArray) :=
  if inRange (items a) i then
    let k := Z.to_nat i in
    let olddata := nth k (items a) Nil in
    Done (olddata, None,
          mkBasicArray (take k (items a)
                        ++ copy (drop k (items a)) (drop (k + 1) (items a))))
  else Panic PIndex.

Definition BasicArray_Get (a : BasicArray) (index : Z) : result any :=
  if inRange (items a) index then Done (nth (Z.to_nat index) (items a) Nil)
  else Panic PIndex.

Definition BasicArray_Len (a : BasicArray) : Z := Z.of_nat (length (items a)).

#[export] Instance BasicArray_Array : Array BasicArray := {
  Insert := BasicArray_Insert;
  Remove := BasicArray_Remove;
  Get := BasicArray_Get;
  Len := BasicArray_Len
}.

Section BoundsChecking.

Context {T : Type} `{Array T}.

(** [func (b *BoundsCheckingArray) Insert(index int, data interface{}) error] *)
Definition BoundsCheckingArray_Insert (b : BoundsCheckingArray T) (index : Z)
    (data : any) : result (option error * BoundsCheckingArray T) :=
  if (index <? 0) || (index >? Len (embedded b)) then Done (Some ErrIndexOOB, b)
  else
    match Insert (embedded b) index data with
    | Done (err, a) => Done (err, mkBoundsCheckingArray a)
    | Panic v => Panic v
    end.

Definition BoundsCheckingArray_Remove (b : BoundsCheckingArray T) (index : Z)
    : result (any * option error * BoundsCheckingArray T) :=
  if (index <? 0) || (index >=? Len (embedded b))
  then Done (Nil, Some ErrIndexOOB, b)
  else
    match Remove (embedded b) index with
    | Done (olddata, err, a) => Done (olddata, err, mkBoundsCheckingArray a)
    | Panic v => Panic v
    end.

Definition BoundsCheckingArray_Get (b : BoundsCheckingArray T) (index : Z)
    : result any :=
  if (index <? 0) || (index >=? Len (embedded b)) then Done Nil
  else Get (embedded b) index.

(** [Len] is the method of the embedded array. *)
Definition BoundsCheckingArray_Len (b : BoundsCheckingArray T) : Z :=
  Len (embedded b).

#[export] Instance BoundsCheckingArray_Array : Array (BoundsCheckingArray T) := {
  Insert := BoundsCheckingArray_Insert;
  Remove := BoundsCheckingArray_Remove;
  Get := BoundsCheckingArray_Get;
  Len := BoundsCheckingArray_Len
}.

End BoundsChecking.

End container.

(** * The region set of package [text]

    The type [Region] is declared elsewhere in the package; the set
    uses it through its methods only, which are the variables of the
    section.  The methods of the set hold its lock while they run; one
    call at a time is modelled, and the lock is left out. *)

Module text.

Section RegionSets.

Variable Region : Type.
Variable Begin : Region -> Z.
Variable End_ : Region -> Z.
Variable Empty : Region -> bool.

Record RegionSet := mkRegionSet { regions : list Region }.

(** [func (r *RegionSet) Len() int] *)
Definition Len (r : RegionSet) : Z := Z.of_nat (length (regions r)).

(** [r.regions[i]]; [None] is the panic of an index out of range. *)
Definition at_ (r : RegionSet) (i : Z) : option Region :=
  if (0 <=? i) && (i <? Len r) then nth_error (regions r) (Z.to_nat i) else None.

(** [func (r *RegionSet) Get(i int) Region] *)
Definition Get (r : RegionSet) (i : Z) : option Region := at_ r i.

(** [func (r *RegionSet) Less(i, j int) bool] *)
Definition Less (r : RegionSet) (i j : Z) : option bool :=
  match at_ r i, at_ r j with
  | Some ri, Some rj =>
      let bi := Begin ri in
      let bj := Begin rj in
      if bi <? bj then Some true
      else if bi =? bj then Some (End_ ri <? End_ rj)
      else Some false
  | _, _ => None
  end.

(** [func (r *RegionSet) HasNonEmpty() bool] *)
Definition HasNonEmpty (r : RegionSet) : bool :=
  (fix loop (l : list Region) : bool :=
     match l with
     | [] => false
     | x :: l' => if negb (Empty x) then true else loop l'
     end) (regions r).

(** [func (r *RegionSet) HasEmpty() bool] *)
Definition HasEmpty (r : RegionSet) : bool :=
  (fix loop (l : list Region) : bool :=
     match l with
     | [] => false
     | x :: l' => if Empty x then true else loop l'
     end) (regions r).

End RegionSets.

Arguments mkRegionSet {Region} regions.
Arguments regions {Region} r.
Arguments Len {Region} r.
Arguments at_ {Region} r i.
Arguments Get {Region} r i.
Arguments Less {Region} Begin End_ r i j.
Arguments HasNonEmpty {Region} Empty r.
Arguments HasEmpty {Region} Empty r.

End text.

(** * Properties of the expression grammar *)

Module expression_facts.
Import expression.

#[local] Open Scope nat_scope.

(** The number of binary operations of a tree, and of opening
    parentheses of a text. *)
Fixpoint binops (t : Node) : nat :=
  match t with
  | NOp _ l r => S (binops l + binops r)
  | _ => 0
  end.

Definition is_lparen (c : ascii) : bool := Ascii.eqb c "("%char.

Fixpoint lparens (s : input) : nat :=
  match s with
  | [] => 0
  | c :: s' => (if is_lparen c then 1 else 0) + lparens s'
  end.

(** What a rule consumed holds no parenthesis but the ones it is charged
    for: [k] is the number of opening parentheses the rule may take from
    [s] when it leaves [r]. *)
Definition takes (s r : input) (k : nat) : Prop :=
  length r <= length s /\ lparens s = k + lparens r.

(** *** The text of a tree

    The operator tokens as the grammar writes them, and a tree written
    back as text, every nested operation in parentheses. *)
Definition token (o : operator) : input :=
  match o with
  | OShiftRight => [">"; ">"]
  | OShiftLeft => ["<"; "<"]
  | OAndNot => ["&"; "^"]
  | OMask => ["&"]
  | OAdd => ["+"]
  | OSub => ["-"]
  | OMul => ["*"]
  | OEq => ["="; "="]
  | ONe => ["!"; "="]
  | OLt => ["<"]
  | OLe => ["<"; "="]
  | OGt => [">"]
  | OGe => [">"; "="]
  end%char.

Fixpoint dots (path : list input) : input :=
  match path with
  | [] => []
  | [i] => i
  | i :: rest => i ++ "."%char :: dots rest
  end.

(** The text of the identifiers of a path after the first one. *)
Fixpoint dotteds (ids : list input) : input :=
  match ids with
  | [] => []
  | i :: rest => "."%char :: i ++ dotteds rest
  end.

Definition parens (t : Node) (s : input) : input :=
  match t with
  | NOp _ _ _ => "("%char :: s ++ [")"%char]
  | _ => s
  end.

Fixpoint show (t : Node) : input :=
  match t with
  | NConstant text => text
  | NDotIdentifier path => dots path
  | NOp o l r => parens l (show l) ++ token o ++ parens r (show r)
  end.

(** A tree as an operand. *)
Definition operand (t : Node) : input := parens t (show t).

(** The operations of a tree, itself included when it is one, and the
    operations nested in it: those of its operands. *)
Fixpoint operations (t : Node) : list Node :=
  match t with
  | NOp _ l r => t :: operations l ++ operations r
  | _ => []
  end.

Definition nested (t : Node) : list Node :=
  match t with
  | NOp _ l r => operations l ++ operations r
  | _ => []
  end.

(** The text [s] holds the operation [sub] in parentheses. *)
Definition encloses (s : input) (sub : Node) : Prop :=
  exists pre post, s = pre ++ "("%char :: show sub ++ ")"%char :: post.

(** The texts of the leaves: a constant is a run of digits or "0x" and a
    run of hexadecimal digits, an identifier an upper-case letter and a
    run of letters, digits and underscores. *)
Definition isConstantText (text : input) : bool :=
  match literal ["0"; "x"]%char text with
  | Some ds => negb (EndOfFile ds) && forallb is_hex ds
  | None => negb (EndOfFile text) && forallb is_digit text
  end.

Definition isIdentifierText (i : input) : bool :=
  match i with
  | c :: cs => is_upper c && forallb is_ident cs
  | [] => false
  end.

Fixpoint wellFormed (t : Node) : bool :=
  match t with
  | NConstant text => isConstantText text
  | NDotIdentifier path =>
      match path with [] => false | _ => forallb isIdentifierText path end
  | NOp _ l r => wellFormed l && wellFormed r
  end.

(** A text without its spacing. *)
Fixpoint despace (s : input) : input :=
  match s with
  | [] => []
  | c :: s' => if is_space c then despace s' else c :: despace s'
  end.

(** The nesting depth of the operations of a tree. *)
Fixpoint depth (t : Node) : nat :=
  match t with
  | NOp _ l r => S (Nat.max (depth l) (depth r))
  | _ => 0
  end.

(** A character after which an operand ends: no spacing, nothing an
    identifier or a constant goes on with. *)
Definition stops (c : ascii) : bool :=
  negb (is_space c || is_ident c || (code c =? 46)%N).

Definition follows (rest : input) : bool :=
  match rest with
  | [] => true
  | c :: _ => stops c
  end.

(** A character an operand starts with. *)
Definition starts (c : ascii) : bool :=
  is_digit c || is_upper c || (code c =? 40)%N.

(** What a rule made of its input: the tree is well formed and its text
    is what was consumed, spacing apart. *)
Definition renders (out : Node -> input) (s : input) (t : Node) (r : input) : Prop :=
  wellFormed t = true /\ despace s = out t ++ despace r.

(** *** The table of [TestEval]

    The record of [eval_test.go], [{Length: 3, Sub: {Something: 10}}],
    and its fifteen expressions with the results the test expects. *)
Definition TestEval_fields : list reflect.StructField :=
  [reflect.mkField "Length" "" (reflect.basic reflect.Int) [];
   reflect.mkField "Sub" ""
     (reflect.declared "s"
        (reflect.structOf [reflect.mkField "Something" "" (reflect.basic reflect.Int) []]))
     []].

Definition TestEval_values : list reflect.value :=
  [reflect.VInt 3; reflect.VStruct [reflect.VInt 10]].

Definition TestEval_run (text : string) : option (EvalError + Z) :=
  match Parse text with
  | Some root => Some (Eval TestEval_fields TestEval_values root)
  | None => None
  end.

Lemma lparens_cons c s :
  lparens (c :: s) = (if is_lparen c then 1 else 0) + lparens s.
Proof. reflexivity. Qed.

Lemma takes_refl s : takes s s 0.
Proof. split; [lia | reflexivity]. Qed.

Lemma takes_trans s1 s2 s3 j k :
  takes s1 s2 j -> takes s2 s3 k -> takes s1 s3 (j + k).
Proof. unfold takes. lia. Qed.

Lemma literal_takes tok : forall s r,
  literal tok s = Some r ->
  length s = length tok + length r /\ lparens s = lparens tok + lparens r.
Proof.
  induction tok as [|c tok IH]; simpl; intros s r H.
  - inversion H. split; reflexivity.
  - destruct s as [|d s]; [discriminate|].
    destruct (Ascii.eqb c d) eqn:E; [|discriminate].
    apply Ascii.eqb_eq in E. subst d.
    destruct (IH _ _ H) as [Hl Hp].
    rewrite !lparens_cons. simpl. lia.
Qed.

Lemma span_takes p : p "("%char = false -> forall s m r,
  span p s = (m, r) -> length s = length m + length r /\ lparens s = lparens r.
Proof.
  intros Hp. induction s as [|c s IH]; simpl; intros m r H.
  - inversion H. split; reflexivity.
  - destruct (p c) eqn:E.
    + destruct (span p s) as [m' r'] eqn:Es. inversion H; subst.
      destruct (IH _ _ eq_refl) as [Hl Hc].
      simpl. split; [lia|].
      replace (is_lparen c) with false; [simpl; exact Hc|].
      symmetry. destruct (is_lparen c) eqn:El; [|reflexivity].
      apply Ascii.eqb_eq in El. subst c. congruence.
    + inversion H; subst. split; reflexivity.
Qed.

Lemma optSpacing_takes s : takes s (optSpacing s) 0.
Proof.
  unfold optSpacing. destruct (span is_space s) as [m r] eqn:E.
  apply span_takes in E; [|reflexivity]. simpl. unfold takes. lia.
Qed.

Lemma span1_takes p s m r :
  p "("%char = false -> span1 p s = Some (m, r) ->
  length r < length s /\ lparens s = lparens r.
Proof.
  intros Hp. unfold span1. destruct (span p s) as [m' r'] eqn:E.
  apply span_takes in E; [|exact Hp].
  destruct m' as [|c m']; [discriminate|].
  intros H. inversion H; subst. simpl in E. lia.
Qed.

Lemma choice_inv {A} (p q : parser A) s x :
  (p </> q) s = Some x -> p s = Some x \/ q s = Some x.
Proof. unfold choice. destruct (p s); [left | right]; assumption. Qed.

Lemma Constant_takes s t r :
  Constant s = Some (t, r) -> takes s r 0 /\ binops t = 0 /\ length r < length s.
Proof.
  unfold Constant. intros H. apply choice_inv in H. destruct H as [H|H].
  - destruct (literal _ s) as [s1|] eqn:E1; [|discriminate].
    destruct (span1 is_hex s1) as [[ds s2]|] eqn:E2; [|discriminate].
    inversion H; subst.
    apply literal_takes in E1. apply span1_takes in E2; [|reflexivity].
    unfold takes. cbn in E1. cbn. lia.
  - destruct (span1 is_digit s) as [[ds s1]|] eqn:E; [|discriminate].
    inversion H; subst. apply span1_takes in E; [|reflexivity].
    unfold takes. simpl. lia.
Qed.

Lemma Identifier_takes s i r :
  Identifier s = Some (i, r) -> length r < length s /\ lparens s = lparens r.
Proof.
  unfold Identifier. destruct s as [|c s]; [discriminate|].
  destruct (is_upper c) eqn:E; [|discriminate].
  destruct (span is_ident s) as [cs s2] eqn:Es. intros H. inversion H; subst.
  apply span_takes in Es; [|reflexivity].
  rewrite lparens_cons. simpl.
  replace (is_lparen c) with false; [simpl; lia|].
  symmetry. destruct (is_lparen c) eqn:El; [|reflexivity].
  apply Ascii.eqb_eq in El. subst c. discriminate.
Qed.

Lemma dotted_takes s i r :
  dotted s = Some (i, r) -> length r < length s /\ lparens s = lparens r.
Proof.
  unfold dotted. destruct (literal _ s) as [s'|] eqn:E; [|discriminate].
  intros H. apply Identifier_takes in H. apply literal_takes in E.
  cbn in E. lia.
Qed.

Lemma star_dotted_takes : forall n s l r,
  star n dotted s = (l, r) -> takes s r 0.
Proof.
  induction n as [|n IH]; simpl; intros s l r H.
  - inversion H. apply takes_refl.
  - destruct (dotted s) as [[a s']|] eqn:E.
    + destruct (star n dotted s') as [l' r'] eqn:Es. inversion H; subst.
      apply dotted_takes in E. apply IH in Es. unfold takes in *. simpl. lia.
    + inversion H. apply takes_refl.
Qed.

(** [length s] rounds are all [('.' Identifier)*] can make on [s]: more
    fuel changes nothing. *)
Lemma star_fuel : forall n m s,
  length s <= n -> length s <= m -> star n dotted s = star m dotted s.
Proof.
  induction n as [|n IH]; intros m s Hn Hm.
  - destruct s; [|simpl in Hn; lia]. destruct m; reflexivity.
  - destruct m as [|m].
    + destruct s; [reflexivity | simpl in Hm; lia].
    + simpl. destruct (dotted s) as [[a s']|] eqn:E; [|reflexivity].
      apply dotted_takes in E. rewrite (IH m s') by lia. reflexivity.
Qed.

Lemma DotIdentifier_takes s t r :
  DotIdentifier s = Some (t, r) -> takes s r 0 /\ binops t = 0 /\ length r < length s.
Proof.
  unfold DotIdentifier. destruct (Identifier s) as [[i s1]|] eqn:E; [|discriminate].
  destruct (star (length s1) dotted s1) as [ids s2] eqn:Es.
  intros H. inversion H; subst.
  apply Identifier_takes in E. apply star_dotted_takes in Es.
  unfold takes in *. simpl. lia.
Qed.

(** The operator rules over a [Grouping] rule that pays one opening
    parenthesis for every binary operation it returns. *)
Section OperatorRules.

Variable G : parser Node.
Hypothesis G_takes : forall s t r, G s = Some (t, r) -> takes s r (binops t).

Lemma binary_takes tok o s t r :
  lparens tok = 0 ->
  binary G tok o s = Some (t, r) ->
  takes s r (binops t - 1) /\ 1 <= binops t.
Proof.
  intros Htok. unfold binary.
  destruct (G s) as [[l s1]|] eqn:E1; [|discriminate].
  destruct (literal tok s1) as [s2|] eqn:E2; [|discriminate].
  destruct (G s2) as [[r0 s3]|] eqn:E3; [|discriminate].
  intros H. inversion H; subst.
  apply G_takes in E1. apply G_takes in E3. apply literal_takes in E2.
  unfold takes in *. simpl. lia.
Qed.

Lemma Op_takes s t r :
  Op G s = Some (t, r) -> takes s r (binops t - 1) /\ 1 <= binops t.
Proof.
  unfold Op, BooleanOp. intros H.
  repeat (apply choice_inv in H; destruct H as [H|H]);
    (eapply binary_takes; [|exact H]); reflexivity.
Qed.

Lemma Paren_takes s t r :
  Paren G s = Some (t, r) -> takes s r (binops t) /\ length r < length s.
Proof.
  unfold Paren.
  destruct (literal _ s) as [s1|] eqn:E1; [|discriminate].
  destruct (Op G s1) as [[t0 s2]|] eqn:E2; [|discriminate].
  destruct (literal _ s2) as [s3|] eqn:E3; [|discriminate].
  intros H. inversion H; subst.
  apply literal_takes in E1. apply literal_takes in E3. apply Op_takes in E2.
  unfold takes in *. cbn in E1, E3. lia.
Qed.

End OperatorRules.

Lemma Grouping_takes : forall n s t r,
  Grouping n s = Some (t, r) -> takes s r (binops t).
Proof.
  induction n as [|n IH]; simpl; intros s t r H; [discriminate|].
  destruct ((Paren (Grouping n) </> Constant </> DotIdentifier) (optSpacing s))
    as [[t0 s1]|] eqn:E; [|discriminate].
  inversion H; subst.
  pose proof (optSpacing_takes s) as H0. pose proof (optSpacing_takes s1) as H1.
  assert (takes (optSpacing s) s1 (binops t)) as H2.
  { apply choice_inv in E. destruct E as [E|E].
    - apply choice_inv in E. destruct E as [E|E].
      + apply (Paren_takes _ IH) in E. tauto.
      + apply Constant_takes in E. destruct E as (E & -> & _). exact E.
    - apply DotIdentifier_takes in E. destruct E as (E & -> & _). exact E. }
  unfold takes in *. lia.
Qed.

(** *** Enough fuel

    The rules look at their input only through [Grouping] on texts no
    longer than it; [Grouping] with more fuel than its text has characters
    has all the fuel it can use. *)

Lemma choice_ext {A} (p p' q q' : parser A) s :
  p s = p' s -> q s = q' s -> (p </> q) s = (p' </> q') s.
Proof. unfold choice. intros -> ->. reflexivity. Qed.

Section Extensionality.

Variables G G' : parser Node.
Hypothesis G_takes : forall s t r, G s = Some (t, r) -> takes s r (binops t).

Lemma binary_ext tok o s :
  (forall s', length s' <= length s -> G s' = G' s') ->
  binary G tok o s = binary G' tok o s.
Proof.
  intros H. unfold binary. rewrite <- (H s) by lia.
  destruct (G s) as [[l s1]|] eqn:E1; [|reflexivity].
  destruct (literal tok s1) as [s2|] eqn:E2; [|reflexivity].
  apply G_takes in E1. apply literal_takes in E2.
  rewrite <- (H s2); [reflexivity|]. unfold takes in E1. lia.
Qed.

Lemma Op_ext s :
  (forall s', length s' <= length s -> G s' = G' s') ->
  Op G s = Op G' s.
Proof.
  intros H. unfold Op, BooleanOp.
  repeat apply choice_ext; apply binary_ext; exact H.
Qed.

Lemma Paren_ext s :
  (forall s', length s' < length s -> G s' = G' s') ->
  Paren G s = Paren G' s.
Proof.
  intros H. unfold Paren.
  destruct (literal _ s) as [s1|] eqn:E1; [|reflexivity].
  apply literal_takes in E1. cbn in E1.
  rewrite (Op_ext s1); [reflexivity|].
  intros s' Hs'. apply H. lia.
Qed.

End Extensionality.

Lemma Grouping_fuel : forall n m s,
  length s < n -> length s < m -> Grouping n s = Grouping m s.
Proof.
  induction n as [|n IH]; intros m s Hn Hm; [lia|].
  destruct m as [|m]; [lia|]. simpl.
  pose proof (optSpacing_takes s) as [H0 _].
  rewrite (choice_ext _ (Paren (Grouping m) </> Constant) _ DotIdentifier);
    [reflexivity | | reflexivity].
  apply choice_ext; [|reflexivity].
  apply Paren_ext; [apply Grouping_takes|].
  intros s' Hs'. apply IH; lia.
Qed.

Lemma Expression_fuel n m s :
  length s < n -> length s < m -> Expression n s = Expression m s.
Proof.
  intros Hn Hm. unfold Expression.
  rewrite (choice_ext _ (Op (Grouping m)) _ (Grouping m)); [reflexivity | |].
  - apply Op_ext; [apply Grouping_takes|].
    intros s' Hs'. apply Grouping_fuel; lia.
  - apply Grouping_fuel; lia.
Qed.

(** [Parse] is the grammar's verdict: no larger fuel changes its result. *)
Lemma Parse_fuel text n :
  length (list_ascii_of_string text) < n ->
  Expression n (list_ascii_of_string text) = Parse text.
Proof. intros H. unfold Parse. apply Expression_fuel; lia. Qed.

Lemma Expression_takes n s t :
  Expression n s = Some t -> binops t <= S (lparens s).
Proof.
  unfold Expression.
  destruct ((Op (Grouping n) </> Grouping n) s) as [[t0 s1]|] eqn:E; [|discriminate].
  destruct s1; [|discriminate]. simpl. intros H. inversion H; subst.
  apply choice_inv in E. destruct E as [E|E].
  - apply (Op_takes _ (Grouping_takes n)) in E. unfold takes in E. simpl in E. lia.
  - apply Grouping_takes in E. unfold takes in E. simpl in E. lia.
Qed.

(** The table of [TestEval] evaluates as the test expects. *)
Example Eval_tests :
  map TestEval_run
    ["1"; "1+2"; "(3*4)+2"; "Length"; "Length+1"; "Length-1"; "(Length+3)&^3";
     "((Length-1)+3)&^3"; "Length == 3"; "Length == 4"; "Length < 4";
     "Length > 3"; "Length >= 3"; "Sub.Something"; "Sub.Something + Length"]%string
  = map (fun z => Some (inr z)) [1; 3; 14; 3; 4; 2; 4; 4; 1; 0; 1; 0; 1; 10; 13]%Z.
Proof. reflexivity. Qed.

(** *** What the grammar accepts

    A text that parses is, spacing apart, the text of its tree. *)

Ltac classes :=
  unfold stops, is_space, is_ident, is_hex, is_upper, is_lower, is_digit,
    between, code in *;
  rewrite ?negb_true_iff, ?negb_false_iff, ?orb_false_iff, ?orb_true_iff,
    ?andb_true_iff, ?andb_false_iff, ?N.leb_le, ?N.leb_gt, ?N.eqb_eq, ?N.eqb_neq in *;
  lia.

Lemma digit_no_space c : is_digit c = true -> is_space c = false.
Proof. classes. Qed.
Lemma hex_no_space c : is_hex c = true -> is_space c = false.
Proof. classes. Qed.
Lemma ident_no_space c : is_ident c = true -> is_space c = false.
Proof. classes. Qed.
Lemma upper_ident c : is_upper c = true -> is_ident c = true.
Proof. classes. Qed.

Lemma despace_app a b : despace (a ++ b) = despace a ++ despace b.
Proof.
  induction a as [|c a IH]; simpl; [reflexivity|].
  destruct (is_space c); simpl; rewrite IH; reflexivity.
Qed.

Lemma despace_class p s :
  (forall c, p c = true -> is_space c = false) ->
  forallb p s = true -> despace s = s.
Proof.
  intros Hp. induction s as [|c s IH]; simpl; [reflexivity|].
  intros H. apply andb_prop in H. destruct H as [Hc Hs].
  rewrite (Hp c Hc), IH by exact Hs. reflexivity.
Qed.

Lemma despace_spaces s : forallb is_space s = true -> despace s = [].
Proof.
  induction s as [|c s IH]; simpl; [reflexivity|].
  intros H. apply andb_prop in H. destruct H as [-> Hs]. apply IH, Hs.
Qed.

Lemma literal_eq tok : forall s r, literal tok s = Some r -> s = tok ++ r.
Proof.
  induction tok as [|c tok IH]; simpl; intros s r H.
  - inversion H. reflexivity.
  - destruct s as [|d s]; [discriminate|].
    destruct (Ascii.eqb c d) eqn:E; [|discriminate].
    apply Ascii.eqb_eq in E. subst d. f_equal. apply IH, H.
Qed.

Lemma span_eq p : forall s m r,
  span p s = (m, r) -> s = m ++ r /\ forallb p m = true.
Proof.
  induction s as [|c s IH]; simpl; intros m r H.
  - inversion H. split; reflexivity.
  - destruct (p c) eqn:E.
    + destruct (span p s) as [m' r'] eqn:Es. inversion H; subst.
      destruct (IH _ _ eq_refl) as [-> Hm]. simpl. rewrite E, Hm. split; reflexivity.
    + inversion H. split; reflexivity.
Qed.

Lemma span1_eq p s m r :
  span1 p s = Some (m, r) -> s = m ++ r /\ forallb p m = true /\ EndOfFile m = false.
Proof.
  unfold span1. destruct (span p s) as [m' r'] eqn:E.
  apply span_eq in E. destruct m' as [|c m']; [discriminate|].
  intros H. inversion H; subst. tauto.
Qed.

Lemma optSpacing_despace s : despace (optSpacing s) = despace s.
Proof.
  unfold optSpacing. destruct (span is_space s) as [m r] eqn:E.
  apply span_eq in E. destruct E as [-> Hm]. simpl.
  rewrite despace_app, (despace_spaces m Hm). reflexivity.
Qed.

Lemma constant_no_space text : isConstantText text = true -> despace text = text.
Proof.
  unfold isConstantText. destruct (literal _ text) as [ds|] eqn:E.
  - apply literal_eq in E. subst text. intros H. apply andb_prop in H.
    cbn. f_equal. f_equal. apply (despace_class is_hex); [apply hex_no_space | tauto].
  - intros H. apply andb_prop in H.
    apply (despace_class is_digit); [apply digit_no_space | tauto].
Qed.

Lemma identifier_no_space i : isIdentifierText i = true -> despace i = i.
Proof.
  destruct i as [|c cs]; simpl; [discriminate|]. intros H.
  apply andb_prop in H. destruct H as [Hc Hcs].
  rewrite (ident_no_space c (upper_ident c Hc)). f_equal.
  apply (despace_class is_ident); [apply ident_no_space | exact Hcs].
Qed.

Lemma dots_cons i ids : dots (i :: ids) = i ++ dotteds ids.
Proof.
  revert i. induction ids as [|j ids IH]; intros i.
  - simpl. rewrite app_nil_r. reflexivity.
  - change (dots (i :: j :: ids)) with (i ++ "."%char :: dots (j :: ids)).
    rewrite IH. reflexivity.
Qed.

Lemma dotteds_no_space ids :
  forallb isIdentifierText ids = true -> despace (dotteds ids) = dotteds ids.
Proof.
  induction ids as [|i ids IH]; [reflexivity|].
  intros H. simpl in H. apply andb_prop in H. destruct H as [Hi Hp].
  change (dotteds (i :: ids)) with (["."%char] ++ i ++ dotteds ids).
  rewrite !despace_app, (identifier_no_space i Hi), (IH Hp). reflexivity.
Qed.

Lemma dots_no_space path :
  forallb isIdentifierText path = true -> despace (dots path) = dots path.
Proof.
  destruct path as [|i ids]; [reflexivity|].
  intros H. simpl in H. apply andb_prop in H. destruct H as [Hi Hp].
  rewrite dots_cons, despace_app, (identifier_no_space i Hi), (dotteds_no_space ids Hp).
  reflexivity.
Qed.

Lemma Constant_sound s t r :
  Constant s = Some (t, r) ->
  exists text, t = NConstant text /\ s = text ++ r /\ isConstantText text = true.
Proof.
  unfold Constant. intros H. apply choice_inv in H. destruct H as [H|H].
  - destruct (literal _ s) as [s1|] eqn:E1; [|discriminate].
    destruct (span1 is_hex s1) as [[ds s2]|] eqn:E2; [|discriminate].
    inversion H; subst. apply literal_eq in E1. apply span1_eq in E2.
    destruct E2 as (-> & Hh & Hne). subst s.
    exists ("0" :: "x" :: ds)%char. split; [reflexivity|]. split; [reflexivity|].
    unfold isConstantText. cbn. rewrite Hne, Hh. reflexivity.
  - destruct (span1 is_digit s) as [[ds s1]|] eqn:E; [|discriminate].
    inversion H; subst. apply span1_eq in E. destruct E as (-> & Hd & Hne).
    exists ds. split; [reflexivity|]. split; [reflexivity|].
    unfold isConstantText.
    destruct (literal _ ds) as [hs|] eqn:El.
    + apply literal_eq in El. subst ds. cbn in Hd. discriminate.
    + rewrite Hne, Hd. reflexivity.
Qed.

Lemma Identifier_sound s i r :
  Identifier s = Some (i, r) -> s = i ++ r /\ isIdentifierText i = true.
Proof.
  unfold Identifier. destruct s as [|c s]; [discriminate|].
  destruct (is_upper c) eqn:E; [|discriminate].
  destruct (span is_ident s) as [cs s2] eqn:Es. intros H. inversion H; subst.
  apply span_eq in Es. destruct Es as [-> Hcs]. simpl. rewrite E, Hcs.
  split; reflexivity.
Qed.

Lemma star_dotted_sound : forall n s ids r,
  star n dotted s = (ids, r) ->
  s = dotteds ids ++ r /\ forallb isIdentifierText ids = true.
Proof.
  induction n as [|n IH]; simpl; intros s ids r H.
  - inversion H. split; reflexivity.
  - destruct (dotted s) as [[i s']|] eqn:E.
    + destruct (star n dotted s') as [l' r'] eqn:Es. inversion H; subst.
      apply IH in Es. destruct Es as [-> Hl].
      unfold dotted in E. destruct (literal _ s) as [s1|] eqn:El; [|discriminate].
      apply literal_eq in El. apply Identifier_sound in E. destruct E as [-> Hi].
      subst s. simpl. rewrite Hi, Hl, <- app_assoc. split; reflexivity.
    + inversion H. split; reflexivity.
Qed.

Lemma DotIdentifier_sound s t r :
  DotIdentifier s = Some (t, r) ->
  exists path, t = NDotIdentifier path /\ s = dots path ++ r /\ wellFormed t = true.
Proof.
  unfold DotIdentifier. destruct (Identifier s) as [[i s1]|] eqn:E; [|discriminate].
  destruct (star (length s1) dotted s1) as [ids s2] eqn:Es.
  intros H. inversion H; subst.
  apply Identifier_sound in E. destruct E as [-> Hi].
  apply star_dotted_sound in Es. destruct Es as [-> Hids].
  exists (i :: ids). split; [reflexivity|].
  rewrite dots_cons, <- app_assoc. split; [reflexivity|].
  simpl. rewrite Hi, Hids. reflexivity.
Qed.

Section OperatorTexts.

Variable G : parser Node.
Hypothesis G_renders : forall s t r, G s = Some (t, r) -> renders operand s t r.

Lemma binary_renders o s t r :
  binary G (token o) o s = Some (t, r) ->
  renders show s t r /\ parens t (show t) = "("%char :: show t ++ [")"%char].
Proof.
  unfold binary.
  destruct (G s) as [[l s1]|] eqn:E1; [|discriminate].
  destruct (literal (token o) s1) as [s2|] eqn:E2; [|discriminate].
  destruct (G s2) as [[r0 s3]|] eqn:E3; [|discriminate].
  intros H. inversion H; subst.
  apply G_renders in E1. apply G_renders in E3. apply literal_eq in E2.
  destruct E1 as [Wl Dl]. destruct E3 as [Wr Dr]. subst s1.
  split; [|reflexivity]. split; [simpl; rewrite Wl, Wr; reflexivity|].
  rewrite Dl, despace_app, Dr. simpl (show _). unfold operand.
  assert (despace (token o) = token o) as -> by (destruct o; reflexivity).
  rewrite <- !app_assoc. reflexivity.
Qed.

Lemma Op_renders s t r :
  Op G s = Some (t, r) ->
  renders show s t r /\ parens t (show t) = "("%char :: show t ++ [")"%char].
Proof.
  unfold Op, BooleanOp. intros H.
  repeat (apply choice_inv in H; destruct H as [H|H]).
  - apply (binary_renders OShiftRight), H.
  - apply (binary_renders OShiftLeft), H.
  - apply (binary_renders OAndNot), H.
  - apply (binary_renders OMask), H.
  - apply (binary_renders OAdd), H.
  - apply (binary_renders OSub), H.
  - apply (binary_renders OMul), H.
  - apply (binary_renders OEq), H.
  - apply (binary_renders OLt), H.
  - apply (binary_renders OGt), H.
  - apply (binary_renders OLe), H.
  - apply (binary_renders OGe), H.
  - apply (binary_renders ONe), H.
Qed.

Lemma Paren_renders s t r : Paren G s = Some (t, r) -> renders operand s t r.
Proof.
  unfold Paren.
  destruct (literal _ s) as [s1|] eqn:E1; [|discriminate].
  destruct (Op G s1) as [[t0 s2]|] eqn:E2; [|discriminate].
  destruct (literal _ s2) as [s3|] eqn:E3; [|discriminate].
  intros H. inversion H; subst.
  apply literal_eq in E1. apply literal_eq in E3. apply Op_renders in E2.
  destruct E2 as [[W D] Hp]. subst s s2.
  split; [exact W|]. unfold operand. rewrite Hp.
  cbn. rewrite D. cbn. rewrite <- app_assoc. reflexivity.
Qed.

End OperatorTexts.

Lemma Grouping_renders : forall n s t r,
  Grouping n s = Some (t, r) -> renders operand s t r.
Proof.
  induction n as [|n IH]; simpl; intros s t r H; [discriminate|].
  destruct ((Paren (Grouping n) </> Constant </> DotIdentifier) (optSpacing s))
    as [[t0 s1]|] eqn:E; [|discriminate].
  inversion H; subst.
  assert (renders operand (optSpacing s) t s1) as [W D].
  { apply choice_inv in E. destruct E as [E|E].
    - apply choice_inv in E. destruct E as [E|E].
      + apply (Paren_renders _ IH), E.
      + apply Constant_sound in E. destruct E as (text & -> & -> & Hc).
        split; [exact Hc|]. rewrite despace_app, (constant_no_space _ Hc). reflexivity.
    - apply DotIdentifier_sound in E. destruct E as (path & -> & -> & Hw).
      split; [exact Hw|]. rewrite despace_app. unfold operand. simpl.
      rewrite dots_no_space; [reflexivity|].
      simpl in Hw. destruct path; [discriminate | exact Hw]. }
  split; [exact W|].
  rewrite <- optSpacing_despace, D, optSpacing_despace. reflexivity.
Qed.

Lemma Expression_renders n s t :
  Expression n s = Some t ->
  wellFormed t = true /\
  (despace s = show t \/ despace s = "("%char :: show t ++ [")"%char]).
Proof.
  unfold Expression.
  destruct ((Op (Grouping n) </> Grouping n) s) as [[t0 s1]|] eqn:E; [|discriminate].
  destruct s1; [|discriminate]. simpl. intros H. inversion H; subst.
  apply choice_inv in E. destruct E as [E|E].
  - apply (Op_renders _ (Grouping_renders n)) in E. destruct E as [[W D] _].
    simpl in D. rewrite app_nil_r in D. auto.
  - apply Grouping_renders in E. destruct E as [W D].
    simpl in D. rewrite app_nil_r in D. split; [exact W|].
    unfold operand, parens in D. destruct t; auto.
Qed.

(** An operation as an operand, and every operation nested in it, is
    written in parentheses. *)
Lemma operand_encloses : forall t sub,
  In sub (operations t) -> encloses (operand t) sub.
Proof.
  induction t as [text|path|o l IHl r IHr]; intros sub H; try contradiction.
  cbn [operations] in H. unfold operand at 1. cbn [parens show].
  fold (operand l) (operand r).
  destruct H as [<-|H].
  - exists [], []. cbn [app show]. fold (operand l) (operand r).
    rewrite <- !app_assoc. reflexivity.
  - apply in_app_or in H. destruct H as [H|H].
    + destruct (IHl sub H) as (pre & post & E). rewrite E.
      exists ("("%char :: pre), (post ++ token o ++ operand r ++ [")"%char]).
      cbn [app]. rewrite <- !app_assoc. cbn [app]. rewrite <- !app_assoc.
      reflexivity.
    + destruct (IHr sub H) as (pre & post & E). rewrite E.
      exists ("("%char :: operand l ++ token o ++ pre), (post ++ [")"%char]).
      cbn [app]. rewrite <- !app_assoc. cbn [app]. rewrite <- !app_assoc.
      reflexivity.
Qed.

Lemma show_encloses t sub : In sub (nested t) -> encloses (show t) sub.
Proof.
  destruct t as [text|path|o l r]; try contradiction.
  cbn [nested show]. fold (operand l) (operand r). intros H.
  apply in_app_or in H. destruct H as [H|H].
  - destruct (operand_encloses l sub H) as (pre & post & E). rewrite E.
    exists pre, (post ++ token o ++ operand r).
    rewrite <- !app_assoc. cbn [app]. rewrite <- !app_assoc. reflexivity.
  - destruct (operand_encloses r sub H) as (pre & post & E). rewrite E.
    exists (operand l ++ token o ++ pre), post.
    rewrite <- !app_assoc. reflexivity.
Qed.

(** C8. The grammar has no operator precedence: "1+2+3" does not parse,
    and "(1+2)+3" parses to the sum of a sum and a constant.  A text that
    parses is, spacing apart, the text of its tree, in which every
    operand that is an operation stands in parentheses, or that text in
    parentheses: each operation nested in the tree is enclosed in
    parentheses of its own in the text.  So each binary operation but
    one is paid for by an opening parenthesis, and a tree nesting two or
    more operations comes from a text with a parenthesised
    sub-expression. *)
Theorem no_implicit_precedence :
  Parse "1+2+3" = None /\
  Parse "(1+2)+3" =
    Some (NOp OAdd (NOp OAdd (NConstant ["1"%char]) (NConstant ["2"%char]))
                   (NConstant ["3"%char])) /\
  forall text t,
    Parse text = Some t ->
    (despace (list_ascii_of_string text) = show t \/
     despace (list_ascii_of_string text) = "("%char :: show t ++ [")"%char]) /\
    (forall sub, In sub (nested t) ->
                 encloses (despace (list_ascii_of_string text)) sub) /\
    binops t <= S (lparens (list_ascii_of_string text)) /\
    (2 <= binops t -> In "("%char (list_ascii_of_string text)).
Proof.
  split; [reflexivity|]. split; [reflexivity|].
  intros text t H. unfold Parse in H.
  pose proof (Expression_renders _ _ _ H) as [_ Hshow].
  apply Expression_takes in H.
  split; [exact Hshow|]. split; [|split; [exact H|]].
  - intros sub Hsub. destruct (show_encloses t sub Hsub) as (pre & post & E).
    destruct Hshow as [->| ->].
    + exists pre, post. exact E.
    + exists ("("%char :: pre), (post ++ [")"%char]). rewrite E.
      cbn [app]. rewrite <- !app_assoc. cbn [app]. rewrite <- !app_assoc.
      reflexivity.
  - intros H2.
    assert (1 <= lparens (list_ascii_of_string text)) as Hp by lia.
    clear H H2 Hshow.
    induction (list_ascii_of_string text) as [|c s IH]; simpl in Hp; [lia|].
    destruct (is_lparen c) eqn:E.
    + left. apply Ascii.eqb_eq in E. congruence.
    + right. apply IH. simpl in Hp. lia.
Qed.

Lemma no_implicit_precedence_witness :
  encloses (despace (list_ascii_of_string "((Length-1)+3)&^3"))
    (NOp OSub (NDotIdentifier [["L"; "e"; "n"; "g"; "t"; "h"]%char])
              (NConstant ["1"%char])).
Proof.
  refine (proj1 (proj2 (proj2 (proj2 no_implicit_precedence)
                   "((Length-1)+3)&^3" _ eq_refl)) _ _).
  simpl. right. left. reflexivity.
Defined.

(** X1. A text that parses is, spacing apart, the text of its tree, or
    that text in parentheses; the constants of the tree are runs of digits
    or "0x" and hexadecimal digits, its identifiers start with an
    upper-case letter. *)
Theorem Parse_renders text t :
  Parse text = Some t ->
  wellFormed t = true /\
  (despace (list_ascii_of_string text) = show t \/
   despace (list_ascii_of_string text) = "("%char :: show t ++ [")"%char]).
Proof. apply Expression_renders. Qed.

Lemma Parse_renders_witness :
  despace (list_ascii_of_string "Sub.Something + (Length &^ 0x3)") =
  show (NOp OAdd
          (NDotIdentifier [["S"; "u"; "b"]; ["S"; "o"; "m"; "e"; "t"; "h"; "i"; "n"; "g"]])
          (NOp OAndNot (NDotIdentifier [["L"; "e"; "n"; "g"; "t"; "h"]])
                       (NConstant ["0"; "x"; "3"])))%char.
Proof.
  destruct (proj2 (Parse_renders "Sub.Something + (Length &^ 0x3)" _ eq_refl)) as [H|H].
  - exact H.
  - discriminate H.
Defined.

(** *** What the grammar can express

    Every well-formed tree is the parse of its text. *)

Lemma code_eqb c d : code c <> code d -> Ascii.eqb c d = false.
Proof.
  intros H. destruct (Ascii.eqb c d) eqn:E; [|reflexivity].
  apply Ascii.eqb_eq in E. subst d. congruence.
Qed.

Lemma literal_app tok x : literal tok (tok ++ x) = Some x.
Proof.
  induction tok as [|c tok IH]; simpl; [reflexivity|].
  rewrite Ascii.eqb_refl. exact IH.
Qed.

(** A run of a class ends where the class does. *)
Lemma span_complete p m rest :
  forallb p m = true ->
  match rest with [] => true | c :: _ => negb (p c) end = true ->
  span p (m ++ rest) = (m, rest).
Proof.
  intros Hm Hr. induction m as [|c m IH]; simpl.
  - destruct rest as [|c rest]; [reflexivity|]. simpl.
    apply negb_true_iff in Hr. rewrite Hr. reflexivity.
  - simpl in Hm. apply andb_prop in Hm. destruct Hm as [-> Hm].
    rewrite (IH Hm). reflexivity.
Qed.

Lemma follows_class (p : ascii -> bool) rest :
  (forall c, stops c = true -> p c = false) ->
  follows rest = true ->
  match rest with [] => true | c :: _ => negb (p c) end = true.
Proof.
  intros Hp. destruct rest as [|c rest]; simpl; [reflexivity|].
  intros H. rewrite (Hp c H). reflexivity.
Qed.

Lemma stops_digit c : stops c = true -> is_digit c = false.
Proof. classes. Qed.
Lemma stops_hex c : stops c = true -> is_hex c = false.
Proof. classes. Qed.
Lemma stops_ident c : stops c = true -> is_ident c = false.
Proof. classes. Qed.
Lemma stops_space c : stops c = true -> is_space c = false.
Proof. classes. Qed.
Lemma stops_dot c : stops c = true -> code c <> 46%N.
Proof. classes. Qed.
Lemma stops_x c : stops c = true -> code c <> 120%N.
Proof. classes. Qed.
Lemma digit_x c : is_digit c = true -> code c <> 120%N.
Proof. classes. Qed.
Lemma digit_starts c : is_digit c = true -> starts c = true.
Proof. unfold starts. classes. Qed.
Lemma upper_starts c : is_upper c = true -> starts c = true.
Proof. unfold starts. classes. Qed.
Lemma starts_space c : starts c = true -> is_space c = false.
Proof. unfold starts. classes. Qed.
Lemma upper_digit c : is_upper c = true -> is_digit c = false.
Proof. classes. Qed.
Lemma upper_code c : is_upper c = true -> (65 <= code c <= 90)%N.
Proof. classes. Qed.
Lemma digit_code c : is_digit c = true -> (48 <= code c <= 57)%N.
Proof. classes. Qed.

Lemma optSpacing_follows rest : follows rest = true -> optSpacing rest = rest.
Proof.
  intros H. unfold optSpacing.
  pose proof (span_complete is_space [] rest eq_refl
                (follows_class _ _ stops_space H)) as E.
  simpl in E. rewrite E. reflexivity.
Qed.

Lemma optSpacing_starts c s : starts c = true -> optSpacing (c :: s) = c :: s.
Proof.
  intros H. unfold optSpacing. simpl. rewrite (starts_space c H). reflexivity.
Qed.

Lemma Constant_complete text rest :
  isConstantText text = true -> follows rest = true ->
  Constant (text ++ rest) = Some (NConstant text, rest).
Proof.
  unfold isConstantText, Constant, choice. intros H Hr.
  destruct (literal ["0"; "x"]%char text) as [ds|] eqn:E.
  - apply literal_eq in E. subst text. apply andb_prop in H. destruct H as [Hne Hh].
    change ((["0"; "x"]%char ++ ds) ++ rest) with (["0"; "x"]%char ++ (ds ++ rest)).
    rewrite literal_app. unfold span1.
    rewrite (span_complete is_hex ds rest Hh (follows_class _ _ stops_hex Hr)).
    destruct ds; [discriminate | reflexivity].
  - apply andb_prop in H. destruct H as [Hne Hd].
    assert (literal ["0"; "x"]%char (text ++ rest) = None) as ->.
    { destruct text as [|c1 text]; [discriminate|]. cbn [literal app] in *.
      destruct (Ascii.eqb "0" c1); [|reflexivity].
      destruct text as [|c2 text]; cbn [literal app] in *.
      - destruct rest as [|c rest]; [reflexivity|]. cbn [follows] in Hr.
        rewrite code_eqb; [reflexivity|]. apply stops_x in Hr.
        intros Ex. apply Hr. rewrite <- Ex. reflexivity.
      - destruct (Ascii.eqb "x" c2); [discriminate | reflexivity]. }
    unfold span1.
    rewrite (span_complete is_digit text rest Hd (follows_class _ _ stops_digit Hr)).
    destruct text; [discriminate | reflexivity].
Qed.

Lemma Identifier_complete i rest :
  isIdentifierText i = true ->
  match rest with [] => true | c :: _ => negb (is_ident c) end = true ->
  Identifier (i ++ rest) = Some (i, rest).
Proof.
  destruct i as [|c cs]; simpl; [discriminate|]. intros H Hr.
  apply andb_prop in H. destruct H as [-> Hcs].
  rewrite (span_complete is_ident cs rest Hcs Hr). reflexivity.
Qed.

Lemma star_dotted_complete : forall ids rest n,
  forallb isIdentifierText ids = true -> follows rest = true ->
  (length (dotteds ids ++ rest) <= n)%nat ->
  star n dotted (dotteds ids ++ rest) = (ids, rest).
Proof.
  induction ids as [|i ids IH]; intros rest n Hids Hr Hn.
  - simpl. destruct n as [|n]; [reflexivity|]. simpl.
    assert (dotted rest = None) as ->; [|reflexivity].
    unfold dotted. destruct rest as [|c rest]; [reflexivity|].
    cbn [literal follows] in *.
    rewrite code_eqb; [reflexivity|]. apply stops_dot in Hr.
    intros Ex. apply Hr. rewrite <- Ex. reflexivity.
  - simpl in Hids. apply andb_prop in Hids. destruct Hids as [Hi Hids].
    change (dotteds (i :: ids) ++ rest)
      with ("."%char :: (i ++ dotteds ids) ++ rest) in *.
    rewrite <- app_assoc in *.
    destruct n as [|n]; [simpl in Hn; lia|]. cbn [star].
    unfold dotted at 1. cbn [literal]. rewrite Ascii.eqb_refl.
    rewrite (Identifier_complete i (dotteds ids ++ rest) Hi).
    + rewrite (IH rest n Hids Hr); [reflexivity|].
      simpl in Hn. rewrite length_app in Hn. lia.
    + destruct ids as [|j ids]; [apply (follows_class _ _ stops_ident Hr) | reflexivity].
Qed.

Lemma DotIdentifier_complete i ids rest :
  forallb isIdentifierText (i :: ids) = true -> follows rest = true ->
  DotIdentifier (dots (i :: ids) ++ rest) = Some (NDotIdentifier (i :: ids), rest).
Proof.
  intros H Hr. simpl in H. apply andb_prop in H. destruct H as [Hi Hids].
  rewrite dots_cons, <- app_assoc. unfold DotIdentifier.
  rewrite (Identifier_complete i (dotteds ids ++ rest) Hi).
  - rewrite (star_dotted_complete ids rest _ Hids Hr (Nat.le_refl _)). reflexivity.
  - destruct ids as [|j ids]; [apply (follows_class _ _ stops_ident Hr) | reflexivity].
Qed.

(** An operand starts with a digit, an upper-case letter or an opening
    parenthesis. *)
Lemma operand_starts t :
  wellFormed t = true -> exists c s, operand t = c :: s /\ starts c = true.
Proof.
  destruct t as [text|path|o l r]; unfold operand; simpl; intros H.
  - unfold isConstantText in H.
    destruct (literal _ text) as [ds|] eqn:E.
    + apply literal_eq in E. subst text. eexists _, _. split; reflexivity.
    + destruct text as [|c text]; [discriminate|]. simpl in H.
      apply andb_prop in H. exists c, text. split; [reflexivity|].
      apply digit_starts. tauto.
  - destruct path as [|i ids]; [discriminate|]. rewrite dots_cons.
    simpl in H. apply andb_prop in H. destruct H as [Hi _].
    destruct i as [|c cs]; [discriminate|]. simpl in Hi. apply andb_prop in Hi.
    exists c, (cs ++ dotteds ids). split; [reflexivity|]. apply upper_starts. tauto.
  - eexists _, _. split; reflexivity.
Qed.

(** No operand starts with what an operator token goes on with. *)
Lemma starts_lt c : starts c = true -> Ascii.eqb "<" c = false.
Proof. intros H. apply code_eqb. cbn. unfold starts in H. classes. Qed.
Lemma starts_gt c : starts c = true -> Ascii.eqb ">" c = false.
Proof. intros H. apply code_eqb. cbn. unfold starts in H. classes. Qed.
Lemma starts_caret c : starts c = true -> Ascii.eqb "^" c = false.
Proof. intros H. apply code_eqb. cbn. unfold starts in H. classes. Qed.
Lemma starts_equal c : starts c = true -> Ascii.eqb "=" c = false.
Proof. intros H. apply code_eqb. cbn. unfold starts in H. classes. Qed.

Section OperatorsComplete.

Variable G : parser Node.

(** Compare the characters of a token with those of the text. *)
Ltac compare c Hc :=
  repeat first
    [ rewrite (starts_lt c Hc) | rewrite (starts_gt c Hc)
    | rewrite (starts_caret c Hc) | rewrite (starts_equal c Hc)
    | match goal with
      | |- context [Ascii.eqb ?a ?b] =>
          let v := eval vm_compute in (Ascii.eqb a b) in
          match v with
          | true => change (Ascii.eqb a b) with true
          | false => change (Ascii.eqb a b) with false
          end
      end ];
  cbv iota.

Lemma Op_complete o l r c sr rest :
  (forall x, follows x = true -> G (operand l ++ x) = Some (l, x)) ->
  G (c :: sr ++ rest) = Some (r, rest) ->
  starts c = true ->
  (forall x, G ("="%char :: x) = None) ->
  Op G (operand l ++ token o ++ c :: sr ++ rest) = Some (NOp o l r, rest).
Proof.
  intros Hl Hr Hc Heq.
  unfold Op, BooleanOp, ShiftRight, ShiftLeft, AndNot, Mask, Add, Sub, Mul,
    Eq, Lt, Gt, Le, Ge, Ne, choice, binary.
  destruct o; cbn [token app]; rewrite Hl by reflexivity;
    cbn [literal]; compare c Hc; rewrite ?Heq, ?Hr; reflexivity.
Qed.

(** Between an operand and the end of the text no operator is found. *)
Lemma Op_leaf t s :
  G s = Some (t, []) -> Op G s = None.
Proof.
  intros H.
  unfold Op, BooleanOp, ShiftRight, ShiftLeft, AndNot, Mask, Add, Sub, Mul,
    Eq, Lt, Gt, Le, Ge, Ne, choice, binary.
  rewrite H. reflexivity.
Qed.

End OperatorsComplete.

Lemma Grouping_equal n x : Grouping n ("="%char :: x) = None.
Proof. destruct n; reflexivity. Qed.

Lemma starts_digit_lparen c : is_digit c = true -> Ascii.eqb "(" c = false.
Proof. intros H. apply code_eqb. cbn. classes. Qed.
Lemma starts_upper_lparen c : is_upper c = true -> Ascii.eqb "(" c = false.
Proof. intros H. apply code_eqb. cbn. classes. Qed.
Lemma starts_upper_zero c : is_upper c = true -> Ascii.eqb "0" c = false.
Proof. intros H. apply code_eqb. cbn. classes. Qed.

Lemma constant_head text :
  isConstantText text = true -> exists c s, text = c :: s /\ is_digit c = true.
Proof.
  unfold isConstantText. destruct (literal _ text) as [ds|] eqn:E.
  - apply literal_eq in E. subst text. eexists _, _. split; reflexivity.
  - destruct text as [|c text]; [discriminate|]. simpl. intros H.
    apply andb_prop in H. exists c, text. tauto.
Qed.

Lemma depth_length t : (depth t <= length (operand t))%nat.
Proof.
  unfold operand.
  induction t as [text|path|o l IHl r IHr]; simpl; try lia.
  rewrite ?length_app. simpl. rewrite ?length_app.
  assert (1 <= length (token o))%nat by (destruct o; simpl; lia).
  lia.
Qed.

Lemma Grouping_complete : forall t,
  wellFormed t = true ->
  forall n rest, (depth t < n)%nat -> follows rest = true ->
  Grouping n (operand t ++ rest) = Some (t, rest).
Proof.
  induction t as [text|path|o l IHl r IHr]; intros W n rest Hn Hr;
    (destruct n as [|n]; [simpl in Hn; lia|]); cbn [Grouping]; unfold choice.
  - simpl in W. destruct (constant_head _ W) as (c & s0 & E & Hc).
    change (operand (NConstant text)) with text.
    assert (optSpacing (text ++ rest) = text ++ rest) as ->
      by (rewrite E; apply optSpacing_starts, digit_starts, Hc).
    assert (Paren (Grouping n) (text ++ rest) = None) as ->
      by (rewrite E; unfold Paren; cbn [literal app];
          rewrite (starts_digit_lparen c Hc); reflexivity).
    rewrite (Constant_complete text rest W Hr), (optSpacing_follows rest Hr).
    reflexivity.
  - simpl in W. destruct path as [|i ids]; [discriminate|].
    change (operand (NDotIdentifier (i :: ids))) with (dots (i :: ids)).
    assert (exists c s0, dots (i :: ids) = c :: s0 /\ is_upper c = true)
      as (c & s0 & E & Hc).
    { rewrite dots_cons. simpl in W. apply andb_prop in W. destruct W as [Hi _].
      destruct i as [|c cs]; [discriminate|]. simpl in Hi. apply andb_prop in Hi.
      exists c, (cs ++ dotteds ids). tauto. }
    assert (optSpacing (dots (i :: ids) ++ rest) = dots (i :: ids) ++ rest) as ->
      by (rewrite E; apply optSpacing_starts, upper_starts, Hc).
    assert (Paren (Grouping n) (dots (i :: ids) ++ rest) = None) as ->
      by (rewrite E; unfold Paren; cbn [literal app];
          rewrite (starts_upper_lparen c Hc); reflexivity).
    assert (Constant (dots (i :: ids) ++ rest) = None) as ->
      by (rewrite E; unfold Constant, choice, span1; cbn [literal app span];
          rewrite (starts_upper_zero c Hc), (upper_digit c Hc); reflexivity).
    rewrite (DotIdentifier_complete i ids rest W Hr), (optSpacing_follows rest Hr).
    reflexivity.
  - simpl in W. apply andb_prop in W. destruct W as [Wl Wr].
    simpl in Hn.
    destruct (operand_starts r Wr) as (c & sr & E & Hc).
    change (operand (NOp o l r))
      with ("("%char :: (operand l ++ token o ++ operand r) ++ [")"%char]).
    cbn [app]. rewrite optSpacing_starts by reflexivity.
    unfold Paren. cbn [literal]. rewrite Ascii.eqb_refl.
    replace (((operand l ++ token o ++ operand r) ++ [")"%char]) ++ rest)
      with (operand l ++ token o ++ c :: sr ++ ")"%char :: rest)
      by (rewrite E, <- !app_assoc; reflexivity).
    rewrite (Op_complete (Grouping n) o l r c sr (")"%char :: rest)).
    + cbn [literal]. rewrite Ascii.eqb_refl, (optSpacing_follows rest Hr). reflexivity.
    + intros x Hx. apply IHl; [exact Wl | lia | exact Hx].
    + change (c :: sr ++ ")"%char :: rest) with ((c :: sr) ++ ")"%char :: rest).
      rewrite <- E. apply IHr; [exact Wr | lia | reflexivity].
    + exact Hc.
    + apply Grouping_equal.
Qed.

(** X2. Every well-formed tree is the parse of its text, where each
    nested operation is written in parentheses: the twelve rules tried
    before a rule do not take its text away, e.g. "<" before "<=", and
    any nesting of the thirteen operations can be written down. *)
Theorem Parse_show t :
  wellFormed t = true ->
  Parse (string_of_list_ascii (show t)) = Some t.
Proof.
  intros W. unfold Parse. rewrite list_ascii_of_string_of_list_ascii.
  set (n := S (length (show t))). unfold Expression, choice.
  destruct t as [text|path|o l r].
  - assert (Grouping n (show (NConstant text)) = Some (NConstant text, [])) as E.
    { rewrite <- (app_nil_r (show _)).
      apply (Grouping_complete (NConstant text) W); [simpl; lia | reflexivity]. }
    rewrite (Op_leaf _ _ _ E), E. reflexivity.
  - assert (Grouping n (show (NDotIdentifier path)) = Some (NDotIdentifier path, [])) as E.
    { rewrite <- (app_nil_r (show _)).
      apply (Grouping_complete (NDotIdentifier path) W); [simpl; lia | reflexivity]. }
    rewrite (Op_leaf _ _ _ E), E. reflexivity.
  - simpl in W. apply andb_prop in W. destruct W as [Wl Wr].
    destruct (operand_starts r Wr) as (c & sr & E & Hc).
    pose proof (depth_length l) as Dl. pose proof (depth_length r) as Dr.
    assert (length (operand l) + length (operand r) < n)%nat as Hlen.
    { unfold n. simpl. fold (operand l) (operand r). rewrite !length_app. lia. }
    replace (show (NOp o l r)) with (operand l ++ token o ++ c :: sr ++ [])
      by (rewrite app_nil_r, <- E; reflexivity).
    rewrite (Op_complete (Grouping n) o l r c sr []).
    + reflexivity.
    + intros x Hx. apply Grouping_complete; [exact Wl | lia | exact Hx].
    + change (c :: sr ++ []) with ((c :: sr) ++ []).
      rewrite <- E. apply Grouping_complete; [exact Wr | lia | reflexivity].
    + exact Hc.
    + apply Grouping_equal.
Qed.

Lemma Parse_show_witness :
  Parse "(Length<=0x1f)&^((3<<Sub.Size)>>1)" =
  Some (NOp OAndNot
          (NOp OLe (NDotIdentifier [["L"; "e"; "n"; "g"; "t"; "h"]])
                   (NConstant ["0"; "x"; "1"; "f"]))
          (NOp OShiftRight
             (NOp OShiftLeft (NConstant ["3"])
                (NDotIdentifier [["S"; "u"; "b"]; ["S"; "i"; "z"; "e"]]))
             (NConstant ["1"])))%char.
Proof.
  exact (Parse_show
           (NOp OAndNot
              (NOp OLe (NDotIdentifier [["L"; "e"; "n"; "g"; "t"; "h"]])
                       (NConstant ["0"; "x"; "1"; "f"]))
              (NOp OShiftRight
                 (NOp OShiftLeft (NConstant ["3"])
                    (NDotIdentifier [["S"; "u"; "b"]; ["S"; "i"; "z"; "e"]]))
                 (NConstant ["1"])))%char eq_refl).
Defined.

(** X3. A text that parses starts, after its spacing, with a digit, an
    upper-case letter or an opening parenthesis: the grammar has no
    negative literal and no unary operator, and no name that starts in
    lower case; the empty text does not parse. *)
Theorem Parse_starts text t :
  Parse text = Some t ->
  exists c s, despace (list_ascii_of_string text) = c :: s /\ starts c = true.
Proof.
  intros H. apply Expression_renders in H. destruct H as [W [D|D]].
  - destruct (operand_starts t W) as (c & s & E & Hc).
    rewrite D. unfold operand, parens in E.
    destruct t; try (exists c, s; split; assumption).
    simpl in W. apply andb_prop in W. destruct W as [Wl _].
    destruct (operand_starts _ Wl) as (c' & s' & E' & Hc').
    simpl. fold (operand t1). rewrite E'. eexists _, _. split; [reflexivity | exact Hc'].
  - rewrite D. eexists _, _. split; reflexivity.
Qed.

Lemma Parse_starts_witness :
  exists c s, despace (list_ascii_of_string " (Length-1)+3") = c :: s /\ starts c = true.
Proof. exact (Parse_starts " (Length-1)+3" _ eq_refl). Defined.

End expression_facts.

(** * Properties of the reader *)

Module binary_facts.
Import binary.

(** ** The vocabulary of the statements *)

(** The [n] bytes at the read position, and the reader once they are
    read in one call. *)
Definition window (n : nat) (r : BinaryReader) : list byte :=
  take n (drop (offset (Reader r)) (data (Reader r))).

Definition consumed (n : nat) (r : BinaryReader) : BinaryReader :=
  mkReader (mkSource (data (Reader r)) (offset (Reader r) + n))
           (Endianess r) (Trace r ++ [EvRead n]).

(** The reader after [Read size]: the source is not touched for no
    bytes. *)
Definition afterRead (size : Z) (r : BinaryReader) : BinaryReader :=
  if size =? 0 then r else consumed (Z.to_nat size) r.


(** The reader after a relative seek that was accepted. *)
Definition sought (off : Z) (r : BinaryReader) : BinaryReader :=
  mkReader (mkSource (data (Reader r)) (Z.to_nat (Z.of_nat (offset (Reader r)) + off)))
           (Endianess r) (Trace r ++ [EvSeek off 1]).

(** The correction the alignment asks for: up to the next multiple of
    the alignment below the size, up to the alignment above it. *)
Definition correction (align size : Z) : Z :=
  if align <? size then reflect.roundUp size align - size
  else if align >? size then align - size
  else 0.

(** The reader after a relative seek that the source rejected. *)
Definition rejected (off : Z) (r : BinaryReader) : BinaryReader :=
  mkReader (Reader r) (Endianess r) (Trace r ++ [EvSeek off 1]).

(** The reader after the alignment of a field. *)
Definition aligned (pad : Z) (r : BinaryReader) : BinaryReader :=
  if pad >? 0 then sought pad r else r.

(** [r'] comes after [r]: its trace is that of [r] followed by events
    that all satisfy [P]. *)
Definition extends (P : Event -> Prop) (r r' : BinaryReader) : Prop :=
  exists new, Trace r' = Trace r ++ new /\ Forall P new.

(** Whatever its outcome, [m] adds only events that satisfy [P]. *)
Definition emits (P : Event -> Prop) {A} (m : M A) : Prop :=
  forall r, extends P r (snd (m r)).

(** An event that does not move the read position backward. *)
Definition forward (e : Event) : Prop :=
  match e with
  | EvSeek off _ => 0 < off
  | _ => True
  end.

(** How far the read position moved. *)
Definition moved (r r' : BinaryReader) : Z :=
  Z.of_nat (position r') - Z.of_nat (position r).

(** The kinds read at a fixed width. *)
Definition fixedWidth (k : reflect.Kind) : bool :=
  match k with
  | reflect.Bool
  | reflect.Int | reflect.Int8 | reflect.Int16 | reflect.Int32 | reflect.Int64
  | reflect.Uint | reflect.Uint8 | reflect.Uint16 | reflect.Uint32 | reflect.Uint64
  | reflect.Float32 | reflect.Float64 => true
  | _ => false
  end.

(** What the induction over types carries: the switch on a type without
    skip tags adds only such events, and so does the switch on the
    elements of a slice type. *)
Definition quiet (P : Event -> Prop) (ms : string -> Methods)
    (t : reflect.type) : Prop :=
  reflect.untagged "skip" t = true ->
  (forall x, emits P (kindSwitch ms t x)) /\
  (forall elem, reflect.Shape t = reflect.SliceOf elem ->
                forall x, emits P (kindSwitch ms elem x)).

(** The reader after a read of [len] bytes that found the source at its
    end, and after one that took the bytes that were left, fewer than
    [len]. *)
Definition refused (len : nat) (r : BinaryReader) : BinaryReader :=
  mkReader (Reader r) (Endianess r) (Trace r ++ [EvRead len]).

Definition drained (len : nat) (r : BinaryReader) : BinaryReader :=
  mkReader (mkSource (data (Reader r)) (length (data (Reader r))))
           (Endianess r) (Trace r ++ [EvRead len]).

(** What a read of [len] bytes gives when fewer are left. *)
Definition starved {A} (len : nat) (r : BinaryReader) : outcome A * BinaryReader :=
  if (remaining (Reader r) =? 0)%nat then (Err ErrEOF, refused len r)
  else (Err ErrShortRead, drained len r).

(** The reader after [k] reads of [w] bytes each. *)
Definition reads (k w : nat) (r : BinaryReader) : BinaryReader :=
  Nat.iter k (consumed w) r.

(** The number written by bytes in base 256, the first byte the lowest. *)
Fixpoint positional (bs : list byte) : Z :=
  match bs with
  | [] => 0
  | b :: bs' => byteZ b + 256 * positional bs'
  end.

(** The bytes in the order the number is written in, lowest first. *)
Definition lowestFirst (o : ByteOrder) (bs : list byte) : list byte :=
  match o with
  | LittleEndian => bs
  | BigEndian => rev bs
  end.

(** Two's complement: the signed reading of [u] at width [w]. *)
Definition twos (w : Z) (u : Z) : Z :=
  if u <? 2 ^ (w - 1) then u else u - 2 ^ w.

(** The value of a kind of fixed width whose bytes write the number [u]. *)
Definition scalarValue (k : reflect.Kind) (u : Z) : reflect.value :=
  match k with
  | reflect.Bool => reflect.VBool (negb (u =? 0))
  | reflect.Int8 => reflect.VInt (twos 8 u)
  | reflect.Int16 => reflect.VInt (twos 16 u)
  | reflect.Int32 => reflect.VInt (twos 32 u)
  | reflect.Int64 | reflect.Int => reflect.VInt (twos 64 u)
  | reflect.Uint8 | reflect.Uint16 | reflect.Uint32 | reflect.Uint64
  | reflect.Uint => reflect.VUint u
  | reflect.Float32 => reflect.VFloat (quiet32 u)
  | reflect.Float64 => reflect.VFloat u
  | _ => reflect.VOther
  end.

(** The values of [n] elements of kind [k], each [w] bytes wide, written
    one after the other in [bs]. *)
Fixpoint elements (k : reflect.Kind) (o : ByteOrder) (w n : nat)
    (bs : list byte) : list reflect.value :=
  match n with
  | O => []
  | S n' =>
      scalarValue k (positional (lowestFirst o (take w bs)))
        :: elements k o w n' (drop w bs)
  end.

(** The reader as a custom [Read] of the type [t] is given it, and what
    the destination [x] holds after the call: with a value receiver the
    method worked on a copy. *)
Definition entered (t : reflect.type) (r : BinaryReader) : BinaryReader :=
  mkReader (Reader r) (Endianess r) (Trace r ++ [EvCustomRead (typeName t)]).

Definition kept (recv : receiver) (x : reflect.value)
    (o : outcome reflect.value) : outcome reflect.value :=
  match o with
  | Ok x' => Ok (match recv with PointerReceiver => x' | ValueReceiver => x end)
  | Err e => Err e
  | Panic msg => Panic msg
  end.


(** [r.ReadInterface] on a pointer, as the fields of a struct call it. *)
Definition onPointer (ms : string -> Methods) (t : reflect.type)
    : reflect.value -> M reflect.value :=
  readInterface ms (kindSwitch ms t) true t.

(** The kind of a type read at a fixed width. *)
Definition scalarKind (t : reflect.type) : option reflect.Kind :=
  match reflect.Shape t with
  | reflect.Basic k => if fixedWidth k then Some k else None
  | _ => None
  end.

(** A field without tags, exported, of a kind of fixed width and of a
    type without methods. *)
Definition plain (ms : string -> Methods) (f : reflect.StructField) : bool :=
  match reflect.Tag f, scalarKind (reflect.Type_ f),
        asReader ms true (reflect.Type_ f),
        asValidateable ms true (reflect.Type_ f) with
  | [], Some _, None, None => reflect.IsExported f
  | _, _, _, _ => false
  end.

(** The number of bytes a plain field takes, and the values of plain
    fields written one after the other in [bs]. *)
Definition breadth (f : reflect.StructField) : nat :=
  match scalarKind (reflect.Type_ f) with
  | Some k => Z.to_nat (reflect.KindSize k)
  | None => 0
  end.

Fixpoint packed (o : ByteOrder) (fs : list reflect.StructField)
    (bs : list byte) : list reflect.value :=
  match fs with
  | [] => []
  | f :: fs' =>
      match scalarKind (reflect.Type_ f) with
      | Some k =>
          scalarValue k (positional (lowestFirst o (take (breadth f) bs)))
            :: packed o fs' (drop (breadth f) bs)
      | None => []
      end
  end.

Fixpoint breadths (fs : list reflect.StructField) : nat :=
  match fs with
  | [] => 0
  | f :: fs' => breadth f + breadths fs'
  end.

(** The reader after one read for each field, of the breadth of the
    field. *)
Fixpoint fieldwise (fs : list reflect.StructField) (r : BinaryReader)
    : BinaryReader :=
  match fs with
  | [] => r
  | f :: fs' => fieldwise fs' (consumed (breadth f) r)
  end.

(** The kinds the switch of [ReadInterface] has no case for. *)
Definition undecodable (k : reflect.Kind) : bool :=
  match k with
  | reflect.Uintptr | reflect.Complex64 | reflect.Complex128
  | reflect.Chan | reflect.Func | reflect.Interface | reflect.Map
  | reflect.Ptr | reflect.UnsafePointer => true
  | _ => false
  end.

(** The bytes of the source from the read position on. *)
Definition unread (r : BinaryReader) : list byte :=
  drop (offset (Reader r)) (data (Reader r)).

(** The value of the [max] tag of a string field: [math.MaxInt32]
    without the tag. *)
Definition bound (fs : list reflect.StructField) (vals : list reflect.value)
    (f2 : reflect.StructField) : option Z :=
  let m := reflect.Get "max" (reflect.Tag f2) in
  if isEmpty m then Some goint.MaxInt32
  else
    match expression.Parse m with
    | Some root =>
        match expression.Eval fs vals root with
        | inr ev => Some ev
        | inl _ => None
        end
    | None => None
    end.

(** ** Sample declarations

    The types and byte sources the statements below are tried on. *)
Module sample.

Definition string_ := reflect.basic reflect.String.
Definition uint8 := reflect.basic reflect.Uint8.
Definition uint16 := reflect.basic reflect.Uint16.
Definition int8 := reflect.basic reflect.Int8.

(** [bytes.NewReader(bs)], read in little-endian order. *)
Definition NewReader (bs : list byte) : BinaryReader :=
  mkReader (mkSource bs 0) LittleEndian [].

(** "abc\0xxxx" *)
Definition abc0xxxx : list byte := [x61; x62; x63; x00; x78; x78; x78; x78].

(** Declared types with methods:
    - [Checked] (uint8) has [Validate], which always fails;
    - [Custom] (uint8) has [Read] with a pointer receiver, which stores 42
      and reads nothing, and the same [Validate];
    - [ByValue] (uint8) has [Read] with a value receiver. *)
Definition Checked := reflect.declared "Checked" uint8.
Definition Custom := reflect.declared "Custom" uint8.
Definition ByValue := reflect.declared "ByValue" uint8.

Definition store42 : ReadFunc := fun _ => ret (reflect.VUint 42).
Definition invalid : ValidateFunc := fun _ => Some "invalid".

Definition methods (name : string) : Methods :=
  if String.eqb name "Checked" then
    mkMethods None (Some (PointerReceiver, invalid))
  else if String.eqb name "Custom" then
    mkMethods (Some (PointerReceiver, store42)) (Some (PointerReceiver, invalid))
  else if String.eqb name "ByValue" then
    mkMethods (Some (ValueReceiver, store42)) None
  else noMethods.

Definition none (name : string) : Methods := noMethods.

End sample.

(** ** The monad *)

Lemma bind_Ok {A B} (m : M A) (k : A -> M B) r a r1 :
  m r = (Ok a, r1) -> bind m k r = k a r1.
Proof. unfold bind. intros ->. reflexivity. Qed.

Lemma bind_Err {A B} (m : M A) (k : A -> M B) r e r1 :
  m r = (Err e, r1) -> bind m k r = (Err e, r1).
Proof. unfold bind. intros ->. reflexivity. Qed.

Lemma bind_Panic {A B} (m : M A) (k : A -> M B) r msg r1 :
  m r = (Panic msg, r1) -> bind m k r = (Panic msg, r1).
Proof. unfold bind. intros ->. reflexivity. Qed.

(** A computation that ends well went through its first part well. *)
Lemma bind_inv {A B} (m : M A) (k : A -> M B) r b r' :
  bind m k r = (Ok b, r') ->
  exists a r1, m r = (Ok a, r1) /\ k a r1 = (Ok b, r').
Proof.
  unfold bind. destruct (m r) as [[a|e|msg] r1]; intros H; try discriminate.
  exists a, r1. split; [reflexivity | exact H].
Qed.

(** ** Go integers *)

Lemma int_id z : goint.in_int z -> goint.int z = z.
Proof.
  unfold goint.in_int, goint.MinInt, goint.MaxInt, goint.int, goint.to_signed.
  intros H. rewrite Z.mod_small; lia.
Qed.

Lemma int_in_int z : goint.in_int (goint.int z).
Proof.
  unfold goint.in_int, goint.MinInt, goint.MaxInt, goint.int, goint.to_signed.
  pose proof (Z.mod_pos_bound (z + 2 ^ (64 - 1)) (2 ^ 64)). lia.
Qed.

(** ** The byte source *)

Lemma window_length n r :
  (n <= remaining (Reader r))%nat -> length (window n r) = n.
Proof.
  unfold window, remaining. intros H.
  rewrite length_take, length_drop. lia.
Qed.

Lemma io_Read_enough n r :
  (0 < n)%nat -> (n <= remaining (Reader r))%nat ->
  io_Read n r = (Ok (n, window n r), consumed n r).
Proof.
  intros Hn Hr. unfold io_Read. fold (window n r).
  pose proof (window_length n r Hr) as Hw. unfold remaining in Hr.
  destruct (Nat.leb_spec (length (data (Reader r))) (offset (Reader r))); [lia|].
  rewrite Hw, Nat.sub_diag. simpl. rewrite app_nil_r. reflexivity.
Qed.

(** A size within the bytes left, and one within the limit, can be
    allocated. *)
Lemma fits_within size r :
  (Z.to_nat size <= remaining (Reader r))%nat -> fits size (Reader r) = true.
Proof.
  intros H. unfold fits, remaining in *. apply orb_true_intro. right.
  apply Z.leb_le. lia.
Qed.

Lemma fits_small size s : size <= maxAlloc -> fits size s = true.
Proof.
  intros H. unfold fits. apply orb_true_intro. left. apply Z.leb_le. exact H.
Qed.

(** [Read] once the buffer is made. *)
Lemma Read_made size r :
  0 <= size -> fits size (Reader r) = true ->
  Read size r =
  (if size =? 0 then ret []
   else
     got <- io_Read (Z.to_nat size) ;;
     if negb (fst got =? length (snd got))%nat then fail ErrShortRead
     else ret (snd got)) r.
Proof.
  intros H0 Hf. unfold Read. rewrite Hf.
  destruct (Z.ltb_spec size 0); [lia|]. cbn [orb negb].
  destruct (size =? 0); reflexivity.
Qed.

Lemma Read_Ok size r bs r' :
  Read size r = (Ok bs, r') -> 0 <= size /\ fits size (Reader r) = true.
Proof.
  unfold Read. destruct (Z.ltb_spec size 0); [discriminate|].
  destruct (fits size (Reader r)); [|discriminate]. intros _. split; [lia | reflexivity].
Qed.

Lemma Read_enough size r :
  0 <= size -> (Z.to_nat size <= remaining (Reader r))%nat ->
  Read size r = (Ok (window (Z.to_nat size) r), afterRead size r).
Proof.
  intros H0 Hr. rewrite (Read_made size r H0 (fits_within size r Hr)).
  unfold afterRead.
  destruct (Z.eqb_spec size 0) as [->|Hne]; [reflexivity|].
  erewrite bind_Ok; [|apply io_Read_enough; [lia | exact Hr]].
  simpl. rewrite window_length by exact Hr. rewrite Nat.eqb_refl. reflexivity.
Qed.

Lemma afterRead_position size r :
  0 <= size -> Z.of_nat (position (afterRead size r)) = Z.of_nat (position r) + size.
Proof.
  intros H. unfold afterRead, position.
  destruct (Z.eqb_spec size 0) as [->|Hne]; simpl; lia.
Qed.

(** A successful [Read] advanced by the size asked for. *)
Lemma Read_inv size r bs r' :
  Read size r = (Ok bs, r') ->
  0 <= size /\ Z.of_nat (length bs) = size /\
  Z.of_nat (position r') = Z.of_nat (position r) + size /\
  Endianess r' = Endianess r.
Proof.
  intros E. destruct (Read_Ok size r bs r' E) as [H Hf].
  rewrite (Read_made size r H Hf) in E. revert E.
  destruct (Z.eqb_spec size 0) as [->|Hne].
  - intros E. inversion E; subst. simpl. repeat split; lia.
  - intros E. apply bind_inv in E. destruct E as ([n buf] & r1 & E1 & E2).
    simpl in E2. destruct (Nat.eqb_spec n (length buf)) as [->|]; [|discriminate].
    inversion E2; subst. revert E1. unfold io_Read.
    destruct (length (data (Reader r)) <=? offset (Reader r))%nat; [discriminate|].
    intros E1. inversion E1 as [[Hn Hb Hr]]. clear E1.
    set (got := take (Z.to_nat size) _) in *.
    assert (length bs = length got + (Z.to_nat size - length got))%nat as Hlen
      by (rewrite <- Hb, length_app, length_replicate; reflexivity).
    assert (length got <= Z.to_nat size)%nat as Hle
      by (unfold got; rewrite length_take; lia).
    unfold position. simpl. repeat split; try lia.
Qed.

(** Reading a byte leaves fewer bytes to read. *)
Lemma Uint8_remaining r u r' :
  Uint8 r = (Ok u, r') -> (remaining (Reader r') < remaining (Reader r))%nat.
Proof.
  unfold Uint8. intros H.
  apply bind_inv in H. destruct H as (bs & r1 & H1 & H). inversion H; subst; clear H.
  rewrite (Read_made 1 r ltac:(lia) (fits_small 1 _ ltac:(unfold maxAlloc; lia))) in H1.
  cbn [Z.eqb] in H1.
  apply bind_inv in H1. destruct H1 as ([n buf] & r2 & H1 & H). simpl in H.
  destruct (n =? length buf)%nat eqn:E; [|discriminate]. inversion H; subst; clear H.
  apply Nat.eqb_eq in E. revert H1. unfold io_Read, remaining.
  destruct (Nat.leb_spec (length (data (Reader r))) (offset (Reader r))); [discriminate|].
  intros H1. inversion H1 as [[Hn Hb]]. simpl.
  rewrite length_take, length_drop. lia.
Qed.

(** The scan has all the fuel it can use: with more rounds than bytes
    left it ends before the rounds do, and more fuel changes nothing. *)
Lemma scan_fuel max : forall n m i acc r,
  (remaining (Reader r) < n)%nat -> (remaining (Reader r) < m)%nat ->
  scan n i max acc r = scan m i max acc r.
Proof.
  induction n as [|n IH]; intros m i acc r Hn Hm; [lia|].
  destruct m as [|m]; [lia|]. simpl.
  destruct (negb (i <? max)); [reflexivity|].
  unfold bind. destruct (Uint8 r) as [[u|e|msg] r1] eqn:E; [|reflexivity..].
  apply Uint8_remaining in E.
  destruct (u =? 0); [reflexivity|]. apply IH; lia.
Qed.

Lemma scanString_fuel max r n :
  (remaining (Reader r) < n)%nat -> scan n 0 max [] r = scanString max r.
Proof. intros H. unfold scanString. apply scan_fuel; lia. Qed.

(** ** Truncation at the first null byte *)




(** ** Custom decoding and validation *)

Lemma readInterface_custom ms switch isptr t x recv ri r :
  asReader ms isptr t = Some (recv, ri) ->
  readInterface ms switch isptr t x r = callRead t recv ri x r.
Proof. unfold readInterface. intros ->. reflexivity. Qed.

(** What a custom [Read] leaves in the trace is its own call and what it
    did itself: the reader adds no call of [Validate]. *)
Lemma callRead_trace t recv ri x r :
  snd (callRead t recv ri x r) =
  snd (ri x (mkReader (Reader r) (Endianess r) (Trace r ++ [EvCustomRead (typeName t)]))).
Proof.
  unfold callRead, bind, record.
  destruct (ri x _) as [[x'|e|msg] r']; reflexivity.
Qed.

(** The result of [ReadInterface] on a destination with a custom [Read]
    is the result of the method, called on the destination with the
    reader as it is. *)
Lemma callRead_result t recv ri x r :
  callRead t recv ri x r =
  (kept recv x (fst (ri x (entered t r))), snd (ri x (entered t r))).
Proof.
  unfold callRead, bind, record, entered, kept.
  destruct (ri x _) as [[x'|e|msg] r']; reflexivity.
Qed.

(** C1. The code at the failing input: [Custom] supplies a [Read] that
    succeeds and a [Validate] that fails; [ReadInterface] returns nil and
    [Validate] is never called.  The sibling path does it: for [Checked],
    which only has [Validate], the failure of [Validate] is the result of
    the call. *)
Theorem validate_skipped_after_custom_read :
  let r := sample.NewReader sample.abc0xxxx in
  ReadInterface sample.methods (PointerTo sample.Custom (reflect.VUint 0)) r =
    (Ok (reflect.VUint 42),
     mkReader (Reader r) LittleEndian [EvCustomRead "Custom"]) /\
  sample.invalid (reflect.VUint 42) = Some "invalid" /\
  ReadInterface sample.methods (PointerTo sample.Checked (reflect.VUint 0)) r =
    (Err (ErrCustom "invalid"),
     mkReader (mkSource sample.abc0xxxx 1) LittleEndian [EvRead 1; EvValidate "Checked"]).
Proof. repeat split. Qed.

(** C9. A destination that implements [Reader] is handed to its [Read]
    whether or not it is a pointer: [Read] is called once, on the
    destination and with the reader as it is, before anything is read or
    checked, and what it returns (its value, its error or its panic) and
    the reader it leaves are the result of [ReadInterface].  The pointer
    check is not made: "Expected a pointer" is the result only when
    [Read] itself returned it. *)
Theorem custom_read_before_pointer_check ms v r recv ri :
  asReader ms (isPointer v) (typeOf v) = Some (recv, ri) ->
  let called := ri (valueOf v) (entered (typeOf v) r) in
  ReadInterface ms v r = (kept recv (valueOf v) (fst called), snd called) /\
  forall k, fst (ReadInterface ms v r) = Err (ErrExpectedPointer k) ->
            fst called = Err (ErrExpectedPointer k).
Proof.
  intros H called. unfold ReadInterface.
  rewrite (readInterface_custom _ _ _ _ _ _ _ _ H), callRead_result.
  fold called. split; [reflexivity|]. cbn [fst]. intros k.
  destruct (fst called); cbn [kept]; intros E; [discriminate | exact E | discriminate].
Qed.

Lemma custom_read_before_pointer_check_witness :
  ReadInterface sample.methods (Plain sample.ByValue (reflect.VUint 1))
    (sample.NewReader sample.abc0xxxx) =
  (Ok (reflect.VUint 1),
   mkReader (mkSource sample.abc0xxxx 0) LittleEndian [EvCustomRead "ByValue"]).
Proof.
  exact (proj1 (custom_read_before_pointer_check sample.methods
                  (Plain sample.ByValue (reflect.VUint 1))
                  (sample.NewReader sample.abc0xxxx)
                  ValueReceiver sample.store42 eq_refl)).
Defined.

(** Without a custom [Read], a destination that is no pointer is
    refused. *)
Lemma not_a_pointer ms t x r :
  asReader ms false t = None ->
  ReadInterface ms (Plain t x) r = (Err (ErrExpectedPointer (reflect.KindOf t)), r).
Proof. unfold ReadInterface, readInterface. simpl. intros ->. reflexivity. Qed.

(** ** String fields *)



(** A tag that does not parse makes the call fail with the parse error. *)
Example unparenthesised_length :
  let t := reflect.structOf [reflect.mkField "Name" "" sample.string_ [("length", "1+2+3")]] in
  let r := sample.NewReader sample.abc0xxxx in
  ReadInterface sample.none (PointerTo t (reflect.Zero t)) r = (Err (ErrParse "1+2+3"), r).
Proof. reflexivity. Qed.

(** The same field through [ReadInterface]. *)
Example string_with_length_decode :
  let t := reflect.structOf [reflect.mkField "Name" "" sample.string_ [("length", "8")]] in
  ReadInterface sample.none (PointerTo t (reflect.Zero t))
    (sample.NewReader (sample.abc0xxxx ++ [x79])) =
  (Ok (reflect.VStruct [reflect.VString [x61; x62; x63]]),
   mkReader (mkSource (sample.abc0xxxx ++ [x79]) 8) LittleEndian [EvRead 8]).
Proof. reflexivity. Qed.

(** ** Slices of single-byte elements *)

(** A field that was decoded was not passed over by its [if] tag, and
    the decoding of its value ended well. *)
Lemma readField_inv fs RI i f2 vals r vals' r' :
  readField fs RI i f2 vals r = (Ok vals', r') ->
  (ifStep fs vals (reflect.Tag f2) r = (Ok false, r') /\ vals' = vals) \/
  (exists r1 size r2 res r3,
     ifStep fs vals (reflect.Tag f2) r = (Ok true, r1) /\
     lengthStep fs vals (reflect.Tag f2) r2 = (Ok size, r3) /\
     fst (valueStep fs RI vals f2 (nth i vals reflect.VOther) size r3) = Ok res).
Proof.
  unfold readField. intros H.
  apply bind_inv in H. destruct H as (present & r1 & H1 & H).
  destruct present; simpl in H.
  - right.
    apply bind_inv in H. destruct H as (? & r2 & H2 & H).
    apply bind_inv in H. destruct H as (size & r3 & H3 & H).
    apply bind_inv in H. destruct H as (res & r4 & H4 & H).
    exists r1, size, r2, res, r3. rewrite H4. auto.
  - left. inversion H; subst. auto.
Qed.

(** C10. A slice field whose elements are of kind int8 takes the raw
    block branch: the [n] bytes are read in one call, and storing the
    byte slice into the int8 slice panics.  Whatever the length and the
    source, the decoding of the value of such a field never ends well. *)
Theorem int8_slice_never_decodes fs RI vals f2 f elem n r :
  reflect.Shape (reflect.Type_ f2) = reflect.SliceOf elem ->
  reflect.KindOf elem = reflect.Int8 ->
  reflect.IsExported f2 = true ->
  1 <= n ->
  (Z.to_nat n <= remaining (Reader r))%nat ->
  valueStep fs RI vals f2 f n r = (Panic notAssignable, consumed (Z.to_nat n) r) /\
  (forall f' size r0 res, fst (valueStep fs RI vals f2 f' size r0) <> Ok res) /\
  (forall i r0 vals' r1,
     readField fs RI i f2 vals r0 = (Ok vals', r1) ->
     ifStep fs vals (reflect.Tag f2) r0 = (Ok false, r1) /\ vals' = vals).
Proof.
  intros Hs Hk He Hn Hr.
  assert (forall f' size r0 res, fst (valueStep fs RI vals f2 f' size r0) <> Ok res) as Hnever.
  { intros f' size r0 res. unfold valueStep. rewrite Hs, Hk, He.
    destruct (size =? -1); [discriminate|]. simpl.
    unfold bind. destruct (Read size r0) as [[b|e|msg] r1]; discriminate. }
  split; [|split; [exact Hnever|]].
  - unfold valueStep. rewrite Hs, Hk, He.
    destruct (Z.eqb_spec n (-1)); [lia|]. simpl.
    rewrite (bind_Ok _ _ r (window (Z.to_nat n) r) (afterRead n r))
      by (apply Read_enough; [lia | exact Hr]).
    unfold afterRead. destruct (Z.eqb_spec n 0); [lia|]. reflexivity.
  - intros i r0 vals' r1 H. apply readField_inv in H.
    destruct H as [H|(r2 & size & r3 & res & r4 & _ & _ & H)]; [exact H|].
    exfalso. exact (Hnever _ _ _ _ H).
Qed.

Lemma int8_slice_never_decodes_witness :
  let f2 := reflect.mkField "Data" "" (reflect.sliceOf sample.int8) [("length", "4")] in
  let r := sample.NewReader sample.abc0xxxx in
  valueStep [f2] (fun _ x => ret x) [reflect.VList []] f2 (reflect.VList []) 4 r =
    (Panic notAssignable,
     mkReader (mkSource sample.abc0xxxx 4) LittleEndian [EvRead 4]).
Proof.
  intros f2 r.
  exact (proj1 (int8_slice_never_decodes [f2] (fun _ x => ret x) [reflect.VList []] f2
                  (reflect.VList []) sample.int8 4 r eq_refl eq_refl eq_refl
                  ltac:(lia) ltac:(vm_compute; lia))).
Defined.

(** C4. The code at the failing input.  The raw block branch is taken
    for elements of kind int8, where it cannot store what it read: a field
    [[]int8] of length 4 reads its 4 bytes in one call and panics.  A
    field [[]uint8] of length 4, whose type the block read would fit, is
    decoded element by element instead: four calls of [ReadInterface],
    each reading one byte; 4 bytes are consumed in all. *)
Theorem byte_slices_at_length_4 :
  let int8s := reflect.structOf
    [reflect.mkField "Data" "" (reflect.sliceOf sample.int8) [("length", "4")]] in
  let uint8s := reflect.structOf
    [reflect.mkField "Data" "" (reflect.sliceOf sample.uint8) [("length", "4")]] in
  let r := sample.NewReader sample.abc0xxxx in
  ReadInterface sample.none (PointerTo int8s (reflect.Zero int8s)) r =
    (Panic notAssignable,
     mkReader (mkSource sample.abc0xxxx 4) LittleEndian [EvRead 4]) /\
  ReadInterface sample.none (PointerTo uint8s (reflect.Zero uint8s)) r =
    (Ok (reflect.VStruct
           [reflect.VList [reflect.VUint 97; reflect.VUint 98;
                           reflect.VUint 99; reflect.VUint 0]]),
     mkReader (mkSource sample.abc0xxxx 4) LittleEndian
       [EvRead 1; EvRead 1; EvRead 1; EvRead 1]).
Proof. split; reflexivity. Qed.

(** ** Conditions *)

Lemma evaluate_Ok fs vals text root ev r :
  expression.Parse text = Some root ->
  expression.Eval fs vals root = inr ev ->
  evaluate fs vals text r = (Ok ev, r).
Proof. unfold evaluate. intros -> ->. reflexivity. Qed.





(** ** Seeks: skips and alignment *)

Lemma Seek_current off r :
  0 <= Z.of_nat (position r) + off <= goint.MaxInt ->
  Seek off 1 r = (Ok (Z.of_nat (position r) + off), sought off r).
Proof.
  unfold Seek, io_Seek, sought, position. simpl. intros H.
  change (goint.to_signed 64 (Z.of_nat (offset (Reader r)) + off))
    with (goint.int (Z.of_nat (offset (Reader r)) + off)).
  rewrite (int_id (Z.of_nat (offset (Reader r)) + off))
    by (unfold goint.in_int, goint.MinInt, goint.MaxInt in *; lia).
  destruct (Z.ltb_spec (Z.of_nat (offset (Reader r)) + off) 0); [lia|]. reflexivity.
Qed.

Lemma Seek_trace off r : Trace (snd (Seek off 1 r)) = Trace r ++ [EvSeek off 1].
Proof.
  unfold Seek, io_Seek. simpl.
  destruct (goint.to_signed 64 (Z.of_nat (offset (Reader r)) + off) <? 0);
    reflexivity.
Qed.

Lemma sought_position off r :
  0 <= off -> Z.of_nat (position (sought off r)) = Z.of_nat (position r) + off.
Proof. unfold sought, position. simpl. lia. Qed.

(** The evaluator returns an [int]. *)
Lemma apply_in_int o a b : goint.in_int (expression.apply o a b).
Proof.
  destruct o; simpl;
    repeat match goal with
           | |- context [if ?c then _ else _] => destruct c
           end;
    first [apply int_in_int | unfold goint.in_int, goint.MinInt, goint.MaxInt; lia].
Qed.

Lemma Eval_in_int fs vals n z :
  expression.Eval fs vals n = inr z -> goint.in_int z.
Proof.
  destruct n as [text|path|o l r0]; simpl.
  - intros H. inversion H. apply int_in_int.
  - destruct (expression.resolve fs vals path) as [[]|]; intros H;
      inversion H; apply int_in_int.
  - destruct (expression.Eval fs vals l); [discriminate|].
    destruct (expression.Eval fs vals r0); [discriminate|].
    intros H. inversion H. apply apply_in_int.
Qed.

(** Clearing the low [k] bits rounds down to a multiple of [2 ^ k]. *)
Lemma land_lnot_pow2 y k :
  0 <= k -> Z.land y (Z.lnot (2 ^ k - 1)) = y / 2 ^ k * 2 ^ k.
Proof.
  intros Hk. rewrite <- Z.ldiff_land.
  replace (2 ^ k - 1) with (Z.ones k) by (rewrite Z.ones_equiv; lia).
  rewrite Z.ldiff_ones_r by exact Hk.
  rewrite Z.shiftl_mul_pow2, Z.shiftr_div_pow2 by exact Hk. reflexivity.
Qed.

Lemma roundUp_bounds x a : 0 < a -> x <= reflect.roundUp x a < x + a.
Proof.
  intros Ha. unfold reflect.roundUp.
  pose proof (Z.div_mod (x + a - 1) a ltac:(lia)) as Hd.
  pose proof (Z.mod_pos_bound (x + a - 1) a Ha) as Hm.
  lia.
Qed.

(** [int] keeps its argument up to a multiple of [2 ^ 64]. *)
Lemma int_wrap z q : goint.int (z + q * 2 ^ 64) = goint.int z.
Proof.
  unfold goint.int, goint.to_signed.
  replace (z + q * 2 ^ 64 + 2 ^ (64 - 1)) with (z + 2 ^ (64 - 1) + q * 2 ^ 64) by lia.
  rewrite Z.mod_add by lia. reflexivity.
Qed.

Lemma int_eq z : exists q, goint.int z = z + q * 2 ^ 64.
Proof.
  exists (- ((z + 2 ^ (64 - 1)) / 2 ^ 64)).
  unfold goint.int, goint.to_signed.
  pose proof (Z.div_mod (z + 2 ^ (64 - 1)) (2 ^ 64) ltac:(lia)). lia.
Qed.

(** The correction of the reader is the one asked for: below the size for
    the powers of two, even where [size + (align - 1)] wraps around. *)
Lemma padding_correction align size :
  0 <= size <= goint.MaxInt ->
  goint.in_int align ->
  (align < size -> exists k, 0 <= k /\ align = 2 ^ k) ->
  padding align size = correction align size /\ 0 <= correction align size.
Proof.
  intros Hs Ha Hpow. unfold padding, correction.
  unfold goint.in_int, goint.MinInt, goint.MaxInt in *.
  destruct (Z.ltb_spec align size) as [Hlt|Hge].
  - destruct (Hpow Hlt) as (k & Hk & ->).
    assert (0 < 2 ^ k) as Hpos by (apply Z.pow_pos_nonneg; lia).
    assert (k < 63) as Hk63.
    { destruct (Z.lt_ge_cases k 63) as [|Hge]; [assumption|].
      pose proof (Z.pow_le_mono_r 2 63 k ltac:(lia) Hge). lia. }
    pose proof (roundUp_bounds size (2 ^ k) Hpos) as Hb.
    rewrite (int_id (2 ^ k - 1)) by (unfold goint.in_int, goint.MinInt, goint.MaxInt; lia).
    destruct (int_eq (size + (2 ^ k - 1))) as [q ->].
    rewrite land_lnot_pow2 by exact Hk.
    replace (2 ^ 64) with (2 ^ (64 - k) * 2 ^ k)
      by (rewrite <- Z.pow_add_r by lia; f_equal; lia).
    rewrite Z.mul_assoc, Z.div_add by lia.
    replace ((size + (2 ^ k - 1)) / 2 ^ k) with ((size + 2 ^ k - 1) / 2 ^ k)
      by (f_equal; lia).
    fold (reflect.roundUp size (2 ^ k)) in *.
    set (up := reflect.roundUp size (2 ^ k)) in *.
    replace (((size + 2 ^ k - 1) / 2 ^ k + q * 2 ^ (64 - k)) * 2 ^ k - size)
      with (up - size + q * 2 ^ 64).
    2:{ unfold up, reflect.roundUp.
        replace (2 ^ 64) with (2 ^ (64 - k) * 2 ^ k)
          by (rewrite <- Z.pow_add_r by lia; f_equal; lia).
        ring. }
    rewrite int_wrap.
    rewrite int_id by (unfold goint.in_int, goint.MinInt, goint.MaxInt; lia).
    split; [reflexivity | lia].
  - destruct (Z.gtb_spec align size) as [Hgt|Hle].
    + rewrite int_id by (unfold goint.in_int, goint.MinInt, goint.MaxInt; lia).
      split; [reflexivity | lia].
    + split; [reflexivity | lia].
Qed.

(** A position beyond [int64] wraps around to a negative one, which the
    source rejects. *)
Lemma Seek_beyond off r :
  goint.MaxInt < Z.of_nat (position r) + off < 2 ^ 64 ->
  Seek off 1 r = (Err ErrSeek, rejected off r).
Proof.
  unfold Seek, io_Seek, rejected, position, goint.MaxInt. simpl. intros H.
  change (goint.to_signed 64 (Z.of_nat (offset (Reader r)) + off))
    with (goint.int (Z.of_nat (offset (Reader r)) + off)).
  replace (goint.int (Z.of_nat (offset (Reader r)) + off))
    with (goint.int (Z.of_nat (offset (Reader r)) + off - 2 ^ 64 + 1 * 2 ^ 64))
    by (f_equal; lia).
  rewrite int_wrap.
  rewrite int_id by (unfold goint.in_int, goint.MinInt, goint.MaxInt; lia).
  destruct (Z.ltb_spec (Z.of_nat (offset (Reader r)) + off - 2 ^ 64) 0); [|lia].
  reflexivity.
Qed.

(** C5 (amended). With an alignment [A] and a recorded size [size], a
    non-negative [int]: if [A] is below the size and a power of two,
    the reader moves forward by [roundUp size A - size], with one seek
    when that is not 0; if [A] is above the size, it seeks forward by
    [A - size]; if they are equal there is no seek.  The seek is
    accepted when the new position is an [int64]; beyond, the position
    wraps around, the source rejects the seek and the field fails with
    its error.  A size of 3 under an alignment of 4 gives 1 byte of
    padding, a size of 5 gives 3. *)
Theorem alignment_correction fs vals tag root A size r :
  isEmpty (reflect.Get "align" tag) = false ->
  expression.Parse (reflect.Get "align" tag) = Some root ->
  expression.Eval fs vals root = inr A ->
  0 <= size <= goint.MaxInt ->
  (A < size -> exists k, 0 <= k /\ A = 2 ^ k) ->
  Z.of_nat (position r) <= goint.MaxInt ->
  (Z.of_nat (position r) + correction A size <= goint.MaxInt ->
   alignStep fs vals tag size r = (Ok tt, aligned (correction A size) r) /\
   Z.of_nat (position (aligned (correction A size) r)) =
     Z.of_nat (position r) + correction A size) /\
  (goint.MaxInt < Z.of_nat (position r) + correction A size ->
   alignStep fs vals tag size r = (Err ErrSeek, rejected (correction A size) r)) /\
  (A < size -> correction A size = reflect.roundUp size A - size) /\
  (A > size -> correction A size = A - size) /\
  (A = size -> aligned (correction A size) r = r) /\
  correction 4 3 = 1 /\ correction 4 5 = 3.
Proof.
  intros Hne Hp He Hs Hpow Hr.
  pose proof (Eval_in_int _ _ _ _ He) as HA.
  destruct (padding_correction A size Hs HA Hpow) as [Hpad Hpos].
  assert (correction A size <= goint.MaxInt) as Hmax.
  { unfold goint.in_int, goint.MinInt, goint.MaxInt in *. unfold correction.
    destruct (Z.ltb_spec A size) as [Hlt|Hge].
    - destruct (Hpow Hlt) as (k & Hk & ->).
      pose proof (roundUp_bounds size (2 ^ k) ltac:(apply Z.pow_pos_nonneg; lia)).
      lia.
    - destruct (Z.gtb_spec A size); lia. }
  assert (alignStep fs vals tag size r =
          (if correction A size >? 0
           then _ <- Seek (correction A size) 1 ;; ret tt else ret tt) r) as Estep.
  { unfold alignStep. rewrite Hne.
    rewrite (bind_Ok _ _ r A r) by (eapply evaluate_Ok; eassumption).
    rewrite Hpad. reflexivity. }
  split; [|split; [|split; [|split; [|split; [|split; reflexivity]]]]].
  - intros Hfit. split.
    + rewrite Estep. unfold aligned.
      destruct (Z.gtb_spec (correction A size) 0) as [Hgt|Hle]; [|reflexivity].
      rewrite (bind_Ok _ _ r (Z.of_nat (position r) + correction A size)
                 (sought (correction A size) r)); [reflexivity|].
      apply Seek_current. lia.
    + unfold aligned. destruct (Z.gtb_spec (correction A size) 0).
      * apply sought_position. lia.
      * lia.
  - intros Hbeyond. rewrite Estep.
    destruct (Z.gtb_spec (correction A size) 0) as [Hgt|Hle]; [|lia].
    unfold bind. rewrite Seek_beyond; [reflexivity|].
    unfold goint.MaxInt in *. lia.
  - intros H. unfold correction. destruct (Z.ltb_spec A size); [reflexivity | lia].
  - intros H. unfold correction. destruct (Z.ltb_spec A size); [lia|].
    destruct (Z.gtb_spec A size); [reflexivity | lia].
  - intros ->. unfold correction, aligned.
    rewrite Z.ltb_irrefl. destruct (Z.gtb_spec size size); [lia|]. reflexivity.
Qed.

Lemma alignment_correction_witness :
  alignStep [] [] [("align", "4")] 5 (sample.NewReader sample.abc0xxxx) =
  (Ok tt, mkReader (mkSource sample.abc0xxxx 3) LittleEndian [EvSeek 3 1]).
Proof.
  refine (proj1 (proj1 (alignment_correction [] [] [("align", "4")]
                   (expression.NConstant ["4"%char]) 4 5
                   (sample.NewReader sample.abc0xxxx) eq_refl eq_refl eq_refl _ _ _)
                   _)).
  - vm_compute. split; discriminate.
  - intros _. exists 2. split; [lia | reflexivity].
  - vm_compute. discriminate.
  - vm_compute. discriminate.
Defined.

(** C5, the claim as stated, at an alignment that is no power of two:
    a size of 5 under an alignment of 3 rounds up to 6, one byte of
    padding; the reader computes none and does not seek. *)
Lemma alignment_not_rounded_up_to_3 :
  reflect.roundUp 5 3 - 5 = 1 /\
  padding 3 5 = 0 /\
  let t := reflect.structOf
    [reflect.mkField "Name" "" sample.string_ [("length", "5"); ("align", "3")]] in
  ReadInterface sample.none (PointerTo t (reflect.Zero t))
    (sample.NewReader sample.abc0xxxx) =
  (Ok (reflect.VStruct [reflect.VString [x61; x62; x63]]),
   mkReader (mkSource sample.abc0xxxx 5) LittleEndian [EvRead 5]).
Proof. repeat split. Qed.

(** *** What a computation adds to the trace *)

Lemma extends_refl P r : extends P r r.
Proof. exists []. rewrite app_nil_r. split; [reflexivity | constructor]. Qed.

Lemma extends_trans P r1 r2 r3 :
  extends P r1 r2 -> extends P r2 r3 -> extends P r1 r3.
Proof.
  intros (n1 & E1 & F1) (n2 & E2 & F2). exists (n1 ++ n2).
  rewrite E2, E1, app_assoc. split; [reflexivity|].
  apply Forall_app. split; assumption.
Qed.

Lemma extends_event P r s o e : P e -> extends P r (mkReader s o (Trace r ++ [e])).
Proof. intros H. exists [e]. split; [reflexivity|]. repeat constructor. exact H. Qed.

Section Emits.

Variable P : Event -> Prop.

Lemma emits_ret {A} (a : A) : emits P (ret a).
Proof. intros r. apply extends_refl. Qed.

Lemma emits_fail {A} e : emits P (@fail A e).
Proof. intros r. apply extends_refl. Qed.

Lemma emits_panic {A} msg : emits P (@panic A msg).
Proof. intros r. apply extends_refl. Qed.

Lemma emits_bind {A B} (m : M A) (k : A -> M B) :
  emits P m -> (forall a, emits P (k a)) -> emits P (bind m k).
Proof.
  intros Hm Hk r. unfold bind. specialize (Hm r).
  destruct (m r) as [[a|e|msg] r1]; simpl in Hm; [|exact Hm..].
  eapply extends_trans; [exact Hm | apply Hk].
Qed.

Lemma emits_if {A} (c : bool) (m1 m2 : M A) :
  emits P m1 -> emits P m2 -> emits P (if c then m1 else m2).
Proof. destruct c; auto. Qed.

Lemma emits_record e : P e -> emits P (record e).
Proof. intros H r. apply extends_event. exact H. Qed.

Lemma emits_forEach {A B} (f : A -> M B) l :
  (forall a, emits P (f a)) -> emits P (forEach f l).
Proof.
  intros Hf. induction l as [|a l IH]; simpl.
  - apply emits_ret.
  - apply emits_bind; [apply Hf|]. intros b.
    apply emits_bind; [exact IH|]. intros bs. apply emits_ret.
Qed.

Lemma emits_evaluate fs vals text : emits P (evaluate fs vals text).
Proof.
  unfold evaluate. destruct (expression.Parse text); [|apply emits_fail].
  destruct (expression.Eval fs vals n); [apply emits_fail | apply emits_ret].
Qed.

Lemma emits_ifStep fs vals tag : emits P (ifStep fs vals tag).
Proof.
  unfold ifStep. apply emits_if; [apply emits_ret|].
  apply emits_bind; [apply emits_evaluate|]. intros ev. apply emits_ret.
Qed.

(** The byte source is read ... *)
Hypothesis P_read : forall n, P (EvRead n).

Lemma emits_io_Read n : emits P (io_Read n).
Proof.
  intros r. unfold io_Read.
  destruct (length (data (Reader r)) <=? offset (Reader r))%nat; simpl;
    apply extends_event; apply P_read.
Qed.

Lemma emits_Read size : emits P (Read size).
Proof.
  intros r. unfold Read.
  destruct ((size <? 0) || negb (fits size (Reader r))); [apply emits_panic|].
  destruct (size =? 0); [apply emits_ret|].
  apply emits_bind; [apply emits_io_Read|]. intros got.
  apply emits_if; [apply emits_fail | apply emits_ret].
Qed.

Lemma emits_unsigned w : emits P (unsigned w).
Proof.
  unfold unsigned. apply emits_bind; [apply emits_Read|].
  intros bs r. apply extends_refl.
Qed.

Lemma emits_Uint8 : emits P Uint8.
Proof. apply emits_bind; [apply emits_Read|]. intros bs. apply emits_ret. Qed.

Lemma emits_signed w m : emits P m -> emits P (d <- m ;; ret (goint.to_signed w d)).
Proof. intros H. apply emits_bind; [exact H|]. intros d. apply emits_ret. Qed.

Lemma emits_scan : forall fuel i max acc, emits P (scan fuel i max acc).
Proof.
  induction fuel as [|n IH]; intros i max acc; simpl.
  - apply emits_if; [apply emits_ret | apply emits_fail].
  - apply emits_if; [apply emits_ret|].
    apply emits_bind; [apply emits_Uint8|]. intros u.
    apply emits_if; [apply emits_ret | apply IH].
Qed.

Lemma emits_scanString max : emits P (scanString max).
Proof. intros r. unfold scanString. apply emits_scan. Qed.

Lemma emits_lengthStep fs vals tag : emits P (lengthStep fs vals tag).
Proof.
  unfold lengthStep, Uint16, Uint32, Uint64.
  repeat (apply emits_if;
          [first [apply emits_ret
                 | apply emits_bind;
                   [first [apply emits_Uint8 | apply emits_unsigned]
                   | intros ?; apply emits_ret]]|]).
  apply emits_evaluate.
Qed.

(** ... and sought, forward. *)
Hypothesis P_forward : forall off, 0 < off -> P (EvSeek off 1).

Lemma emits_Seek off : P (EvSeek off 1) -> emits P (Seek off 1).
Proof.
  intros H r. exists [EvSeek off 1]. rewrite Seek_trace.
  split; [reflexivity|]. repeat constructor. exact H.
Qed.

Lemma emits_alignStep fs vals tag size : emits P (alignStep fs vals tag size).
Proof.
  unfold alignStep. apply emits_if; [apply emits_ret|].
  apply emits_bind; [apply emits_evaluate|]. intros align.
  destruct (Z.gtb_spec (padding align size) 0) as [Hgt|Hle]; [|apply emits_ret].
  apply emits_bind; [|intros ?; apply emits_ret].
  apply emits_Seek, P_forward. exact Hgt.
Qed.

Lemma emits_skipStep_untagged fs vals tag :
  String.eqb (reflect.Get "skip" tag) "" = true -> emits P (skipStep fs vals tag).
Proof. unfold skipStep, isEmpty. intros ->. apply emits_ret. Qed.

Lemma emits_valueStep fs RI vals f2 f size :
  emits P (RI (reflect.Type_ f2) f) ->
  (forall elem x, reflect.Shape (reflect.Type_ f2) = reflect.SliceOf elem ->
                  emits P (RI elem x)) ->
  emits P (valueStep fs RI vals f2 f size).
Proof.
  intros Hself Helem. unfold valueStep.
  assert (emits P
            (if reflect.IsExported f2
             then x <- RI (reflect.Type_ f2) f ;;
                  ret (x, goint.int (reflect.Size (reflect.Type_ f2)))
             else panic notExported)) as Hdefault.
  { apply emits_if; [|apply emits_panic].
    apply emits_bind; [exact Hself | intros ?; apply emits_ret]. }
  destruct (reflect.Shape (reflect.Type_ f2)) as [k|n e|e|fs'] eqn:Hs;
    try exact Hdefault.
  - destruct k; try exact Hdefault.
    apply emits_bind.
    + apply emits_if.
      * apply emits_bind; [apply emits_Read | intros ?; apply emits_ret].
      * apply emits_bind.
        { apply emits_if; [apply emits_ret | apply emits_evaluate]. }
        intros max. apply emits_bind; [apply emits_scanString|].
        intros found. apply emits_ret.
    + intros res. apply emits_if; [apply emits_ret | apply emits_panic].
  - apply emits_if; [apply emits_fail|].
    apply emits_if.
    + apply emits_bind; [apply emits_Read|]. intros b.
      apply emits_if; apply emits_panic.
    + apply emits_if; [apply emits_panic|].
      apply emits_bind.
      * apply emits_forEach. intros x. apply Helem. reflexivity.
      * intros v3. apply emits_if; [apply emits_ret | apply emits_panic].
Qed.

Lemma emits_readField fs RI i f2 vals :
  String.eqb (reflect.Get "skip" (reflect.Tag f2)) "" = true ->
  (forall x, emits P (RI (reflect.Type_ f2) x)) ->
  (forall elem x, reflect.Shape (reflect.Type_ f2) = reflect.SliceOf elem ->
                  emits P (RI elem x)) ->
  emits P (readField fs RI i f2 vals).
Proof.
  intros Hskip Hself Helem. unfold readField.
  apply emits_bind; [apply emits_ifStep|]. intros present.
  apply emits_if; [apply emits_ret|].
  apply emits_bind; [apply emits_skipStep_untagged; exact Hskip|]. intros _.
  apply emits_bind; [apply emits_lengthStep|]. intros size.
  apply emits_bind; [apply emits_valueStep; [apply Hself | exact Helem]|].
  intros res. apply emits_bind; [apply emits_alignStep|].
  intros _. apply emits_ret.
Qed.

(** The methods supplied by the user. *)
Variable ms : string -> Methods.
Hypothesis P_custom : forall n, P (EvCustomRead n).
Hypothesis P_validate : forall n, P (EvValidate n).
Hypothesis P_methods : forall n recv f x r,
  ReadMethod (ms n) = Some (recv, f) -> extends P r (snd (f x r)).

Lemma emits_readInterface switch isptr t x :
  emits P (switch x) ->
  (forall x', emits P (switch x')) ->
  emits P (readInterface ms switch isptr t x).
Proof.
  intros Hs _. unfold readInterface.
  destruct (asReader ms isptr t) as [[recv ri]|] eqn:Hr.
  - intros r. rewrite callRead_trace.
    eapply extends_trans; [apply (extends_event P r); apply P_custom|].
    unfold asReader in Hr. destruct (reflect.TypeName t) as [n|]; [|discriminate].
    destruct (ReadMethod (ms n)) as [[recv' f]|] eqn:Hm; [|discriminate].
    destruct (inMethodSet isptr recv'); [|discriminate].
    inversion Hr; subst. eapply P_methods. exact Hm.
  - apply emits_if; [apply emits_fail|].
    apply emits_bind; [exact Hs|]. intros x'.
    destruct (asValidateable ms isptr t) as [[recv val]|]; [|apply emits_ret].
    unfold callValidate. apply emits_bind; [apply emits_record, P_validate|].
    intros _. destruct (val x'); [apply emits_fail | apply emits_ret].
Qed.

Lemma emits_readFields fs : forall rest i vals,
  Forall (fun f2 =>
            String.eqb (reflect.Get "skip" (reflect.Tag f2)) "" = true /\
            reflect.untagged "skip" (reflect.Type_ f2) = true /\
            quiet P ms (reflect.Type_ f2)) rest ->
  emits P (readFields fs (fun t' => readInterface ms (kindSwitch ms t') true t')
             rest i vals).
Proof.
  induction rest as [|f2 rest IH]; intros i vals Hall; simpl.
  - apply emits_ret.
  - inversion Hall as [|? ? (Hskip & Hun & Hq) Hrest]; subst.
    destruct (Hq Hun) as [Hself Helem].
    apply emits_bind.
    + apply emits_readField; [exact Hskip | |].
      * intros x. apply emits_readInterface; intros; apply Hself.
      * intros elem x Hs. apply emits_readInterface; intros;
          apply (Helem elem Hs).
    + intros vals'. apply IH. exact Hrest.
Qed.

Lemma untagged_fields key nm fs :
  reflect.untagged key (reflect.mkType nm (reflect.StructOf fs)) = true ->
  Forall (fun f2 =>
            String.eqb (reflect.Get key (reflect.Tag f2)) "" = true /\
            reflect.untagged key (reflect.Type_ f2) = true) fs.
Proof.
  simpl. induction fs as [|[n ft tag] fs IH]; intros H; constructor.
  - apply andb_prop in H. destruct H as [H _].
    apply andb_prop in H. simpl. exact H.
  - apply IH. apply andb_prop in H. tauto.
Qed.

Lemma emits_scalar (k : reflect.Kind) nm x :
  emits P (kindSwitch ms (reflect.mkType nm (reflect.Basic k)) x).
Proof.
  destruct k; simpl; unfold Int64, Int32, Int16, Int8, Float32, Float64,
    Uint64, Uint32, Uint16;
  repeat first
    [ apply emits_fail
    | apply emits_ret
    | apply emits_Uint8
    | apply emits_unsigned
    | apply emits_Read
    | apply emits_scanString
    | apply emits_bind; [|intros ?] ].
Qed.

Lemma emits_kindSwitch t : quiet P ms t.
Proof.
  induction t as [nm k | nm n e IH | nm e IH | nm fs IH] using reflect.type_induction;
    intros Hun.
  - split; [intros x; apply emits_scalar | discriminate].
  - split; [|discriminate]. intros x. simpl.
    apply emits_bind; [|intros ?; apply emits_ret].
    apply emits_forEach. intros a.
    apply emits_readInterface; intros; apply (proj1 (IH Hun)).
  - split.
    + intros x. simpl.
      apply emits_bind; [|intros ?; apply emits_ret].
      apply emits_forEach. intros a.
      apply emits_readInterface; intros; apply (proj1 (IH Hun)).
    + intros elem Hs x. simpl in Hs. inversion Hs; subst. apply (proj1 (IH Hun)).
  - split; [|discriminate]. intros x. simpl.
    apply emits_bind; [|intros ?; apply emits_ret].
    apply emits_readFields.
    pose proof (untagged_fields _ _ _ Hun) as Hfs.
    clear Hun. induction fs as [|f2 fs IHfs]; constructor.
    + inversion IH; subst. inversion Hfs as [|? ? [Ha Hb] ?]; subst. auto.
    + inversion IH; subst. inversion Hfs; subst. apply IHfs; assumption.
Qed.

Lemma emits_ReadInterface t x :
  reflect.untagged "skip" t = true ->
  emits P (ReadInterface ms (PointerTo t x)).
Proof.
  intros Hun. unfold ReadInterface.
  apply emits_readInterface; intros; apply (proj1 (emits_kindSwitch t Hun)).
Qed.

End Emits.

Lemma skipStep_trace fs vals tag root ev r :
  isEmpty (reflect.Get "skip" tag) = false ->
  expression.Parse (reflect.Get "skip" tag) = Some root ->
  expression.Eval fs vals root = inr ev ->
  Trace (snd (skipStep fs vals tag r)) = Trace r ++ [EvSeek ev 1].
Proof.
  intros Hne Hp He. unfold skipStep. rewrite Hne.
  rewrite (bind_Ok _ _ r ev r) by (eapply evaluate_Ok; eassumption).
  unfold bind. pose proof (Seek_trace ev r) as Ht.
  destruct (Seek ev 1 r) as [[a|e|msg] r1]; exact Ht.
Qed.

(** C3 (amended). The seeks of the alignment of a field all have a
    positive offset.  The seek of a skip tag has the offset its
    expression evaluates to, whatever its sign.  So a decode call on a
    type without skip tags, with custom [Read] methods that only seek
    forward, only seeks forward. *)
Theorem seeks_of_the_engine ms :
  (forall fs vals tag size, emits forward (alignStep fs vals tag size)) /\
  (forall fs vals tag root ev r,
     isEmpty (reflect.Get "skip" tag) = false ->
     expression.Parse (reflect.Get "skip" tag) = Some root ->
     expression.Eval fs vals root = inr ev ->
     Trace (snd (skipStep fs vals tag r)) = Trace r ++ [EvSeek ev 1]) /\
  ((forall n recv f x r,
      ReadMethod (ms n) = Some (recv, f) -> extends forward r (snd (f x r))) ->
   forall t x,
     reflect.untagged "skip" t = true ->
     emits forward (ReadInterface ms (PointerTo t x))).
Proof.
  split; [|split].
  - intros fs vals tag size. apply emits_alignStep. intros off H. exact H.
  - apply skipStep_trace.
  - intros Hms t x Hun.
    apply emits_ReadInterface; simpl; auto.
Qed.

Lemma seeks_of_the_engine_witness :
  let t := reflect.structOf
    [reflect.mkField "Name" "" sample.string_ [("length", "3"); ("align", "4")];
     reflect.mkField "Data" "" (reflect.sliceOf sample.uint8) [("length", "2")]] in
  emits forward (ReadInterface sample.none (PointerTo t (reflect.Zero t))).
Proof.
  intros t.
  refine (proj2 (proj2 (seeks_of_the_engine sample.none)) _ t (reflect.Zero t) eq_refl).
  intros n recv f x r H. discriminate H.
Defined.

(** C3, the claim as stated, at a skip that evaluates to -1: the second
    field of the record is read from the byte the first was read from. *)
Lemma skip_seeks_backward :
  let t := reflect.structOf
    [reflect.mkField "First" "" sample.uint8 [];
     reflect.mkField "Again" "" sample.uint8 [("skip", "0-1")]] in
  ReadInterface sample.none (PointerTo t (reflect.Zero t))
    (sample.NewReader sample.abc0xxxx) =
  (Ok (reflect.VStruct [reflect.VUint 97; reflect.VUint 97]),
   mkReader (mkSource sample.abc0xxxx 1) LittleEndian
     [EvRead 1; EvSeek (-1) 1; EvRead 1]) /\
  ~ forward (EvSeek (-1) 1).
Proof. split; [reflexivity | simpl; lia]. Qed.

(** ** The size recorded for the alignment *)

Lemma Uint8_inv r u r' : Uint8 r = (Ok u, r') -> moved r r' = 1.
Proof.
  unfold Uint8. intros H. apply bind_inv in H. destruct H as (bs & r1 & H1 & H).
  inversion H; subst. apply Read_inv in H1. unfold moved. lia.
Qed.

Lemma Int8_inv r u r' : Int8 r = (Ok u, r') -> moved r r' = 1.
Proof.
  unfold Int8. intros H. apply bind_inv in H. destruct H as (bs & r1 & H1 & H).
  inversion H; subst. apply Read_inv in H1. unfold moved. lia.
Qed.

Lemma unsigned_inv w r d r' : unsigned w r = (Ok d, r') -> moved r r' = w.
Proof.
  unfold unsigned. intros H. apply bind_inv in H. destruct H as (bs & r1 & H1 & H).
  inversion H; subst. apply Read_inv in H1. unfold moved. lia.
Qed.

Lemma signed_inv w m W r d r' :
  (forall r d r', m r = (Ok d, r') -> moved r r' = W) ->
  (d <- m ;; ret (goint.to_signed w d)) r = (Ok d, r') -> moved r r' = W.
Proof.
  intros Hm H. apply bind_inv in H. destruct H as (u & r1 & H1 & H).
  inversion H; subst. eapply Hm. exact H1.
Qed.

(** A value of fixed width takes from the source the bytes it takes in
    memory. *)
Lemma kindSwitch_fixedWidth ms nm k v2 r x r' :
  fixedWidth k = true ->
  kindSwitch ms (reflect.mkType nm (reflect.Basic k)) v2 r = (Ok x, r') ->
  moved r r' = reflect.KindSize k.
Proof.
  intros Hk H. destruct k; try discriminate Hk; simpl in H;
    apply bind_inv in H; destruct H as (d & r1 & H1 & H);
    inversion H; subst; clear H; simpl;
    unfold Int64, Int32, Int16, Float32, Float64, Uint64, Uint32, Uint16 in H1;
    first
      [ exact (Uint8_inv _ _ _ H1)
      | exact (Int8_inv _ _ _ H1)
      | exact (unsigned_inv _ _ _ _ H1)
      | exact (signed_inv _ _ _ _ _ _ (unsigned_inv _) H1)
      | (apply bind_inv in H1; destruct H1 as (i & r2 & H2 & H1);
         inversion H1; subst;
         exact (signed_inv _ _ _ _ _ _ (unsigned_inv _) H2)) ].
Qed.

Lemma callValidate_moved t f x r out r' :
  callValidate t f x r = (out, r') -> moved r r' = 0.
Proof.
  unfold callValidate, bind, record. simpl.
  destruct (f x); intros H; inversion H; subst; unfold moved, position; simpl; lia.
Qed.

(** Without a custom [Read], [ReadInterface] moves as its switch does. *)
Lemma readInterface_moved ms switch t x r x' r' :
  asReader ms true t = None ->
  readInterface ms switch true t x r = (Ok x', r') ->
  exists y r1, switch x r = (Ok y, r1) /\ moved r r' = moved r r1.
Proof.
  intros Hr H. unfold readInterface in H. rewrite Hr in H. simpl in H.
  apply bind_inv in H. destruct H as (y & r1 & H1 & H).
  exists y, r1. split; [exact H1|].
  destruct (asValidateable ms true t) as [[recv val]|].
  - apply callValidate_moved in H. unfold moved in *. lia.
  - inversion H; subst. reflexivity.
Qed.

(** When the scan finds the null byte, the count it returns is the
    number of bytes it read. *)
Lemma scan_found max : max <= goint.MaxInt ->
  forall fuel i acc r bs n r',
  0 <= i ->
  scan fuel i max acc r = (Ok (bs, Some n), r') ->
  n - i = moved r r'.
Proof.
  intros Hmax. induction fuel as [|fuel IH]; intros i acc r bs n r' Hi; simpl.
  - destruct (i <? max); simpl; discriminate.
  - destruct (Z.ltb_spec i max) as [Hlt|]; simpl; [|discriminate].
    intros H. apply bind_inv in H. destruct H as (u & r1 & H1 & H).
    apply Uint8_inv in H1.
    assert (goint.int (i + 1) = i + 1) as Hint
      by (apply int_id; unfold goint.in_int, goint.MinInt, goint.MaxInt in *; lia).
    rewrite Hint in H.
    destruct (u =? 0).
    + inversion H; subst. unfold moved in *. lia.
    + apply IH in H; [|lia]. unfold moved in *. lia.
Qed.

(** The size recorded by the decoding of the value of a field that is no
    slice. *)
Lemma valueStep_size ms fs vals f2 f size r x sz r' :
  valueStep fs (fun t' => readInterface ms (kindSwitch ms t') true t')
    vals f2 f size r = (Ok (x, sz), r') ->
  reflect.KindOf (reflect.Type_ f2) <> reflect.Slice ->
  match reflect.Shape (reflect.Type_ f2) with
  | reflect.Basic reflect.String =>
      (0 <= size -> sz = size) /\ (0 <= sz -> moved r r' = sz)
  | reflect.Basic k =>
      sz = reflect.Size (reflect.Type_ f2) /\
      (fixedWidth k = true -> asReader ms true (reflect.Type_ f2) = None ->
       moved r r' = sz)
  | _ => sz = goint.int (reflect.Size (reflect.Type_ f2))
  end.
Proof.
  intros H Hslice. unfold valueStep in H.
  assert (forall RI,
    (if reflect.IsExported f2
     then y <- RI (reflect.Type_ f2) f ;;
          ret (y, goint.int (reflect.Size (reflect.Type_ f2)))
     else panic notExported) r = (Ok (x, sz), r') ->
    sz = goint.int (reflect.Size (reflect.Type_ f2)) /\
    exists r1, RI (reflect.Type_ f2) f r = (Ok x, r1) /\ r1 = r') as Hdefault.
  { intros RI H0. destruct (reflect.IsExported f2); [|discriminate].
    apply bind_inv in H0. destruct H0 as (y & r1 & H1 & H0).
    inversion H0; subst. eauto. }
  destruct (reflect.Type_ f2) as [nm sh] eqn:Ht. simpl in *.
  destruct sh as [k|n e|e|fs']; simpl in *;
    [| apply Hdefault in H; tauto
     | exfalso; apply Hslice; reflexivity
     | apply Hdefault in H; tauto].
  assert (fixedWidth k = true -> asReader ms true (reflect.mkType nm (reflect.Basic k)) = None ->
          forall r1, readInterface ms (kindSwitch ms (reflect.mkType nm (reflect.Basic k))) true
                       (reflect.mkType nm (reflect.Basic k)) f r = (Ok x, r1) ->
          moved r r1 = reflect.KindSize k) as Hfixed.
  { intros Hk Hr r1 H1. apply (readInterface_moved _ _ _ _ _ _ _ Hr) in H1.
    destruct H1 as (y & r2 & H1 & ->).
    eapply kindSwitch_fixedWidth; eassumption. }
  destruct k;
    try (apply Hdefault in H; destruct H as (-> & r1 & H & ->);
         split; [reflexivity|]; intros Hk Hr;
         first [discriminate Hk | exact (Hfixed Hk Hr _ H)]).
  (* strings *)
  apply bind_inv in H. destruct H as ([bs n] & r1 & H1 & H). simpl in H.
  destruct (reflect.IsExported f2); [|discriminate].
  inversion H; subst; clear H.
  destruct (Z.geb_spec size 0) as [Hge|Hlt].
  - apply bind_inv in H1. destruct H1 as (data & r2 & H1 & H).
    inversion H; subst. apply Read_inv in H1. unfold moved. split; lia.
  - split; [lia|]. intros Hsz.
    apply bind_inv in H1. destruct H1 as (max & r2 & Hm & H1).
    apply bind_inv in H1. destruct H1 as ([bs' found] & r3 & Hscan & H).
    simpl in H. inversion H; subst; clear H.
    destruct found as [n|]; [|lia].
    assert (r2 = r /\ max <= goint.MaxInt) as [-> Hmax].
    { destruct (isEmpty _).
      - inversion Hm; subst. split; [reflexivity|]. vm_compute. discriminate.
      - unfold evaluate in Hm.
        destruct (expression.Parse _); [|discriminate].
        destruct (expression.Eval fs vals n0) eqn:He; [discriminate|].
        inversion Hm; subst. split; [reflexivity|].
        apply Eval_in_int in He. unfold goint.in_int in He. lia. }
    unfold scanString in Hscan. apply (scan_found _ Hmax) in Hscan; lia.
Qed.

Lemma alignStep_trace fs vals tag root A sz r out r' :
  isEmpty (reflect.Get "align" tag) = false ->
  expression.Parse (reflect.Get "align" tag) = Some root ->
  expression.Eval fs vals root = inr A ->
  alignStep fs vals tag sz r = (out, r') ->
  Trace r' = Trace r ++ (if padding A sz >? 0 then [EvSeek (padding A sz) 1] else []).
Proof.
  intros Hne Hp He. unfold alignStep. rewrite Hne.
  rewrite (bind_Ok _ _ r A r) by (eapply evaluate_Ok; eassumption).
  destruct (padding A sz >? 0).
  - unfold bind. pose proof (Seek_trace (padding A sz) r) as Ht.
    destruct (Seek (padding A sz) 1 r) as [[a|e|msg] r1]; intros H;
      inversion H; subst; exact Ht.
  - intros H. inversion H. rewrite app_nil_r. reflexivity.
Qed.

(** C2 (amended). The alignment of a field that is decoded and is no
    slice is computed from the size its decoding recorded: the seek of
    the alignment, the only thing the alignment does, has the offset
    [padding A sz] of the alignment [A] and the recorded size [sz].
    That size is, for a string field, the length the length tag gave
    when it is not negative and, whenever the recorded size is not
    negative, the number of bytes the decoding of the field consumed;
    for a field of any other kind it is the in-memory size of the field's
    type, which for a value of fixed width decoded by the reader itself
    is the number of bytes consumed. *)
Theorem recorded_size ms fs i f2 vals r vals' r' root A :
  readField fs (onPointer ms) i f2 vals r = (Ok vals', r') ->
  fst (ifStep fs vals (reflect.Tag f2) r) = Ok true ->
  reflect.KindOf (reflect.Type_ f2) <> reflect.Slice ->
  isEmpty (reflect.Get "align" (reflect.Tag f2)) = false ->
  expression.Parse (reflect.Get "align" (reflect.Tag f2)) = Some root ->
  expression.Eval fs vals' root = inr A ->
  exists r2 size r3 x sz r4,
    lengthStep fs vals (reflect.Tag f2) r2 = (Ok size, r3) /\
    valueStep fs (onPointer ms) vals f2 (nth i vals reflect.VOther) size r3 =
      (Ok (x, sz), r4) /\
    vals' = <[i := x]> vals /\
    alignStep fs vals' (reflect.Tag f2) sz r4 = (Ok tt, r') /\
    Trace r' =
      Trace r4 ++ (if padding A sz >? 0 then [EvSeek (padding A sz) 1] else []) /\
    match reflect.Shape (reflect.Type_ f2) with
    | reflect.Basic reflect.String =>
        (0 <= size -> sz = size) /\ (0 <= sz -> moved r3 r4 = sz)
    | reflect.Basic k =>
        sz = reflect.Size (reflect.Type_ f2) /\
        (fixedWidth k = true -> asReader ms true (reflect.Type_ f2) = None ->
         moved r3 r4 = sz)
    | _ => sz = goint.int (reflect.Size (reflect.Type_ f2))
    end.
Proof.
  intros H Hif Hslice Hne Hp He. unfold readField in H.
  apply bind_inv in H. destruct H as (present & r1 & H1 & H).
  rewrite H1 in Hif. cbn [fst] in Hif. inversion Hif; subst present. cbn [negb] in H.
  apply bind_inv in H. destruct H as (u & r2 & H2 & H).
  apply bind_inv in H. destruct H as (size & r3 & H3 & H).
  apply bind_inv in H. destruct H as ([x sz] & r4 & H4 & H). cbn [fst snd] in H.
  apply bind_inv in H. destruct H as (u' & r5 & H5 & H).
  inversion H; subst vals' r5; clear H. destruct u'.
  exists r2, size, r3, x, sz, r4.
  split; [exact H3|]. split; [exact H4|]. split; [reflexivity|].
  split; [exact H5|].
  split; [exact (alignStep_trace _ _ _ _ _ _ _ _ _ Hne Hp He H5)|].
  exact (valueStep_size ms fs vals f2 _ size r3 x sz r4 H4 Hslice).
Qed.

Lemma recorded_size_witness :
  let f2 := reflect.mkField "Name" "" sample.string_ [("length", "3"); ("align", "4")] in
  let r := sample.NewReader sample.abc0xxxx in
  exists r2 size r3 x sz r4,
    lengthStep [f2] [reflect.VString []] (reflect.Tag f2) r2 = (Ok size, r3) /\
    valueStep [f2] (onPointer sample.none) [reflect.VString []] f2
      (nth 0 [reflect.VString []] reflect.VOther) size r3 = (Ok (x, sz), r4) /\
    [reflect.VString [x61; x62; x63]] = <[0%nat := x]> [reflect.VString []] /\
    alignStep [f2] [reflect.VString [x61; x62; x63]] (reflect.Tag f2) sz r4 =
      (Ok tt, mkReader (mkSource sample.abc0xxxx 4) LittleEndian [EvRead 3; EvSeek 1 1]) /\
    [EvRead 3; EvSeek 1 1] =
      Trace r4 ++ (if padding 4 sz >? 0 then [EvSeek (padding 4 sz) 1] else []) /\
    ((0 <= size -> sz = size) /\ (0 <= sz -> moved r3 r4 = sz)).
Proof.
  intros f2 r.
  exact (recorded_size sample.none [f2] 0 f2 [reflect.VString []] r
           [reflect.VString [x61; x62; x63]]
           (mkReader (mkSource sample.abc0xxxx 4) LittleEndian [EvRead 3; EvSeek 1 1])
           (expression.NConstant ["4"%char]) 4
           eq_refl eq_refl ltac:(discriminate) eq_refl eq_refl eq_refl).
Defined.

(** C2, the claim as stated, at a nested record and at a slice.  The
    record [Header], a byte and a 16-bit integer, takes 3 bytes from the
    source and 4 in memory; under an alignment of 4 the size recorded is 4
    and the reader does not seek, where the 3 bytes consumed ask for 1
    byte of padding: the next field is read at position 3.  The slice of
    two 16-bit integers takes 4 bytes from the source; the size recorded
    is 2, its length, and the reader seeks 2 bytes further. *)
Lemma recorded_size_is_not_bytes_consumed :
  let header := reflect.structOf
    [reflect.mkField "Kind" "" sample.uint8 []; reflect.mkField "Len" "" sample.uint16 []] in
  let f2 := reflect.mkField "Header" "" header [("align", "4")] in
  let t := reflect.structOf [f2; reflect.mkField "Next" "" sample.uint8 []] in
  let words := reflect.mkField "Words" "" (reflect.sliceOf sample.uint16)
                 [("length", "2"); ("align", "4")] in
  let RI := fun t' => readInterface sample.none (kindSwitch sample.none t') true t' in
  let r := sample.NewReader sample.abc0xxxx in
  (exists x r',
     valueStep [f2] RI [reflect.Zero header] f2 (reflect.Zero header) (-1) r
       = (Ok (x, 4), r') /\ moved r r' = 3) /\
  correction 4 3 = 1 /\
  ReadInterface sample.none (PointerTo t (reflect.Zero t)) r =
    (Ok (reflect.VStruct
           [reflect.VStruct [reflect.VUint 97; reflect.VUint 25442]; reflect.VUint 0]),
     mkReader (mkSource sample.abc0xxxx 4) LittleEndian [EvRead 1; EvRead 2; EvRead 1]) /\
  (exists x r',
     valueStep [words] RI [reflect.VList []] words (reflect.VList []) 2 r
       = (Ok (x, 2), r') /\ moved r r' = 4) /\
  ReadInterface sample.none
    (PointerTo (reflect.structOf [words]) (reflect.Zero (reflect.structOf [words]))) r =
    (Ok (reflect.VStruct [reflect.VList [reflect.VUint 25185; reflect.VUint 99]]),
     mkReader (mkSource sample.abc0xxxx 6) LittleEndian [EvRead 2; EvRead 2; EvSeek 2 1]).
Proof.
  repeat split.
  - eexists _, _. split; reflexivity.
  - eexists _, _. split; reflexivity.
Qed.

(** * Further properties of the reader *)

(** ** [Read] *)

Lemma Read_at_end size r :
  0 < size -> fits size (Reader r) = true -> remaining (Reader r) = 0%nat ->
  Read size r = (Err ErrEOF, refused (Z.to_nat size) r).
Proof.
  intros H Hf Hl. rewrite (Read_made size r ltac:(lia) Hf).
  destruct (Z.eqb_spec size 0); [lia|].
  unfold bind, io_Read. unfold remaining in Hl.
  destruct (Nat.leb_spec (length (data (Reader r))) (offset (Reader r))); [|lia].
  reflexivity.
Qed.

Lemma Read_short size r :
  (0 < remaining (Reader r))%nat ->
  Z.of_nat (remaining (Reader r)) < size -> fits size (Reader r) = true ->
  Read size r = (Err ErrShortRead, drained (Z.to_nat size) r).
Proof.
  intros Hl H Hf. rewrite (Read_made size r ltac:(lia) Hf).
  destruct (Z.eqb_spec size 0); [lia|].
  unfold bind, io_Read. unfold remaining in *.
  destruct (Nat.leb_spec (length (data (Reader r))) (offset (Reader r))); [lia|].
  set (got := take (Z.to_nat size) (drop (offset (Reader r)) (data (Reader r)))).
  assert (length got = length (data (Reader r)) - offset (Reader r))%nat as Hg
    by (unfold got; rewrite length_take, length_drop; lia).
  simpl. rewrite length_app, length_replicate.
  destruct (Nat.eqb_spec (length got) (length got + (Z.to_nat size - length got))); [lia|].
  simpl. unfold drained. repeat f_equal. lia.
Qed.

Lemma fits_modest size r :
  size <= Z.max 8 (Z.of_nat (length (data (Reader r)))) -> fits size (Reader r) = true.
Proof.
  intros H. unfold fits, maxAlloc. apply orb_true_intro.
  destruct (Z.le_gt_cases size 8); [left | right]; apply Z.leb_le; lia.
Qed.

(** X4. [Read] panics in [make] on a negative size and on one beyond the
    allocation limit, before the source is touched, and leaves the source
    alone for size 0, even at its end.  For a positive size it returns
    the bytes at the read position when that many are left.  For a size
    that is no more than the source is long, or than the 8 bytes of the
    widest number, it fails with [io.EOF] at the end of the source, and
    when fewer bytes are left it fails with "Didn't read the expected
    number of bytes" after taking them: the read position is then the
    end of the source. *)
Theorem Read_outcome size r :
  let left := Z.of_nat (remaining (Reader r)) in
  let long := Z.of_nat (length (data (Reader r))) in
  let len := Z.to_nat size in
  (size < 0 -> Read size r = (Panic "makeslice: len out of range", r)) /\
  (maxAlloc < size -> long <= maxAlloc ->
   Read size r = (Panic "makeslice: len out of range", r)) /\
  (size = 0 -> Read size r = (Ok [], r)) /\
  (0 < size <= left -> Read size r = (Ok (window len r), consumed len r)) /\
  (0 < size <= Z.max 8 long -> left = 0 ->
   Read size r = (Err ErrEOF, refused len r)) /\
  (0 < left < size -> size <= Z.max 8 long ->
   Read size r = (Err ErrShortRead, drained len r)).
Proof.
  intros left long len.
  split; [|split; [|split; [|split; [|split]]]].
  - intros H. unfold Read. destruct (Z.ltb_spec size 0); [reflexivity | lia].
  - intros H Hd. unfold Read, fits.
    destruct (Z.leb_spec size maxAlloc); [lia|].
    destruct (Z.leb_spec size (Z.of_nat (length (data (Reader r))))); [lia|].
    rewrite orb_true_r. reflexivity.
  - intros ->. reflexivity.
  - intros H. pose proof (Read_enough size r ltac:(lia) ltac:(lia)) as E.
    unfold afterRead in E. destruct (Z.eqb_spec size 0); [lia | exact E].
  - intros H Hl. apply Read_at_end; [lia | apply fits_modest; lia | lia].
  - intros H Hl. apply Read_short; [lia | lia | apply fits_modest; exact Hl].
Qed.

Lemma Read_outcome_witness :
  let r := mkReader (mkSource sample.abc0xxxx 6) LittleEndian [] in
  Read 4 r = (Err ErrShortRead, drained 4 r).
Proof.
  intros r.
  refine (proj2 (proj2 (proj2 (proj2 (proj2 (Read_outcome 4 r))))) _ _).
  - vm_compute. split; reflexivity.
  - vm_compute. discriminate.
Defined.

(** ** Fixed-width reads *)

Lemma byteZ_range b : 0 <= byteZ b < 256.
Proof. unfold byteZ. pose proof (Byte.to_N_bounded b). lia. Qed.

Lemma lor_shiftl_8 a x : 0 <= a < 256 -> 0 <= x -> Z.lor a (Z.shiftl x 8) = a + 256 * x.
Proof.
  intros Ha Hx.
  assert (Z.land a (Z.shiftl x 8) = 0) as Hland.
  { apply Z.bits_inj'. intros n Hn. rewrite Z.land_spec, Z.bits_0.
    destruct (Z.lt_ge_cases n 8) as [Hlt|Hge].
    - rewrite (Z.shiftl_spec_low x 8 n Hlt). apply andb_false_r.
    - replace (Z.testbit a n) with false; [reflexivity|].
      symmetry. destruct (Z.eq_dec a 0) as [->|Hne]; [apply Z.bits_0|].
      apply Z.bits_above_log2; [lia|].
      apply Z.log2_lt_pow2; [lia|].
      pose proof (Z.pow_le_mono_r 2 8 n ltac:(lia) Hge). lia. }
  rewrite <- (Z.lxor_lor _ _ Hland), <- (Z.add_nocarry_lxor _ _ Hland).
  rewrite Z.shiftl_mul_pow2 by lia. lia.
Qed.

Lemma positional_range bs : 0 <= positional bs < 256 ^ Z.of_nat (length bs).
Proof.
  induction bs as [|b bs IH]; [simpl; lia|].
  cbn [positional length]. rewrite Nat2Z.inj_succ, Z.pow_succ_r by lia.
  pose proof (byteZ_range b). lia.
Qed.

Lemma littleEndian_positional bs : littleEndian bs = positional bs.
Proof.
  induction bs as [|b bs IH]; [reflexivity|].
  unfold littleEndian in *. cbn [fold_right positional]. rewrite IH.
  apply lor_shiftl_8; [apply byteZ_range | apply positional_range].
Qed.

Lemma order_positional o bs : order o bs = positional (lowestFirst o bs).
Proof. destruct o; apply littleEndian_positional. Qed.

Lemma order_range o bs : 0 <= order o bs < 256 ^ Z.of_nat (length bs).
Proof.
  rewrite order_positional.
  replace (length bs) with (length (lowestFirst o bs))
    by (destruct o; simpl; [reflexivity | apply length_rev]).
  apply positional_range.
Qed.

Lemma unsigned_enough w r :
  0 < w -> (Z.to_nat w <= remaining (Reader r))%nat ->
  unsigned w r = (Ok (order (Endianess r) (window (Z.to_nat w) r)),
                  consumed (Z.to_nat w) r).
Proof.
  intros Hw Hr. unfold unsigned.
  rewrite (bind_Ok _ _ r _ _ (Read_enough w r ltac:(lia) Hr)).
  unfold afterRead. destruct (Z.eqb_spec w 0); [lia | reflexivity].
Qed.

Lemma Uint8_enough r :
  (1 <= remaining (Reader r))%nat ->
  Uint8 r = (Ok (order (Endianess r) (window 1 r)), consumed 1 r).
Proof.
  intros Hr. unfold Uint8.
  rewrite (bind_Ok _ _ r _ _ (Read_enough 1 r ltac:(lia) Hr)).
  unfold afterRead, ret. simpl. f_equal. f_equal.
  pose proof (window_length 1 r Hr) as Hl.
  change (Z.to_nat 1) with 1%nat.
  destruct (window 1 r) as [|b [|b' l]]; try discriminate Hl.
  rewrite order_positional. destruct (Endianess r); simpl; lia.
Qed.

(** X5. With enough bytes left, [Uint8], [Uint16], [Uint32] and [Uint64]
    take exactly 1, 2, 4 and 8 bytes in one read and return the number
    these bytes write in base 256, the first byte the lowest in
    little-endian order and the highest in big-endian order; it lies
    within the range of the type. *)
Theorem unsigned_reads r w U :
  In (w, U) [(1, Uint8); (2, Uint16); (4, Uint32); (8, Uint64)] ->
  (Z.to_nat w <= remaining (Reader r))%nat ->
  let v := positional (lowestFirst (Endianess r) (window (Z.to_nat w) r)) in
  U r = (Ok v, consumed (Z.to_nat w) r) /\ 0 <= v < 2 ^ (8 * w).
Proof.
  intros Hin Hr v.
  assert (0 < w /\ U r = (Ok (order (Endianess r) (window (Z.to_nat w) r)),
                          consumed (Z.to_nat w) r)) as [Hw E].
  { simpl in Hin.
    destruct Hin as [H|[H|[H|[H|[]]]]]; inversion H; subst; (split; [lia|]).
    - apply Uint8_enough. exact Hr.
    - apply unsigned_enough; [lia | exact Hr].
    - apply unsigned_enough; [lia | exact Hr].
    - apply unsigned_enough; [lia | exact Hr]. }
  rewrite E, order_positional. split; [reflexivity|].
  pose proof (order_range (Endianess r) (window (Z.to_nat w) r)) as Hv.
  rewrite order_positional, (window_length _ r Hr) in Hv. fold v in Hv.
  replace (2 ^ (8 * w)) with (256 ^ Z.of_nat (Z.to_nat w)); [exact Hv|].
  rewrite Z2Nat.id by lia. change 256 with (2 ^ 8). rewrite <- Z.pow_mul_r by lia.
  reflexivity.
Qed.

Lemma unsigned_reads_witness :
  Uint16 (mkReader (mkSource sample.abc0xxxx 1) BigEndian []) =
  (Ok (99 + 256 * (98 + 256 * 0)),
   consumed 2 (mkReader (mkSource sample.abc0xxxx 1) BigEndian [])).
Proof.
  refine (proj1 (unsigned_reads (mkReader (mkSource sample.abc0xxxx 1) BigEndian [])
                   2 Uint16 _ _)).
  - right. left. reflexivity.
  - vm_compute. lia.
Defined.

Lemma to_signed_twos w u :
  0 < w -> 0 <= u < 2 ^ w ->
  goint.to_signed w u = twos w u /\ - 2 ^ (w - 1) <= twos w u < 2 ^ (w - 1).
Proof.
  intros Hw Hu. unfold goint.to_signed, twos.
  assert (2 ^ w = 2 * 2 ^ (w - 1)) as E
    by (rewrite <- Z.pow_succ_r by lia; f_equal; lia).
  assert (0 < 2 ^ (w - 1)) by (apply Z.pow_pos_nonneg; lia).
  destruct (Z.ltb_spec u (2 ^ (w - 1))).
  - rewrite Z.mod_small by lia. lia.
  - replace (u + 2 ^ (w - 1)) with (u - 2 ^ (w - 1) + 1 * 2 ^ w) by lia.
    rewrite Z.mod_add by lia. rewrite Z.mod_small by lia. lia.
Qed.

Lemma to_unsigned_to_signed w u :
  0 < w -> 0 <= u < 2 ^ w -> goint.to_unsigned w (goint.to_signed w u) = u.
Proof.
  intros Hw Hu. destruct (to_signed_twos w u Hw Hu) as [-> _].
  unfold goint.to_unsigned, twos.
  assert (0 < 2 ^ w) by (apply Z.pow_pos_nonneg; lia).
  destruct (Z.ltb_spec u (2 ^ (w - 1))).
  - apply Z.mod_small. lia.
  - replace (u - 2 ^ w) with (u + (-1) * 2 ^ w) by lia.
    rewrite Z.mod_add by lia. apply Z.mod_small. lia.
Qed.

Lemma unsigned_range w r u r' :
  unsigned w r = (Ok u, r') -> 0 <= u < 2 ^ (8 * w).
Proof.
  unfold unsigned. intros H. apply bind_inv in H. destruct H as (bs & r1 & H1 & H).
  inversion H; subst. apply Read_inv in H1. destruct H1 as (Hw & Hl & _).
  pose proof (order_range (Endianess r') bs) as Hr. rewrite Hl in Hr.
  change 256 with (2 ^ 8) in Hr. rewrite <- Z.pow_mul_r in Hr by lia. exact Hr.
Qed.

(** A signed read over an unsigned one. *)
Lemma signed_over w (U : M Z) r :
  0 < w ->
  (forall u r', U r = (Ok u, r') -> 0 <= u < 2 ^ w) ->
  match U r with
  | (Ok u, r') =>
      (d <- U ;; ret (goint.to_signed w d)) r = (Ok (twos w u), r') /\
      - 2 ^ (w - 1) <= twos w u < 2 ^ (w - 1)
  | (Err e, r') => (d <- U ;; ret (goint.to_signed w d)) r = (Err e, r')
  | (Panic msg, r') => (d <- U ;; ret (goint.to_signed w d)) r = (Panic msg, r')
  end.
Proof.
  intros Hw Hu. unfold bind. destruct (U r) as [[u|e|msg] r'] eqn:E; try reflexivity.
  destruct (to_signed_twos w u Hw (Hu u r' eq_refl)) as [-> Hr].
  split; [reflexivity | exact Hr].
Qed.

(** X6. [Int8], [Int16], [Int32] and [Int64] read what the unsigned read
    of their width reads and fail as it fails; the value is the two's
    complement reading of the unsigned one, [u] below [2 ^ (bits - 1)] and
    [u - 2 ^ bits] from there on, within the range of the type. *)
Theorem signed_reads r w I U :
  In (w, I, U) [(1, Int8, Uint8); (2, Int16, Uint16);
                (4, Int32, Uint32); (8, Int64, Uint64)] ->
  match U r with
  | (Ok u, r') =>
      I r = (Ok (twos (8 * w) u), r') /\
      - 2 ^ (8 * w - 1) <= twos (8 * w) u < 2 ^ (8 * w - 1)
  | (Err e, r') => I r = (Err e, r')
  | (Panic msg, r') => I r = (Panic msg, r')
  end.
Proof.
  intros Hin. simpl in Hin.
  destruct Hin as [H|[H|[H|[H|[]]]]]; inversion H; subst; clear H.
  - unfold Int8, Uint8, bind. destruct (Read 1 r) as [[bs|e|msg] r'];
      try reflexivity. unfold ret.
    destruct (to_signed_twos 8 (byteZ (nth 0 bs x00)) ltac:(lia)
                (byteZ_range _)) as [-> Hr].
    split; [reflexivity | exact Hr].
  - apply (signed_over 16 Uint16 r); [lia|]. apply unsigned_range.
  - apply (signed_over 32 Uint32 r); [lia|]. apply unsigned_range.
  - apply (signed_over 64 Uint64 r); [lia|]. apply unsigned_range.
Qed.

Lemma signed_reads_witness :
  Int16 (sample.NewReader [xff; xff; x00]) =
  (Ok (-1), consumed 2 (sample.NewReader [xff; xff; x00])).
Proof.
  exact (proj1 (signed_reads (sample.NewReader [xff; xff; x00]) 2 Int16 Uint16
                  (or_intror (or_introl eq_refl)))).
Defined.

(** X7. [Float32] and [Float64] keep the bits they read: the bit pattern
    of the number returned is the unsigned integer the same bytes write,
    and the calls fail as the unsigned reads do. *)
Theorem float_reads r : Float32 r = Uint32 r /\ Float64 r = Uint64 r.
Proof.
  split.
  - unfold Float32, Int32. pose proof (unsigned_range 4 r) as Hu.
    fold Uint32 in Hu. unfold bind in *.
    destruct (Uint32 r) as [[u|e|msg] r']; try reflexivity.
    unfold ret. rewrite to_unsigned_to_signed; [reflexivity | lia | apply (Hu u r' eq_refl)].
  - unfold Float64, Int64. pose proof (unsigned_range 8 r) as Hu.
    fold Uint64 in Hu. unfold bind in *.
    destruct (Uint64 r) as [[u|e|msg] r']; try reflexivity.
    unfold ret. rewrite to_unsigned_to_signed; [reflexivity | lia | apply (Hu u r' eq_refl)].
Qed.

(** ** Values of fixed width *)

Lemma order_window_range w r :
  0 < w -> (Z.to_nat w <= remaining (Reader r))%nat ->
  0 <= order (Endianess r) (window (Z.to_nat w) r) < 2 ^ (8 * w).
Proof.
  intros Hw Hr. exact (unsigned_range w r _ _ (unsigned_enough w r Hw Hr)).
Qed.

Lemma Int8_enough r :
  (1 <= remaining (Reader r))%nat ->
  Int8 r = (Ok (twos 8 (order (Endianess r) (window 1 r))), consumed 1 r).
Proof.
  intros Hr. pose proof (Uint8_enough r Hr) as E.
  unfold Int8, Uint8, bind in *. destruct (Read 1 r) as [[bs|e|msg] r1];
    try discriminate E.
  unfold ret in *. inversion E as [[Ev Er]]. rewrite Ev.
  pose proof (order_window_range 1 r ltac:(lia) Hr) as Hrange.
  change (Z.to_nat 1) with 1%nat in Hrange.
  rewrite (proj1 (to_signed_twos 8 _ ltac:(lia) Hrange)).
  reflexivity.
Qed.

(** A read that finds fewer bytes than it asks for. *)
Lemma Read_starved size r :
  Z.of_nat (remaining (Reader r)) < size <= 8 ->
  Read size r = starved (Z.to_nat size) r.
Proof.
  intros H. unfold starved.
  assert (fits size (Reader r) = true) as Hf by (apply fits_modest; lia).
  destruct (Nat.eqb_spec (remaining (Reader r)) 0).
  - apply Read_at_end; [lia | exact Hf | assumption].
  - apply Read_short; [lia | lia | exact Hf].
Qed.

Lemma starved_bind {A B} (m : M A) (k : A -> M B) len r :
  m r = starved len r -> (x <- m ;; k x) r = starved len r.
Proof.
  unfold bind, starved. intros ->.
  destruct (remaining (Reader r) =? 0)%nat; reflexivity.
Qed.

Lemma kindSwitch_scalar ms nm k v r :
  fixedWidth k = true ->
  (Z.to_nat (reflect.KindSize k) <= remaining (Reader r))%nat ->
  kindSwitch ms (reflect.mkType nm (reflect.Basic k)) v r =
  (Ok (scalarValue k (positional (lowestFirst (Endianess r)
                        (window (Z.to_nat (reflect.KindSize k)) r)))),
   consumed (Z.to_nat (reflect.KindSize k)) r).
Proof.
  intros Hk Hr. rewrite <- order_positional.
  destruct k; try discriminate Hk;
    cbn [kindSwitch reflect.KindSize scalarValue] in *;
    unfold Float64, Float32, Int64, Int32, Int16, Uint64, Uint32, Uint16, bind;
    first
      [ rewrite (Uint8_enough r Hr); reflexivity
      | rewrite (Int8_enough r Hr); reflexivity
      | match goal with
        | |- context [unsigned ?w r] =>
            pose proof (order_window_range w r ltac:(lia) Hr) as Hrange;
            rewrite (unsigned_enough w r ltac:(lia) Hr)
        end;
        unfold ret;
        first
          [ reflexivity
          | rewrite to_unsigned_to_signed; [reflexivity | lia | exact Hrange]
          | match goal with
            | |- context [goint.to_signed ?b ?u] =>
                rewrite (proj1 (to_signed_twos b u ltac:(lia) Hrange))
            end;
            reflexivity ] ].
Qed.

Lemma kindSwitch_starved ms nm k v r :
  fixedWidth k = true ->
  Z.of_nat (remaining (Reader r)) < reflect.KindSize k ->
  kindSwitch ms (reflect.mkType nm (reflect.Basic k)) v r =
  starved (Z.to_nat (reflect.KindSize k)) r.
Proof.
  intros Hk Hr.
  destruct k; try discriminate Hk;
    cbn [kindSwitch reflect.KindSize] in *;
    unfold Float64, Float32, Int64, Int32, Int16, Int8,
      Uint64, Uint32, Uint16, Uint8, unsigned;
    repeat (first [apply Read_starved; lia | apply starved_bind]).
Qed.

Lemma readInterface_scalar ms nm k v r :
  let t := reflect.mkType nm (reflect.Basic k) in
  let w := Z.to_nat (reflect.KindSize k) in
  fixedWidth k = true ->
  asReader ms true t = None ->
  asValidateable ms true t = None ->
  ((w <= remaining (Reader r))%nat ->
   readInterface ms (kindSwitch ms t) true t v r =
   (Ok (scalarValue k (positional (lowestFirst (Endianess r) (window w r)))),
    consumed w r)) /\
  ((remaining (Reader r) < w)%nat ->
   readInterface ms (kindSwitch ms t) true t v r = starved w r).
Proof.
  intros t w Hk HR HV.
  assert (0 < reflect.KindSize k) as Hw by (destruct k; try discriminate Hk; simpl; lia).
  unfold readInterface. cbn [negb]. rewrite HR. split; intros Hr.
  - unfold bind. unfold t at 1.
    rewrite (kindSwitch_scalar ms nm k v r Hk Hr). fold t. rewrite HV. reflexivity.
  - apply starved_bind. apply kindSwitch_starved; [exact Hk | unfold w in Hr; lia].
Qed.

(** X8. [ReadInterface] on a pointer to a bool, an integer or a float of
    a type without methods: with as many bytes left as the kind is wide
    it takes exactly these in one read and stores the number they write
    in the byte order of the reader (its two's complement reading for the
    signed kinds, nonzero for bool, the bit pattern for a float64 and,
    for a float32, the bit pattern as the conversion to [float64] and
    back leaves it, a signalling NaN made quiet; [int] and [uint] are 8
    bytes wide); with fewer left it fails, with [io.EOF] at the end of
    the source and with the short read error before it. *)
Theorem scalar_decode ms nm k v r :
  let t := reflect.mkType nm (reflect.Basic k) in
  let w := Z.to_nat (reflect.KindSize k) in
  fixedWidth k = true ->
  asReader ms true t = None ->
  asValidateable ms true t = None ->
  ((w <= remaining (Reader r))%nat ->
   ReadInterface ms (PointerTo t v) r =
   (Ok (scalarValue k (positional (lowestFirst (Endianess r) (window w r)))),
    consumed w r)) /\
  ((remaining (Reader r) < w)%nat ->
   ReadInterface ms (PointerTo t v) r = starved w r).
Proof.
  intros t w Hk HR HV. unfold ReadInterface. cbn [typeOf isPointer valueOf].
  exact (readInterface_scalar ms nm k v r Hk HR HV).
Qed.

Lemma scalar_decode_witness :
  ReadInterface sample.none
    (PointerTo (reflect.basic reflect.Int16) (reflect.VInt 0))
    (sample.NewReader [xfe; xff; x07]) =
  (Ok (reflect.VInt (-2)), consumed 2 (sample.NewReader [xfe; xff; x07])).
Proof.
  exact (proj1 (scalar_decode sample.none None reflect.Int16 (reflect.VInt 0)
                  (sample.NewReader [xfe; xff; x07])
                  eq_refl eq_refl eq_refl)
               ltac:(vm_compute; lia)).
Defined.

(** ** Strings up to a null byte *)

Lemma unread_remaining r : length (unread r) = remaining (Reader r).
Proof. unfold unread, remaining. apply length_drop. Qed.

Lemma unread_consumed n r : unread (consumed n r) = drop n (unread r).
Proof. unfold unread, consumed. simpl. rewrite drop_drop. reflexivity. Qed.

Lemma Zbyte_byteZ b : Zbyte (byteZ b) = b.
Proof.
  unfold Zbyte, byteZ. rewrite N2Z.id, Byte.of_to_N. reflexivity.
Qed.

Lemma byteZ_null b : byteZ b = 0 -> b = x00.
Proof.
  intros E. rewrite <- (Zbyte_byteZ b), E. reflexivity.
Qed.

Lemma Uint8_unread b tl r :
  unread r = b :: tl ->
  Uint8 r = (Ok (byteZ b), consumed 1 r) /\ unread (consumed 1 r) = tl.
Proof.
  intros H. split.
  - assert (1 <= remaining (Reader r))%nat as Hr
      by (rewrite <- unread_remaining, H; simpl; lia).
    unfold Uint8. rewrite (bind_Ok _ _ r _ _ (Read_enough 1 r ltac:(lia) Hr)).
    unfold afterRead, ret. simpl. change (Z.to_nat 1) with 1%nat.
    unfold window. fold (unread r). rewrite H. reflexivity.
  - rewrite unread_consumed, H. reflexivity.
Qed.

Lemma Uint8_at_end r :
  unread r = [] -> Uint8 r = (Err ErrEOF, refused 1 r).
Proof.
  intros H. unfold Uint8, bind.
  rewrite (Read_at_end 1 r ltac:(lia) (fits_modest 1 r ltac:(lia)));
    [reflexivity|].
  rewrite <- unread_remaining, H. reflexivity.
Qed.

Lemma reads_succ k w r : reads (S k) w r = reads k w (consumed w r).
Proof. unfold reads. apply Nat.iter_succ_r. Qed.

(** The rounds of the scan over bytes that are not null. *)
Lemma scan_prefix max : max <= goint.MaxInt ->
  forall pre n i acc r tl,
  unread r = pre ++ tl -> ~ In x00 pre ->
  0 <= i -> i + Z.of_nat (length pre) <= max ->
  scan (length pre + n) i max acc r =
  scan n (i + Z.of_nat (length pre)) max (acc ++ pre) (reads (length pre) 1 r) /\
  unread (reads (length pre) 1 r) = tl.
Proof.
  intros Hmax. induction pre as [|b pre IH]; intros n i acc r tl Hu Hn Hi Hle.
  - simpl. rewrite Z.add_0_r, app_nil_r. split; [reflexivity | exact Hu].
  - cbn [length app] in *. rewrite Nat2Z.inj_succ in *.
    cbn [Nat.add scan].
    destruct (Z.ltb_spec i max); [|lia]. cbn [negb].
    destruct (Uint8_unread b (pre ++ tl) r Hu) as [E Hu'].
    rewrite (bind_Ok _ _ r _ _ E).
    destruct (Z.eqb_spec (byteZ b) 0) as [E0|E0].
    { exfalso. apply Hn. left. apply byteZ_null. exact E0. }
    rewrite Zbyte_byteZ.
    rewrite int_id
      by (unfold goint.in_int, goint.MinInt, goint.MaxInt in *; lia).
    destruct (IH n (i + 1) (acc ++ [b]) (consumed 1 r) tl Hu'
                ltac:(intros Hin; apply Hn; right; exact Hin)
                ltac:(lia) ltac:(lia)) as [IH1 IH2].
    rewrite reads_succ. split; [|exact IH2].
    rewrite IH1, <- app_assoc. f_equal. lia.
Qed.

Lemma scan_round n i max acc r :
  i < max ->
  scan (S n) i max acc r =
  (u <- Uint8 ;;
   if u =? 0 then ret (acc, Some (goint.int (i + 1)))
   else scan n (goint.int (i + 1)) max (acc ++ [Zbyte u])) r.
Proof.
  intros H. cbn [scan]. destruct (Z.ltb_spec i max); [reflexivity | lia].
Qed.

Lemma scan_bound n i max acc r :
  max <= i -> scan n i max acc r = (Ok (acc, None), r).
Proof.
  intros H. destruct n; cbn [scan];
    (destruct (Z.ltb_spec i max); [lia | reflexivity]).
Qed.

(** The three ways the scan of a string ends: at a null byte, at the
    end of the source, and at the bound. *)
Lemma scanString_outcome max r pre tl :
  max <= goint.MaxInt ->
  unread r = pre ++ tl -> ~ In x00 pre ->
  let n := length pre in
  (forall post, tl = x00 :: post -> Z.of_nat n < max ->
     scanString max r = (Ok (pre, Some (Z.of_nat n + 1)), reads (S n) 1 r)) /\
  (tl = [] -> Z.of_nat n < max ->
     scanString max r = (Err ErrEOF, refused 1 (reads n 1 r))) /\
  (Z.of_nat n = Z.max 0 max ->
     scanString max r = (Ok (pre, None), reads n 1 r)).
Proof.
  intros Hmax Hu Hn n.
  assert (remaining (Reader r) = n + length tl)%nat as Hrem
    by (rewrite <- unread_remaining, Hu, length_app; reflexivity).
  unfold scanString. rewrite Hrem.
  replace (S (n + length tl)) with (n + S (length tl))%nat by lia.
  split; [|split].
  - intros post -> Hlt.
    destruct (scan_prefix max Hmax pre (S (S (length post))) 0 [] r (x00 :: post)
                Hu Hn ltac:(lia) ltac:(lia)) as [E Hu'].
    fold n in E, Hu'. cbn [length]. rewrite E, Z.add_0_l, app_nil_l.
    rewrite scan_round by exact Hlt.
    destruct (Uint8_unread x00 post _ Hu') as [E8 _].
    rewrite (bind_Ok _ _ _ _ _ E8). change (byteZ x00 =? 0) with true. cbv iota.
    rewrite int_id
      by (unfold goint.in_int, goint.MinInt, goint.MaxInt in *; lia).
    reflexivity.
  - intros -> Hlt.
    destruct (scan_prefix max Hmax pre 1 0 [] r [] Hu Hn ltac:(lia) ltac:(lia))
      as [E Hu'].
    fold n in E, Hu'. cbn [length]. rewrite E, Z.add_0_l, app_nil_l.
    rewrite scan_round by exact Hlt.
    unfold bind. rewrite (Uint8_at_end _ Hu'). reflexivity.
  - intros Heq. destruct (Z.le_gt_cases max 0) as [Hneg|Hpos].
    + assert (n = 0%nat) as Hz by lia. unfold n in Hz.
      destruct pre; [|discriminate Hz]. apply scan_bound. exact Hneg.
    + destruct (scan_prefix max Hmax pre (S (length tl)) 0 [] r tl
                  Hu Hn ltac:(lia) ltac:(lia)) as [E _].
      fold n in E. rewrite E, Z.add_0_l, app_nil_l. apply scan_bound. lia.
Qed.

(** X9. [ReadInterface] on a pointer to a string of a type without
    methods reads the source byte by byte.  When the bytes left hold a
    null byte within the first [math.MaxInt32], the string is the bytes
    before the first one, and the bytes read are these and the null
    byte, one read each.  When they hold none, all of them are read and
    the call fails with [io.EOF] at the read after the last: a string at
    the end of the source needs its null byte. *)
Theorem string_decode ms nm v r pre tl :
  let t := reflect.mkType nm (reflect.Basic reflect.String) in
  let n := length pre in
  asReader ms true t = None ->
  asValidateable ms true t = None ->
  unread r = pre ++ tl -> ~ In x00 pre ->
  Z.of_nat n < goint.MaxInt32 ->
  (forall post, tl = x00 :: post ->
     ReadInterface ms (PointerTo t v) r =
     (Ok (reflect.VString pre), reads (S n) 1 r)) /\
  (tl = [] ->
     ReadInterface ms (PointerTo t v) r = (Err ErrEOF, refused 1 (reads n 1 r))).
Proof.
  intros t n HR HV Hu Hn Hlt.
  destruct (scanString_outcome goint.MaxInt32 r pre tl
              ltac:(unfold goint.MaxInt32, goint.MaxInt; lia) Hu Hn)
    as (Hnull & Hend & _).
  unfold ReadInterface, readInterface.
  cbn [typeOf isPointer valueOf negb]. rewrite HR, HV.
  unfold t. cbn [kindSwitch]. unfold bind. split.
  - intros post Htl. rewrite (Hnull post Htl Hlt). reflexivity.
  - intros Htl. rewrite (Hend Htl Hlt). reflexivity.
Qed.

Lemma string_decode_witness :
  ReadInterface sample.none
    (PointerTo sample.string_ (reflect.VString []))
    (sample.NewReader sample.abc0xxxx) =
  (Ok (reflect.VString [x61; x62; x63]),
   reads 4 1 (sample.NewReader sample.abc0xxxx)).
Proof.
  refine (proj1 (string_decode sample.none None (reflect.VString [])
                   (sample.NewReader sample.abc0xxxx) [x61; x62; x63]
                   [x00; x78; x78; x78; x78]
                   eq_refl eq_refl eq_refl _ _) _ eq_refl).
  - intros H. simpl in H. repeat destruct H as [H|H]; discriminate || exact H.
  - vm_compute. reflexivity.
Defined.

Lemma bound_evaluate fs vals f2 max r :
  bound fs vals f2 = Some max ->
  (let m := reflect.Get "max" (reflect.Tag f2) in
   if isEmpty m then ret goint.MaxInt32 else evaluate fs vals m) r = (Ok max, r) /\
  max <= goint.MaxInt.
Proof.
  unfold bound, evaluate. cbv zeta.
  destruct (isEmpty (reflect.Get "max" (reflect.Tag f2))).
  - intros H. inversion H. split; [reflexivity|].
    unfold goint.MaxInt32, goint.MaxInt. lia.
  - destruct (expression.Parse (reflect.Get "max" (reflect.Tag f2))) as [root|];
      [|discriminate].
    destruct (expression.Eval fs vals root) as [e|ev] eqn:E; [discriminate|].
    intros H. inversion H; subst. split; [reflexivity|].
    apply Eval_in_int in E. unfold goint.in_int in E. lia.
Qed.

(** X10. A string field without a length (the size is negative) is read
    byte by byte, at most [max] bytes, [math.MaxInt32] without the tag.
    At a null byte the string is the bytes before it and the size
    recorded for the alignment is their number and one; at the end of
    the source the field fails with [io.EOF]; and when [max] bytes were
    read without a null byte, the string is these bytes and the recorded
    size stays the negative one.  A [max] of zero or less reads nothing. *)
Theorem string_field_scan fs RI vals f2 f size r max pre tl :
  let n := length pre in
  reflect.Shape (reflect.Type_ f2) = reflect.Basic reflect.String ->
  reflect.IsExported f2 = true ->
  size < 0 ->
  bound fs vals f2 = Some max ->
  unread r = pre ++ tl -> ~ In x00 pre ->
  (forall post, tl = x00 :: post -> Z.of_nat n < max ->
     valueStep fs RI vals f2 f size r =
     (Ok (reflect.VString pre, Z.of_nat n + 1), reads (S n) 1 r)) /\
  (tl = [] -> Z.of_nat n < max ->
     valueStep fs RI vals f2 f size r = (Err ErrEOF, refused 1 (reads n 1 r))) /\
  (Z.of_nat n = Z.max 0 max ->
     valueStep fs RI vals f2 f size r =
     (Ok (reflect.VString pre, size), reads n 1 r)).
Proof.
  intros n Hs He Hsize Hb Hu Hn.
  destruct (bound_evaluate fs vals f2 max r Hb) as [Em Hmax].
  destruct (scanString_outcome max r pre tl Hmax Hu Hn) as (Hnull & Hend & Hmaxed).
  unfold valueStep. rewrite Hs, He.
  destruct (Z.geb_spec size 0) as [|_]; [lia|].
  cbv zeta in Em. unfold bind. rewrite Em.
  split; [|split].
  - intros post Htl Hlt. rewrite (Hnull post Htl Hlt). reflexivity.
  - intros Htl Hlt. rewrite (Hend Htl Hlt). reflexivity.
  - intros Heq. rewrite (Hmaxed Heq). reflexivity.
Qed.

Lemma string_field_scan_witness :
  let f2 := reflect.mkField "Name" "" sample.string_ [("max", "2")] in
  let r := sample.NewReader sample.abc0xxxx in
  valueStep [f2] (fun _ x => ret x) [reflect.VString []] f2 (reflect.VString [])
    (-1) r =
  (Ok (reflect.VString [x61; x62], -1), reads 2 1 r).
Proof.
  intros f2 r.
  refine (proj2 (proj2 (string_field_scan [f2] (fun _ x => ret x)
                   [reflect.VString []] f2 (reflect.VString []) (-1) r 2
                   [x61; x62] [x63; x00; x78; x78; x78; x78]
                   eq_refl eq_refl ltac:(lia) _ eq_refl _)) _).
  - vm_compute. reflexivity.
  - intros H. simpl in H. repeat destruct H as [H|H]; discriminate || exact H.
  - reflexivity.
Defined.

(** ** Arrays and slices of values of fixed width *)

Lemma reads_Endianess n w r : Endianess (reads n w r) = Endianess r.
Proof. induction n as [|n IH]; [reflexivity | exact IH]. Qed.

Lemma remaining_consumed n r :
  remaining (Reader (consumed n r)) = (remaining (Reader r) - n)%nat.
Proof. unfold remaining, consumed. simpl. lia. Qed.

(** The elements are decoded one after the other, each from the bytes
    that follow the one before. *)
Lemma forEach_scalar ms nm k :
  let elem := reflect.mkType nm (reflect.Basic k) in
  let w := Z.to_nat (reflect.KindSize k) in
  fixedWidth k = true ->
  asReader ms true elem = None ->
  asValidateable ms true elem = None ->
  forall xs r,
  (length xs * w <= remaining (Reader r))%nat ->
  forEach (readInterface ms (kindSwitch ms elem) true elem) xs r =
  (Ok (elements k (Endianess r) w (length xs) (unread r)), reads (length xs) w r).
Proof.
  intros elem w Hk HR HV. induction xs as [|x xs IH]; intros r Hr.
  - reflexivity.
  - change (length (x :: xs)) with (S (length xs)) in Hr.
    rewrite Nat.mul_succ_l in Hr. cbn [forEach length elements].
    destruct (readInterface_scalar ms nm k x r Hk HR HV) as [E _].
    fold elem w in E. rewrite (bind_Ok _ _ r _ _ (E ltac:(lia))).
    rewrite (bind_Ok _ _ _ _ _
               (IH (consumed w r) ltac:(rewrite remaining_consumed; lia))).
    unfold ret. rewrite reads_succ, unread_consumed. reflexivity.
Qed.

(** X11. [ReadInterface] on a pointer to an array, or to a slice that
    already has elements, of bools, integers or floats without methods
    fills the elements in order from consecutive bytes of the source,
    one read of the element's width each, with no padding between them;
    the bytes consumed are the number of elements times the width.  The
    values are those of single destinations of the kind (a float32 with
    a signalling NaN made quiet).  A slice without elements reads
    nothing. *)
Theorem sequence_decode ms nm nm' k sh v r :
  let elem := reflect.mkType nm' (reflect.Basic k) in
  let t := reflect.mkType nm sh in
  let w := Z.to_nat (reflect.KindSize k) in
  let n := length (reflect.Elems v) in
  (sh = reflect.SliceOf elem \/ sh = reflect.ArrayOf n elem) ->
  fixedWidth k = true ->
  asReader ms true t = None -> asValidateable ms true t = None ->
  asReader ms true elem = None -> asValidateable ms true elem = None ->
  (n * w <= remaining (Reader r))%nat ->
  ReadInterface ms (PointerTo t v) r =
  (Ok (reflect.VList (elements k (Endianess r) w n (unread r))), reads n w r) /\
  moved r (reads n w r) = Z.of_nat n * reflect.KindSize k.
Proof.
  intros elem t w n Hsh Hk HR HV HRe HVe Hr. split.
  - unfold ReadInterface, readInterface.
    cbn [typeOf isPointer valueOf negb]. rewrite HR, HV.
    pose proof (forEach_scalar ms nm' k Hk HRe HVe (reflect.Elems v) r Hr) as E.
    destruct Hsh as [Hsh|Hsh]; unfold t; rewrite Hsh; cbn [kindSwitch];
      unfold bind at 1; rewrite (bind_Ok _ _ r _ _ E); reflexivity.
  - assert (0 < reflect.KindSize k) as Hw
      by (destruct k; try discriminate Hk; simpl; lia).
    assert (Z.of_nat w = reflect.KindSize k) as Ew by (unfold w; lia).
    unfold moved. rewrite <- Ew. clearbody w n. clear Hsh Hr Ew.
    revert r. induction n as [|n IH]; intros r; [simpl; lia|].
    rewrite reads_succ. specialize (IH (consumed w r)).
    assert (position (consumed w r) = position r + w)%nat as Ep by reflexivity.
    rewrite Ep in IH. lia.
Qed.

Lemma sequence_decode_witness :
  ReadInterface sample.none
    (PointerTo (reflect.arrayOf 2 sample.uint16)
               (reflect.VList [reflect.VUint 0; reflect.VUint 0]))
    (sample.NewReader sample.abc0xxxx) =
  (Ok (reflect.VList [reflect.VUint 25185; reflect.VUint 99]),
   reads 2 2 (sample.NewReader sample.abc0xxxx)).
Proof.
  exact (proj1 (sequence_decode sample.none None None reflect.Uint16
                  (reflect.ArrayOf 2 sample.uint16)
                  (reflect.VList [reflect.VUint 0; reflect.VUint 0])
                  (sample.NewReader sample.abc0xxxx)
                  (or_intror eq_refl) eq_refl eq_refl eq_refl eq_refl eq_refl
                  ltac:(vm_compute; lia))).
Defined.

(** X12. A slice field of bools, integers or floats (int8 apart) whose
    length resolved to [size >= 0] is made anew with [size] elements,
    which are decoded from consecutive bytes, one read of the element's
    width each, to the values of single destinations of the kind (a
    float32 with a signalling NaN made quiet); the size recorded for the
    alignment is the number of elements, whatever their width. *)
Theorem slice_field_decode ms fs vals f2 f size nm k r :
  let elem := reflect.mkType nm (reflect.Basic k) in
  let w := Z.to_nat (reflect.KindSize k) in
  let n := Z.to_nat size in
  reflect.Shape (reflect.Type_ f2) = reflect.SliceOf elem ->
  reflect.IsExported f2 = true ->
  fixedWidth k = true -> k <> reflect.Int8 ->
  asReader ms true elem = None -> asValidateable ms true elem = None ->
  0 <= size ->
  (n * w <= remaining (Reader r))%nat ->
  valueStep fs (fun t' => readInterface ms (kindSwitch ms t') true t')
    vals f2 f size r =
  (Ok (reflect.VList (elements k (Endianess r) w n (unread r)), size),
   reads n w r).
Proof.
  intros elem w n Hs He Hk Hk8 HR HV Hsize Hr.
  unfold valueStep. rewrite Hs, He.
  destruct (Z.eqb_spec size (-1)); [lia|].
  replace (reflect.Kind_eqb (reflect.KindOf elem) reflect.Int8) with false
    by (destruct k; try reflexivity; congruence).
  destruct (Z.ltb_spec size 0); [lia|].
  pose proof (forEach_scalar ms nm k Hk HR HV
                (replicate n (reflect.Zero elem)) r) as E.
  rewrite length_replicate in E. fold elem in E.
  rewrite (bind_Ok _ _ r _ _ (E Hr)). reflexivity.
Qed.

Lemma slice_field_decode_witness :
  let f2 := reflect.mkField "Data" "" (reflect.sliceOf sample.uint8) [("length", "3")] in
  let r := sample.NewReader sample.abc0xxxx in
  valueStep [f2] (fun t' => readInterface sample.none (kindSwitch sample.none t') true t')
    [reflect.VList []] f2 (reflect.VList []) 3 r =
  (Ok (reflect.VList [reflect.VUint 97; reflect.VUint 98; reflect.VUint 99], 3),
   reads 3 1 r).
Proof.
  intros f2 r.
  exact (slice_field_decode sample.none [f2] [reflect.VList []] f2
           (reflect.VList []) 3 None reflect.Uint8 r
           eq_refl eq_refl eq_refl ltac:(discriminate) eq_refl eq_refl
           ltac:(lia) ltac:(vm_compute; lia)).
Defined.

(** ** Slice fields without a usable length *)

(** X13. A slice field needs a length.  Without a [length] tag (and
    without [if] and [skip] tags) the field fails with "SliceHeader
    require a known length" before anything is read, and so does a
    length that evaluates to -1.  A length below -1 passes that check
    and panics, in [make] for int8 elements and in [reflect.MakeSlice]
    for the others, again with nothing read. *)
Theorem slice_field_length fs RI vals f2 f i elem r :
  reflect.Shape (reflect.Type_ f2) = reflect.SliceOf elem ->
  (valueStep fs RI vals f2 f (-1) r = (Err ErrSliceLength, r)) /\
  (forall size, size < -1 ->
     exists msg, valueStep fs RI vals f2 f size r = (Panic msg, r)) /\
  (reflect.Get "if" (reflect.Tag f2) = "" ->
   reflect.Get "skip" (reflect.Tag f2) = "" ->
   reflect.Get "length" (reflect.Tag f2) = "" ->
   readField fs RI i f2 vals r = (Err ErrSliceLength, r)).
Proof.
  intros Hs. split; [|split].
  - unfold valueStep. rewrite Hs. reflexivity.
  - intros size Hsize. unfold valueStep. rewrite Hs.
    destruct (Z.eqb_spec size (-1)); [lia|].
    destruct (reflect.Kind_eqb (reflect.KindOf elem) reflect.Int8).
    + unfold bind, Read. destruct (Z.ltb_spec size 0); [|lia].
      eexists. reflexivity.
    + destruct (Z.ltb_spec size 0); [|lia]. eexists. reflexivity.
  - intros Hif Hskip Hlen. unfold readField, ifStep, skipStep, lengthStep.
    rewrite Hif, Hskip, Hlen. cbn [isEmpty String.eqb].
    unfold bind at 1. cbn [ret negb]. unfold bind at 1. cbn [ret].
    unfold bind at 1. cbn [ret]. unfold bind at 1.
    unfold valueStep. rewrite Hs. reflexivity.
Qed.

Lemma slice_field_length_witness :
  let f2 := reflect.mkField "Data" "" (reflect.sliceOf sample.uint8) [] in
  let r := sample.NewReader sample.abc0xxxx in
  readField [f2] (onPointer sample.none) 0 f2 [reflect.VList []] r =
  (Err ErrSliceLength, r).
Proof.
  intros f2 r.
  exact (proj2 (proj2 (slice_field_length [f2] (onPointer sample.none)
                         [reflect.VList []] f2 (reflect.VList []) 0
                         sample.uint8 r eq_refl))
               eq_refl eq_refl eq_refl).
Defined.

(** ** Length prefixes *)

Lemma lengthStep_prefix fs vals tag r name w :
  In (name, w) [("uint8", 1); ("uint16", 2); ("uint32", 4); ("uint64", 8)] ->
  reflect.Get "length" tag = name ->
  (Z.to_nat w <= remaining (Reader r))%nat ->
  let u := positional (lowestFirst (Endianess r) (window (Z.to_nat w) r)) in
  lengthStep fs vals tag r = (Ok (twos 64 u), consumed (Z.to_nat w) r) /\
  (w < 8 -> twos 64 u = u) /\
  (w = 8 -> 2 ^ 63 <= u -> twos 64 u < 0).
Proof.
  intros Hin Hget Hr u.
  assert (0 < w <= 8) as Hw
    by (simpl in Hin; destruct Hin as [H|[H|[H|[H|[]]]]]; inversion H; lia).
  pose proof (order_window_range w r ltac:(lia) Hr) as Hrange.
  rewrite order_positional in Hrange. fold u in Hrange.
  assert (2 ^ (8 * w) <= 2 ^ 64) as Hpow by (apply Z.pow_le_mono_r; lia).
  split; [|split].
  - assert (goint.int u = twos 64 u) as Eint
      by (apply (proj1 (to_signed_twos 64 u ltac:(lia) ltac:(lia)))).
    unfold lengthStep. rewrite Hget. rewrite <- Eint. unfold u.
    rewrite <- order_positional.
    simpl in Hin. destruct Hin as [H|[H|[H|[H|[]]]]]; inversion H; subst;
      cbn [isEmpty String.eqb Ascii.eqb Bool.eqb];
      unfold Uint64, Uint32, Uint16.
    + rewrite (bind_Ok _ _ r _ _ (Uint8_enough r Hr)). reflexivity.
    + rewrite (bind_Ok _ _ r _ _ (unsigned_enough 2 r ltac:(lia) Hr)). reflexivity.
    + rewrite (bind_Ok _ _ r _ _ (unsigned_enough 4 r ltac:(lia) Hr)). reflexivity.
    + rewrite (bind_Ok _ _ r _ _ (unsigned_enough 8 r ltac:(lia) Hr)). reflexivity.
  - intros Hlt. unfold twos.
    assert (2 ^ (8 * w) <= 2 ^ 56) by (apply Z.pow_le_mono_r; lia).
    destruct (Z.ltb_spec u (2 ^ (64 - 1))); [reflexivity | lia].
  - intros -> Hbig. unfold twos.
    destruct (Z.ltb_spec u (2 ^ (64 - 1))); lia.
Qed.

(** X14. A [length] tag that names [uint8], [uint16], [uint32] or
    [uint64] is a length prefix: that many bytes are read as an unsigned
    number in the byte order of the reader, and the size is that number
    converted to [int].  For the three narrow widths it is the number
    itself; a [uint64] prefix from [2 ^ 63] on becomes a negative size. *)
Theorem length_prefix fs vals tag r name w :
  In (name, w) [("uint8", 1); ("uint16", 2); ("uint32", 4); ("uint64", 8)] ->
  reflect.Get "length" tag = name ->
  (Z.to_nat w <= remaining (Reader r))%nat ->
  let u := positional (lowestFirst (Endianess r) (window (Z.to_nat w) r)) in
  lengthStep fs vals tag r = (Ok (twos 64 u), consumed (Z.to_nat w) r) /\
  (w < 8 -> twos 64 u = u) /\
  (w = 8 -> 2 ^ 63 <= u -> twos 64 u < 0).
Proof. exact (lengthStep_prefix fs vals tag r name w). Qed.

Lemma length_prefix_witness :
  lengthStep [] [] [("length", "uint16")] (sample.NewReader sample.abc0xxxx) =
  (Ok 25185, consumed 2 (sample.NewReader sample.abc0xxxx)).
Proof.
  exact (proj1 (length_prefix [] [] [("length", "uint16")]
                  (sample.NewReader sample.abc0xxxx) "uint16" 2
                  (or_intror (or_introl eq_refl)) eq_refl
                  ltac:(vm_compute; lia))).
Defined.

(** ** Methods of the types of fields *)

(** X15. A struct field of string kind is decoded by the field loop
    itself: the methods declared for its type play no part, and a custom
    [Read] of a declared string type is not called for a field of that
    type, whatever the tags of the field. *)
Theorem string_field_ignores_methods fs ms ms' i f2 vals r :
  reflect.Shape (reflect.Type_ f2) = reflect.Basic reflect.String ->
  readField fs (onPointer ms) i f2 vals r = readField fs (onPointer ms') i f2 vals r.
Proof.
  intros Hs. unfold readField.
  assert (forall size r1,
    valueStep fs (onPointer ms) vals f2 (nth i vals reflect.VOther) size r1 =
    valueStep fs (onPointer ms') vals f2 (nth i vals reflect.VOther) size r1) as E
    by (intros size r1; unfold valueStep; rewrite Hs; reflexivity).
  unfold bind.
  destruct (ifStep fs vals (reflect.Tag f2) r) as [[[|]|e|msg] r1]; try reflexivity.
  cbn [negb].
  destruct (skipStep fs vals (reflect.Tag f2) r1) as [[[]|e|msg] r2]; try reflexivity.
  destruct (lengthStep fs vals (reflect.Tag f2) r2) as [[size|e|msg] r3];
    try reflexivity.
  rewrite E. reflexivity.
Qed.

Lemma string_field_ignores_methods_witness :
  let f2 := reflect.mkField "Name" "" (reflect.declared "Custom" sample.string_) [] in
  let r := sample.NewReader sample.abc0xxxx in
  readField [f2] (onPointer sample.methods) 0 f2 [reflect.VString []] r =
  readField [f2] (onPointer sample.none) 0 f2 [reflect.VString []] r.
Proof.
  intros f2 r.
  exact (string_field_ignores_methods [f2] sample.methods sample.none 0 f2
           [reflect.VString []] r eq_refl).
Defined.

(** ** Unexported fields *)

(** X16. The value of an unexported field, one that [reflect] gives a
    package path, is never decoded: whatever its type, the length and
    the source, the decoding of the value does not end well.  For a
    field that is neither a string nor a slice the panic comes before
    anything is read. *)
Theorem unexported_field_never_decodes fs RI vals f2 f size r :
  reflect.IsExported f2 = false ->
  (forall res, fst (valueStep fs RI vals f2 f size r) <> Ok res) /\
  (reflect.KindOf (reflect.Type_ f2) <> reflect.String ->
   reflect.KindOf (reflect.Type_ f2) <> reflect.Slice ->
   valueStep fs RI vals f2 f size r = (Panic notExported, r)).
Proof.
  intros He. split.
  - intros res. unfold valueStep. rewrite He.
    destruct (reflect.Type_ f2) as [nm sh]. cbn [reflect.Shape].
    destruct sh as [k|n elem|elem|fs']; try (destruct k); try discriminate.
    + unfold bind at 1.
      match goal with
      | |- context [let (o, r') := ?m r in _] => destruct (m r) as [[x|e|msg] r1]
      end; discriminate.
    + destruct (size =? -1); [discriminate|].
      destruct (reflect.Kind_eqb (reflect.KindOf elem) reflect.Int8).
      * unfold bind. destruct (Read size r) as [[x|e|msg] r1]; discriminate.
      * destruct (size <? 0); [discriminate|].
        unfold bind.
        match goal with
        | |- context [let (o, r') := ?m r in _] => destruct (m r) as [[x|e|msg] r1]
        end; discriminate.
  - intros Hstr Hsl. unfold valueStep. rewrite He.
    destruct (reflect.Type_ f2) as [nm sh]. cbn [reflect.Shape reflect.KindOf] in *.
    destruct sh as [k|n elem|elem|fs']; try (destruct k); try reflexivity;
      exfalso; (apply Hstr; reflexivity) || (apply Hsl; reflexivity).
Qed.

Lemma unexported_field_never_decodes_witness :
  let f2 := reflect.mkField "count" "main" sample.uint8 [] in
  let r := sample.NewReader sample.abc0xxxx in
  valueStep [f2] (onPointer sample.none) [reflect.VUint 0] f2 (reflect.VUint 0) (-1) r =
  (Panic notExported, r).
Proof.
  intros f2 r.
  exact (proj2 (unexported_field_never_decodes [f2] (onPointer sample.none)
                  [reflect.VUint 0] f2 (reflect.VUint 0) (-1) r eq_refl)
               ltac:(discriminate) ltac:(discriminate)).
Defined.

(** ** Validation after the decoding *)



(** ** Structs of plain fields *)

Lemma plain_inv ms f :
  plain ms f = true ->
  exists nm k,
    reflect.Type_ f = reflect.mkType nm (reflect.Basic k) /\
    fixedWidth k = true /\
    scalarKind (reflect.Type_ f) = Some k /\
    reflect.Tag f = [] /\
    reflect.IsExported f = true /\
    asReader ms true (reflect.Type_ f) = None /\
    asValidateable ms true (reflect.Type_ f) = None.
Proof.
  unfold plain, scalarKind.
  destruct (reflect.Tag f); [|discriminate].
  destruct (reflect.Type_ f) as [nm sh]. cbn [reflect.Shape].
  destruct sh as [k|n elem|elem|fs']; try discriminate.
  destruct (fixedWidth k) eqn:Hk; [|discriminate].
  destruct (asReader ms true _); [discriminate|].
  destruct (asValidateable ms true _); [discriminate|].
  intros He. exists nm, k. repeat split; assumption.
Qed.

(** One round of the field loop on a plain field. *)
Lemma readField_plain ms fs i f vals r :
  plain ms f = true ->
  (breadth f <= remaining (Reader r))%nat ->
  readField fs (onPointer ms) i f vals r =
  (Ok (<[i := hd reflect.VOther (packed (Endianess r) [f] (unread r))]> vals),
   consumed (breadth f) r).
Proof.
  intros Hp Hr.
  destruct (plain_inv ms f Hp) as (nm & k & Ht & Hk & Hsk & Htag & He & HR & HV).
  unfold readField, ifStep, skipStep, lengthStep, alignStep.
  rewrite Htag. cbn [reflect.Get isEmpty String.eqb].
  unfold bind at 1. cbn [ret negb]. unfold bind at 1. cbn [ret].
  unfold bind at 1. cbn [ret].
  assert (valueStep fs (onPointer ms) vals f (nth i vals reflect.VOther) (-1) r =
          (Ok (scalarValue k (positional (lowestFirst (Endianess r)
                                (window (breadth f) r))),
               goint.int (reflect.Size (reflect.Type_ f))),
           consumed (breadth f) r)) as E.
  { unfold valueStep. rewrite He.
    assert (breadth f = Z.to_nat (reflect.KindSize k)) as Eb
      by (unfold breadth; rewrite Hsk; reflexivity).
    rewrite Eb in *. rewrite Ht in *. cbn [reflect.Shape].
    pose proof (proj1 (readInterface_scalar ms nm k (nth i vals reflect.VOther) r
                         Hk HR HV) Hr) as E.
    unfold onPointer. destruct k; try discriminate Hk;
      rewrite (bind_Ok _ _ r _ _ E); reflexivity. }
  rewrite (bind_Ok _ _ r _ _ E). cbn [fst snd]. unfold bind, ret.
  cbn [packed hd]. rewrite Hsk. reflexivity.
Qed.

Lemma readFields_plain ms fs : forall rest i vals r,
  forallb (plain ms) rest = true ->
  length vals = (i + length rest)%nat ->
  (breadths rest <= remaining (Reader r))%nat ->
  readFields fs (onPointer ms) rest i vals r =
  (Ok (take i vals ++ packed (Endianess r) rest (unread r)), fieldwise rest r).
Proof.
  induction rest as [|f rest IH]; intros i vals r Hp Hl Hr.
  - cbn [readFields packed fieldwise]. rewrite app_nil_r.
    cbn [length] in Hl. rewrite take_ge by lia. reflexivity.
  - cbn [forallb] in Hp. apply andb_prop in Hp. destruct Hp as [Hf Hp].
    cbn [breadths] in Hr. cbn [length] in Hl. cbn [readFields fieldwise].
    rewrite (bind_Ok _ _ r _ _ (readField_plain ms fs i f vals r Hf ltac:(lia))).
    rewrite IH;
      [|exact Hp | rewrite length_insert; lia | rewrite remaining_consumed; lia].
    destruct (plain_inv ms f Hf) as (nm & k & _ & _ & Hsk & _).
    cbn [packed hd]. rewrite Hsk. cbn [hd].
    rewrite unread_consumed.
    change (Endianess (consumed (breadth f) r)) with (Endianess r).
    f_equal. f_equal.
    rewrite (take_S_r _ i (scalarValue k (positional (lowestFirst (Endianess r)
                             (take (breadth f) (unread r))))))
      by (apply list_lookup_insert_eq; lia).
    rewrite take_insert_ge by lia. rewrite <- app_assoc. reflexivity.
Qed.

Lemma fieldwise_moved : forall fs r,
  moved r (fieldwise fs r) = Z.of_nat (breadths fs).
Proof.
  induction fs as [|f fs IH]; intros r.
  - unfold moved. simpl. lia.
  - cbn [fieldwise breadths].
    specialize (IH (consumed (breadth f) r)). unfold moved in *.
    assert (position (consumed (breadth f) r) = position r + breadth f)%nat as Ep
      by reflexivity.
    rewrite Ep in IH. lia.
Qed.

(** X18. A struct whose fields are plain (exported, without tags, bools,
    integers or floats of types without methods) is read packed: each
    field takes one read of the width of its kind, in the order of
    declaration, from the bytes that follow the field before, to the
    value of a single destination of the kind (a float32 with a
    signalling NaN made quiet), and the bytes consumed are the sum of
    these widths: the reader leaves out the padding that the layout of
    the struct in memory has. *)
Theorem packed_struct ms nm fs v r :
  let t := reflect.mkType nm (reflect.StructOf fs) in
  forallb (plain ms) fs = true ->
  length (reflect.Fields v) = length fs ->
  asReader ms true t = None -> asValidateable ms true t = None ->
  (breadths fs <= remaining (Reader r))%nat ->
  ReadInterface ms (PointerTo t v) r =
  (Ok (reflect.VStruct (packed (Endianess r) fs (unread r))), fieldwise fs r) /\
  moved r (fieldwise fs r) = Z.of_nat (breadths fs).
Proof.
  intros t Hp Hl HR HV Hr. split; [|apply fieldwise_moved].
  unfold ReadInterface, readInterface.
  cbn [typeOf isPointer valueOf negb]. rewrite HR, HV.
  unfold t at 1. cbn [kindSwitch].
  pose proof (readFields_plain ms fs fs 0 (reflect.Fields v) r Hp Hl Hr) as E.
  unfold onPointer in E. unfold bind at 1.
  rewrite (bind_Ok _ _ r _ _ E). reflexivity.
Qed.

Lemma packed_struct_witness :
  let fs := [reflect.mkField "Tag" "" sample.uint8 [];
             reflect.mkField "Size" "" sample.uint16 []] in
  let r := sample.NewReader sample.abc0xxxx in
  ReadInterface sample.none
    (PointerTo (reflect.structOf fs)
               (reflect.VStruct [reflect.VUint 0; reflect.VUint 0])) r =
  (Ok (reflect.VStruct [reflect.VUint 97; reflect.VUint 25442]),
   consumed 2 (consumed 1 r)).
Proof.
  intros fs r.
  exact (proj1 (packed_struct sample.none None fs
                  (reflect.VStruct [reflect.VUint 0; reflect.VUint 0]) r
                  eq_refl eq_refl eq_refl eq_refl ltac:(vm_compute; lia))).
Defined.

(** ** Kinds without a case *)

(** X19. The reader decodes no uintptr, complex number, pointer, map,
    channel, function or interface: for a destination of such a kind
    without a custom [Read], [ReadInterface] fails with "Don't know how
    to read type" before anything is read, its [Validate] is not called,
    and an exported struct field of such a type fails the same way. *)
Theorem unknown_kind ms nm k v r :
  let t := reflect.mkType nm (reflect.Basic k) in
  undecodable k = true ->
  asReader ms true t = None ->
  ReadInterface ms (PointerTo t v) r = (Err (ErrUnknownKind k), r) /\
  (forall fs vals f2 f size,
     reflect.Type_ f2 = t ->
     reflect.IsExported f2 = true ->
     valueStep fs (onPointer ms) vals f2 f size r = (Err (ErrUnknownKind k), r)).
Proof.
  intros t Hk HR.
  assert (forall x, onPointer ms t x r = (Err (ErrUnknownKind k), r)) as E.
  { intros x. unfold onPointer, readInterface. rewrite HR. cbn [negb].
    unfold t. destruct k; try discriminate Hk; reflexivity. }
  split.
  - unfold ReadInterface. cbn [typeOf isPointer valueOf]. apply E.
  - intros fs vals f2 f size Ht He. unfold valueStep. rewrite He, Ht.
    unfold t at 1. cbn [reflect.Shape].
    destruct k; try discriminate Hk; unfold bind; fold t; rewrite E; reflexivity.
Qed.

Lemma unknown_kind_witness :
  ReadInterface sample.methods
    (PointerTo (reflect.declared "Checked" (reflect.basic reflect.Complex128))
               reflect.VOther)
    (sample.NewReader sample.abc0xxxx) =
  (Err (ErrUnknownKind reflect.Complex128), sample.NewReader sample.abc0xxxx).
Proof.
  exact (proj1 (unknown_kind sample.methods (Some "Checked") reflect.Complex128
                  reflect.VOther (sample.NewReader sample.abc0xxxx)
                  eq_refl eq_refl)).
Defined.

(** ** Strings behind a length prefix *)

Lemma window_unread n r : window n r = take n (unread r).
Proof. reflexivity. Qed.

(** X30. A string field whose [length] tag names [uint8], [uint16],
    [uint32] or [uint64], without other tags: the prefix is read, then
    as many bytes as it says in one read, and the field is these bytes
    up to their first null byte.  The bytes consumed are the width of
    the prefix and the length it holds; an empty string takes the
    prefix only. *)
Theorem length_prefixed_string fs RI i f2 vals r name w pfx body rest :
  let n := Z.of_nat (length body) in
  In (name, w) [("uint8", 1); ("uint16", 2); ("uint32", 4); ("uint64", 8)] ->
  reflect.Shape (reflect.Type_ f2) = reflect.Basic reflect.String ->
  reflect.IsExported f2 = true ->
  reflect.Get "if" (reflect.Tag f2) = "" ->
  reflect.Get "skip" (reflect.Tag f2) = "" ->
  reflect.Get "length" (reflect.Tag f2) = name ->
  reflect.Get "align" (reflect.Tag f2) = "" ->
  unread r = pfx ++ body ++ rest ->
  length pfx = Z.to_nat w ->
  positional (lowestFirst (Endianess r) pfx) = n ->
  n < 2 ^ 63 ->
  let r' := afterRead n (consumed (Z.to_nat w) r) in
  readField fs RI i f2 vals r =
  (Ok (<[i := reflect.VString (truncate body)]> vals), r') /\
  moved r r' = w + n.
Proof.
  intros n Hin Hs He Hif Hskip Hlen Halign Hu Hp Hv Hn r'.
  assert (0 < w) as Hw
    by (simpl in Hin; destruct Hin as [H|[H|[H|[H|[]]]]]; inversion H; lia).
  assert (window (Z.to_nat w) r = pfx) as Wp
    by (rewrite window_unread, Hu, <- Hp, take_app_length; reflexivity).
  assert (Z.to_nat w <= remaining (Reader r))%nat as Hr.
  { rewrite <- unread_remaining, Hu, length_app. lia. }
  destruct (lengthStep_prefix fs vals (reflect.Tag f2) r name w Hin Hlen Hr)
    as (EL & _ & _).
  rewrite Wp, Hv in EL.
  assert (twos 64 n = n) as Et
    by (unfold twos; destruct (Z.ltb_spec n (2 ^ (64 - 1))); [reflexivity | lia]).
  rewrite Et in EL.
  set (r1 := consumed (Z.to_nat w) r) in *.
  assert (unread r1 = body ++ rest) as Hu1.
  { unfold r1. rewrite unread_consumed, Hu, <- Hp, drop_app_length. reflexivity. }
  assert (Z.to_nat n <= remaining (Reader r1))%nat as Hr1.
  { rewrite <- unread_remaining, Hu1, length_app. unfold n. lia. }
  assert (window (Z.to_nat n) r1 = body) as Wb.
  { rewrite window_unread, Hu1. unfold n. rewrite Nat2Z.id.
    apply take_app_length. }
  split.
  - unfold readField, ifStep, skipStep, alignStep.
    rewrite Hif, Hskip, Halign. cbn [isEmpty String.eqb].
    unfold bind at 1. cbn [ret negb]. unfold bind at 1. cbn [ret].
    rewrite (bind_Ok _ _ r _ _ EL).
    assert (valueStep fs RI vals f2 (nth i vals reflect.VOther) n r1 =
            (Ok (reflect.VString (truncate body), n), r')) as EV.
    { unfold valueStep. rewrite Hs, He.
      destruct (Z.geb_spec n 0) as [_|]; [|lia].
      rewrite (bind_Ok _ _ r1 (truncate body, n) r'); [reflexivity|].
      rewrite (bind_Ok _ _ r1 body r'); [reflexivity|].
      rewrite <- Wb at 1. apply Read_enough; [lia | exact Hr1]. }
    rewrite (bind_Ok _ _ r1 _ _ EV). reflexivity.
  - unfold moved, r'. rewrite afterRead_position by lia.
    unfold r1, position, consumed. simpl. lia.
Qed.

Lemma length_prefixed_string_witness :
  let f2 := reflect.mkField "Name" "" sample.string_ [("length", "uint8")] in
  let r := sample.NewReader [x02; x61; x62; x63] in
  readField [f2] (onPointer sample.none) 0 f2 [reflect.VString []] r =
  (Ok [reflect.VString [x61; x62]], consumed 2 (consumed 1 r)).
Proof.
  intros f2 r.
  exact (proj1 (length_prefixed_string [f2] (onPointer sample.none) 0 f2
                  [reflect.VString []] r "uint8" 1 [x02] [x61; x62] [x63]
                  (or_introl eq_refl) eq_refl eq_refl eq_refl eq_refl eq_refl
                  eq_refl eq_refl eq_refl eq_refl ltac:(vm_compute; reflexivity))).
Defined.

End binary_facts.

(** * Properties of the search tree *)

Module container_facts.
Import container.

(** ** The vocabulary of the statements *)

(** The values a walk of the subtree behind a pointer sends. *)
Definition walk {A} (c : option (Node A)) : list A :=
  match c with Some n => Walk n | None => [] end.

(** The value a node sends in a walk, if it has one. *)
Definition sent {A} (d : option A) : list A :=
  match d with Some x => [x] | None => [] end.

(** A comparison that answers [Less], [Equal] or [Greater] only. *)
Definition answers {A} (cmp : Compare A) : Prop :=
  forall a b, cmp a b = Less \/ cmp a b = Equal \/ cmp a b = Greater.

(** A comparison that orders its arguments: equal values compare alike,
    [Greater] is [Less] the other way round, and [Less] is transitive. *)
Record Order {A} (cmp : Compare A) : Prop := mkOrder {
  order_answers : answers cmp;
  order_refl : forall a, cmp a a = Equal;
  order_equal : forall a b x, cmp a b = Equal -> cmp x a = cmp x b;
  order_flip : forall a b, cmp a b = Greater <-> cmp b a = Less;
  order_trans : forall a b c, cmp a b = Less -> cmp b c = Less -> cmp a c = Less
}.

(** The sample comparison of integers. *)
Definition compareZ : Compare Z := fun a b =>
  if a <? b then Less else if a =? b then Equal else Greater.

(** The values of a list that are below and above [data]. *)
Definition below {A} (cmp : Compare A) (data : A) (l : list A) : list A :=
  List.filter (fun x => cmp x data =? Less) l.
Definition above {A} (cmp : Compare A) (data : A) (l : list A) : list A :=
  List.filter (fun x => cmp x data =? Greater) l.

(** A search tree: every node has data, with the smaller values in its
    first child and the greater ones in its second; or the tree is the
    empty root. *)
Fixpoint ordered {A} (cmp : Compare A) (n : Node A) : bool :=
  match n with
  | mkNode (Some d) c0 c1 =>
      forallb (fun x => cmp x d =? Less)
        (match c0 with Some l => Walk l | None => [] end)
      && forallb (fun y => cmp y d =? Greater)
           (match c1 with Some r => Walk r | None => [] end)
      && (match c0 with Some l => ordered cmp l | None => true end)
      && (match c1 with Some r => ordered cmp r | None => true end)
  | mkNode None _ _ => false
  end.

Definition searchTree {A} (cmp : Compare A) (root : Node A) : bool :=
  match root with
  | mkNode None None None => true
  | _ => ordered cmp root
  end.

(** The node with [data] put in its place below it. *)
Fixpoint insert {A} (cmp : Compare A) (data : A) (n : Node A) : Node A :=
  match n with
  | mkNode None c0 c1 => mkNode (Some data) c0 c1
  | mkNode (Some x) c0 c1 =>
      if cmp data x =? Equal then mkNode (Some data) c0 c1
      else if cmp data x =? Less then
        mkNode (Some x)
          (Some (match c0 with
                 | Some l => insert cmp data l
                 | None => mkNode (Some data) None None
                 end)) c1
      else
        mkNode (Some x) c0
          (Some (match c1 with
                 | Some r => insert cmp data r
                 | None => mkNode (Some data) None None
                 end))
  end.

(** What [Add] does with the result of [Find]: the new root. *)
Definition place {A} (data : A) (root : Node A)
    (res : Z * option (pointer) * option (pointer)) : result (Node A) :=
  match res with
  | (child, p, n) =>
      match n with
      | Some np =>
          match load np root with
          | Some node => Done (assign np (Some (setData (Some data) node)) root)
          | None => Panic PNilDereference
          end
      | None =>
          match p with
          | Some pp =>
              match load pp root with
              | Some pn =>
                  match Data pn with
                  | Some _ =>
                      Done (assign pp
                              (Some (setChild child
                                       (Some (mkNode (Some data) None None)) pn))
                              root)
                  | None => Panic (PString "Both parent and child was null")
                  end
              | None => Panic PNilDereference
              end
          | None => Panic PNilDereference
          end
      end
  end.

(** The index an element of an array came from when the element at
    [index] was removed: the elements behind it moved down by one, and
    the last one stayed where it was. *)
Definition origin (len index j : Z) : Z :=
  if j <? index then j else if j <? len - 1 then j + 1 else j.

(** An array whose methods do not panic within its bounds. *)
Definition safeWithin (T : Type) `{Array T} : Prop :=
  forall (a : T) index,
    (0 <= index <= Len a -> forall data, exists out, Insert a index data = Done out) /\
    (0 <= index < Len a -> exists out, Remove a index = Done out) /\
    (0 <= index < Len a -> exists x, Get a index = Done x).

(** ** Pointers *)

Section Facts.

Context {A : Type}.
Implicit Types (n root : Node A) (cmp : Compare A) (data : A).

Lemma Node_induction (P : Node A -> Prop) :
  (forall d c0 c1,
     match c0 with Some l => P l | None => True end ->
     match c1 with Some r => P r | None => True end ->
     P (mkNode d c0 c1)) ->
  forall n, P n.
Proof.
  intros H. fix IH 1. intros [d c0 c1]. apply H.
  - destruct c0 as [l|]; [apply IH | exact I].
  - destruct c1 as [r|]; [apply IH | exact I].
Qed.

Lemma Add_place (t : Tree A) data :
  Add t data =
  match Find (Root t) data (TreeCompare t) with
  | Done res =>
      match place data (Root t) res with
      | Done root' => Done (mkTree (TreeCompare t) root')
      | Panic v => Panic v
      end
  | Panic v => Panic v
  end.
Proof.
  unfold Add, place. destruct (Find (Root t) data (TreeCompare t)) as [[[child p] n]|v];
    [|reflexivity].
  destruct n as [np|].
  - destruct (load np (Root t)); reflexivity.
  - destruct p as [pp|]; [|reflexivity].
    destruct (load pp (Root t)) as [pn|]; [|reflexivity].
    destruct (Data pn); reflexivity.
Qed.

Lemma store_app p q slot root m :
  load p root = Some m ->
  store (p ++ q) slot (Some root) = store p (store q slot (Some m)) (Some root).
Proof.
  revert root. induction p as [|i p IH]; intros root H.
  - simpl in *. inversion H. reflexivity.
  - cbn [load] in H. cbn [app store]. destruct root as [d c0 c1].
    cbn [Children] in H. destruct (i =? 0).
    + destruct c0 as [l|]; [|discriminate]. rewrite (IH l H). reflexivity.
    + destruct c1 as [r|]; [|discriminate]. rewrite (IH r H). reflexivity.
Qed.

Lemma store_some p n' root m :
  load p root = Some m -> exists root', store p (Some n') (Some root) = Some root'.
Proof.
  revert root. induction p as [|i p IH]; intros root H.
  - eexists. reflexivity.
  - cbn [store]. destruct root as [d c0 c1]. eexists. reflexivity.
Qed.

Lemma assign_child here i slot root d c0 c1 :
  load here root = Some (mkNode d c0 c1) ->
  assign (here ++ [i]) slot root =
  assign here (Some (setChild i slot (mkNode d c0 c1))) root.
Proof.
  intros H. unfold assign. rewrite (store_app here [i] slot root _ H).
  cbn [store setChild]. destruct (i =? 0); reflexivity.
Qed.

Lemma load_child here i root m :
  load here root = Some m -> load (here ++ [i]) root = Children m i.
Proof.
  revert root. induction here as [|j p IH]; intros root H.
  - simpl in *. inversion H. destruct (Children m i); reflexivity.
  - cbn [app load] in *. destruct (Children root j) as [c|]; [|discriminate].
    apply IH. exact H.
Qed.

(** ** Add *)

(** What [Add] makes of the result of [find] is the node, at its place,
    with the data put below it; [find] panics on no other ground than an
    answer of the comparison outside the three. *)
Lemma find_place cmp data : forall n child parent here root,
  load here root = Some n ->
  (exists res,
     find n data cmp child parent here = Done res /\
     place data root res = Done (assign here (Some (insert cmp data n)) root)) \/
  (exists x,
     find n data cmp child parent here = Panic (PResult (cmp data x)) /\
     In x (Walk n) /\
     cmp data x <> Less /\ cmp data x <> Equal /\ cmp data x <> Greater).
Proof.
  induction n as [d c0 c1 IH0 IH1] using Node_induction.
  intros child parent here root Hload.
  destruct d as [x|].
  - cbn [find insert Walk].
    destruct (Z.eqb_spec (cmp data x) Equal) as [E|E].
    { left. eexists. split; [reflexivity|]. unfold place. rewrite Hload. reflexivity. }
    destruct (Z.eqb_spec (cmp data x) Less) as [L|L].
    { destruct c0 as [l|].
      - destruct (IH0 0 (Some here) (here ++ [0]) root)
          as [(res & E1 & E2)|(y & E1 & Hy & Hc)].
        { rewrite (load_child here 0 root _ Hload). reflexivity. }
        + left. exists res. split; [exact E1|]. rewrite E2.
          rewrite (assign_child here 0 _ root _ _ _ Hload). reflexivity.
        + right. exists y. split; [exact E1|]. split; [|exact Hc].
          apply in_or_app. left. exact Hy.
      - left. eexists. split; [reflexivity|]. unfold place. rewrite Hload.
        reflexivity. }
    destruct (Z.eqb_spec (cmp data x) Greater) as [G|G].
    { destruct c1 as [r|].
      - destruct (IH1 1 (Some here) (here ++ [1]) root)
          as [(res & E1 & E2)|(y & E1 & Hy & Hc)].
        { rewrite (load_child here 1 root _ Hload). reflexivity. }
        + left. exists res. split; [exact E1|]. rewrite E2.
          rewrite (assign_child here 1 _ root _ _ _ Hload). reflexivity.
        + right. exists y. split; [exact E1|]. split; [|exact Hc].
          apply in_or_app. right. right. exact Hy.
      - left. eexists. split; [reflexivity|]. unfold place. rewrite Hload.
        reflexivity. }
    right. exists x. split; [reflexivity|]. split; [|auto].
    apply in_or_app. right. left. reflexivity.
  - cbn [find insert]. left. eexists. split; [reflexivity|].
    unfold place. rewrite Hload. reflexivity.
Qed.

Lemma Add_insert (t : Tree A) data :
  answers (TreeCompare t) ->
  Add t data = Done (mkTree (TreeCompare t) (insert (TreeCompare t) data (Root t))).
Proof.
  intros Hcmp. rewrite Add_place. unfold Find.
  destruct (find_place (TreeCompare t) data (Root t) (-1) None [] (Root t) eq_refl)
    as [(res & E1 & E2)|(x & _ & _ & H1 & H2 & H3)].
  - rewrite E1, E2. reflexivity.
  - exfalso. destruct (Hcmp data x) as [H|[H|H]]; congruence.
Qed.

(** X20. [Add] panics on one ground only: an answer of the comparison
    that is none of [Less], [Equal] and [Greater], for the data and a
    value of the tree.  Its own panic, "Both parent and child was null",
    is never raised, and no nil pointer is followed, whatever the tree. *)
Theorem Add_panics_on_comparison_only (t : Tree A) data :
  match Add t data with
  | Done t' => TreeCompare t' = TreeCompare t
  | Panic v =>
      exists x, In x (Walk (Root t)) /\
        v = PResult (TreeCompare t data x) /\
        TreeCompare t data x <> Less /\
        TreeCompare t data x <> Equal /\
        TreeCompare t data x <> Greater
  end.
Proof.
  rewrite Add_place. unfold Find.
  destruct (find_place (TreeCompare t) data (Root t) (-1) None [] (Root t) eq_refl)
    as [(res & E1 & E2)|(x & E1 & Hx & Hc)].
  - rewrite E1, E2. reflexivity.
  - rewrite E1. exists x. auto.
Qed.

(** *** The data put in its place *)

Lemma insert_In cmp data : forall n x,
  In x (Walk (insert cmp data n)) -> x = data \/ In x (Walk n).
Proof.
  induction n as [d c0 c1 IH0 IH1] using Node_induction. intros x.
  destruct d as [y|]; cbn [insert].
  - destruct (cmp data y =? Equal).
    { cbn [Walk]. rewrite !in_app_iff. simpl. intuition. }
    destruct (cmp data y =? Less).
    + cbn [Walk]. rewrite !in_app_iff. intros [H|H]; [|tauto].
      destruct c0 as [l|].
      * apply IH0 in H. tauto.
      * simpl in H. intuition.
    + cbn [Walk]. rewrite !in_app_iff. intros [H|[H|H]]; [tauto|tauto|].
      destruct c1 as [r|].
      * apply IH1 in H. tauto.
      * simpl in H. intuition.
  - cbn [Walk]. rewrite !in_app_iff. simpl. intuition.
Qed.

Section Ordered.

Variable cmp : Compare A.
Hypothesis O : Order cmp.
Variable data : A.

Lemma below_all l :
  forallb (fun x => cmp x data =? Less) l = true -> below cmp data l = l.
Proof.
  unfold below. induction l as [|x l IH]; [reflexivity|]. cbn [forallb List.filter].
  intros H. apply andb_prop in H. destruct H as [-> H]. rewrite IH by exact H.
  reflexivity.
Qed.

Lemma above_all l :
  forallb (fun x => cmp x data =? Greater) l = true -> above cmp data l = l.
Proof.
  unfold above. induction l as [|x l IH]; [reflexivity|]. cbn [forallb List.filter].
  intros H. apply andb_prop in H. destruct H as [-> H]. rewrite IH by exact H.
  reflexivity.
Qed.

Lemma below_none l :
  forallb (fun x => negb (cmp x data =? Less)) l = true -> below cmp data l = [].
Proof.
  unfold below. induction l as [|x l IH]; [reflexivity|]. cbn [forallb List.filter].
  intros H. apply andb_prop in H. destruct H as [Hx H].
  destruct (cmp x data =? Less); [discriminate|]. apply IH. exact H.
Qed.

Lemma above_none l :
  forallb (fun x => negb (cmp x data =? Greater)) l = true -> above cmp data l = [].
Proof.
  unfold above. induction l as [|x l IH]; [reflexivity|]. cbn [forallb List.filter].
  intros H. apply andb_prop in H. destruct H as [Hx H].
  destruct (cmp x data =? Greater); [discriminate|]. apply IH. exact H.
Qed.

Lemma forallb_impl (P Q : A -> bool) l :
  (forall x, P x = true -> Q x = true) ->
  forallb P l = true -> forallb Q l = true.
Proof.
  intros H. rewrite !forallb_forall. intros Hl x Hx. apply H, Hl, Hx.
Qed.

(** The walk of a search tree with the data put in its place. *)
Lemma Walk_insert : forall n,
  ordered cmp n = true ->
  Walk (insert cmp data n) =
  below cmp data (Walk n) ++ data :: above cmp data (Walk n).
Proof.
  induction n as [d c0 c1 IH0 IH1] using Node_induction. intros Ho.
  destruct d as [x|]; [|discriminate Ho]. cbn [ordered] in Ho.
  apply andb_prop in Ho. destruct Ho as [Ho Ho1].
  apply andb_prop in Ho. destruct Ho as [Ho Ho0].
  apply andb_prop in Ho. destruct Ho as [Hl Hr].
  fold (walk c0) in *. fold (walk c1) in *.
  assert (Walk (mkNode (Some x) c0 c1) = walk c0 ++ [x] ++ walk c1) as EW
    by reflexivity.
  rewrite EW. unfold below, above. rewrite !List.filter_app.
  fold (below cmp data (walk c0)) (below cmp data [x]) (below cmp data (walk c1)).
  fold (above cmp data (walk c0)) (above cmp data [x]) (above cmp data (walk c1)).
  cbn [insert].
  destruct (Z.eqb_spec (cmp data x) Equal) as [E|E].
  { (* the data takes the place of an equal value *)
    assert (forall y, cmp y data = cmp y x) as Eq
      by (intros y; apply (order_equal cmp O); exact E).
    assert (cmp x data = Equal) as Ex by (rewrite Eq; apply (order_refl cmp O)).
    rewrite (below_all (walk c0))
      by (eapply forallb_impl; [|exact Hl]; intros y Hy; cbv beta in *;
          rewrite Eq; exact Hy).
    rewrite (above_all (walk c1))
      by (eapply forallb_impl; [|exact Hr]; intros y Hy; cbv beta in *;
          rewrite Eq; exact Hy).
    rewrite (below_none (walk c1))
      by (eapply forallb_impl; [|exact Hr]; intros y Hy; cbv beta in *;
          rewrite Eq; apply Z.eqb_eq in Hy; rewrite Hy; reflexivity).
    rewrite (above_none (walk c0))
      by (eapply forallb_impl; [|exact Hl]; intros y Hy; cbv beta in *;
          rewrite Eq; apply Z.eqb_eq in Hy; rewrite Hy; reflexivity).
    unfold below, above. cbn [List.filter]. rewrite Ex. cbn.
    rewrite app_nil_r. reflexivity. }
  destruct (Z.eqb_spec (cmp data x) Less) as [L|L].
  { (* the data goes below the first child *)
    assert (cmp x data = Greater) as Gx by (apply (order_flip cmp O); exact L).
    assert (forall y, cmp y x = Greater -> cmp y data = Greater) as Tr.
    { intros y Hy. apply (order_flip cmp O).
      apply (order_trans cmp O data x y); [exact L|].
      apply (order_flip cmp O). exact Hy. }
    rewrite (above_all (walk c1))
      by (eapply forallb_impl; [|exact Hr]; intros y Hy; cbv beta in *;
          apply Z.eqb_eq in Hy; rewrite (Tr y Hy); reflexivity).
    rewrite (below_none (walk c1))
      by (eapply forallb_impl; [|exact Hr]; intros y Hy; cbv beta in *;
          apply Z.eqb_eq in Hy; rewrite (Tr y Hy); reflexivity).
    unfold below at 2, above at 2. cbn [List.filter]. rewrite Gx. cbn.
    rewrite app_nil_r. cbn [Walk]. fold (walk c1).
    destruct c0 as [l|].
    - rewrite (IH0 Ho0). cbn [walk]. rewrite <- !app_assoc. reflexivity.
    - reflexivity. }
  (* the data goes below the second child *)
  assert (cmp data x = Greater) as G
    by (destruct (order_answers cmp O data x) as [H|[H|H]]; congruence).
  assert (cmp x data = Less) as Lx by (apply (order_flip cmp O); exact G).
  assert (forall y, cmp y x = Less -> cmp y data = Less) as Tr
    by (intros y Hy; apply (order_trans cmp O y x data); assumption).
  rewrite (below_all (walk c0))
    by (eapply forallb_impl; [|exact Hl]; intros y Hy; cbv beta in *;
        apply Z.eqb_eq in Hy; rewrite (Tr y Hy); reflexivity).
  rewrite (above_none (walk c0))
    by (eapply forallb_impl; [|exact Hl]; intros y Hy; cbv beta in *;
        apply Z.eqb_eq in Hy; rewrite (Tr y Hy); reflexivity).
  unfold below at 1, above at 1. cbn [List.filter]. rewrite Lx. cbn.
  cbn [Walk]. fold (walk c0).
  destruct c1 as [r|].
  - rewrite (IH1 Ho1). cbn [walk]. rewrite <- !app_assoc. reflexivity.
  - rewrite <- !app_assoc. reflexivity.
Qed.

End Ordered.

Lemma ordered_insert cmp data (O : Order cmp) : forall n,
  ordered cmp n = true -> ordered cmp (insert cmp data n) = true.
Proof.
  induction n as [d c0 c1 IH0 IH1] using Node_induction. intros Ho.
  destruct d as [x|]; [|discriminate Ho]. cbn [ordered] in Ho.
  apply andb_prop in Ho. destruct Ho as [Ho Ho1].
  apply andb_prop in Ho. destruct Ho as [Ho Ho0].
  apply andb_prop in Ho. destruct Ho as [Hl Hr].
  cbn [insert].
  destruct (Z.eqb_spec (cmp data x) Equal) as [E|E].
  { assert (forall y, cmp y data = cmp y x) as Eq
      by (intros y; apply (order_equal cmp O); exact E).
    cbn [ordered]. rewrite Ho0, Ho1, !andb_true_r. apply andb_true_intro. split.
    - eapply forallb_impl; [|exact Hl]. intros y Hy. cbv beta in *.
      rewrite Eq. exact Hy.
    - eapply forallb_impl; [|exact Hr]. intros y Hy. cbv beta in *.
      rewrite Eq. exact Hy. }
  destruct (Z.eqb_spec (cmp data x) Less) as [L|L].
  { cbn [ordered]. rewrite Hr, Ho1, !andb_true_r. apply andb_true_intro. split.
    - apply forallb_forall. intros y Hy. destruct c0 as [l|].
      + apply insert_In in Hy. destruct Hy as [->|Hy].
        * apply Z.eqb_eq. exact L.
        * rewrite forallb_forall in Hl. apply Hl. exact Hy.
      + simpl in Hy. destruct Hy as [<-|[]]. apply Z.eqb_eq. exact L.
    - destruct c0 as [l|]; [apply IH0; exact Ho0 | reflexivity]. }
  assert (cmp data x = Greater) as G
    by (destruct (order_answers cmp O data x) as [H|[H|H]]; congruence).
  cbn [ordered]. rewrite Hl, Ho0. cbn [andb]. rewrite andb_true_r.
  apply andb_true_intro. split.
  - apply forallb_forall. intros y Hy. destruct c1 as [r|].
    + apply insert_In in Hy. destruct Hy as [->|Hy].
      * apply Z.eqb_eq. exact G.
      * rewrite forallb_forall in Hr. apply Hr. exact Hy.
    + simpl in Hy. destruct Hy as [<-|[]]. apply Z.eqb_eq. exact G.
  - destruct c1 as [r|]; [apply IH1; exact Ho1 | reflexivity].
Qed.

Lemma insert_Data cmp data n : Data (insert cmp data n) <> None.
Proof.
  destruct n as [[x|] c0 c1]; cbn [insert]; [|discriminate].
  destruct (cmp data x =? Equal); [discriminate|].
  destruct (cmp data x =? Less); discriminate.
Qed.

Lemma searchTree_ordered cmp n :
  Data n <> None -> searchTree cmp n = ordered cmp n.
Proof.
  destruct n as [[x|] c0 c1]; [reflexivity|].
  intros H. exfalso. apply H. reflexivity.
Qed.

(** X21. [Add] on a search tree, with a comparison that orders the
    values: the call ends well, the tree is a search tree again, and a
    walk of it sends the values that were below the data, the data, and
    the values that were above it; a value equal to the data is replaced
    by it. *)
Theorem Add_Walk (t : Tree A) data :
  Order (TreeCompare t) ->
  searchTree (TreeCompare t) (Root t) = true ->
  exists t',
    Add t data = Done t' /\
    TreeCompare t' = TreeCompare t /\
    searchTree (TreeCompare t) (Root t') = true /\
    Walk (Root t') =
    below (TreeCompare t) data (Walk (Root t))
    ++ data :: above (TreeCompare t) data (Walk (Root t)).
Proof.
  intros O Hs. eexists. split; [apply Add_insert; apply (order_answers _ O)|].
  cbn [TreeCompare Root]. split; [reflexivity|].
  rewrite searchTree_ordered by apply insert_Data.
  destruct (Root t) as [[x|] c0 c1] eqn:ER.
  - cbn [searchTree] in Hs. split.
    + apply ordered_insert; assumption.
    + apply Walk_insert; assumption.
  - destruct c0; [discriminate Hs|]. destruct c1; [discriminate Hs|].
    split; reflexivity.
Qed.

(** *** Finding what was added *)

Lemma find_insert cmp data :
  answers cmp -> cmp data data = Equal ->
  forall n child parent here,
  exists c p q node,
    find (insert cmp data n) data cmp child parent here = Done (c, p, Some (here ++ q)) /\
    load q (insert cmp data n) = Some node /\
    Data node = Some data.
Proof.
  intros Hcmp Hrefl.
  assert (forall c0' c1' child parent here,
    find (mkNode (Some data) c0' c1') data cmp child parent here =
    Done (child, parent, Some (here ++ []))) as Efound.
  { intros c0' c1' child parent here. cbn [find].
    rewrite Hrefl, app_nil_r. reflexivity. }
  induction n as [d c0 c1 IH0 IH1] using Node_induction.
  intros child parent here.
  destruct d as [x|]; cbn [insert].
  - destruct (Z.eqb_spec (cmp data x) Equal) as [E|E].
    { exists child, parent, [], (mkNode (Some data) c0 c1).
      split; [apply Efound | split; reflexivity]. }
    destruct (Z.eqb_spec (cmp data x) Less) as [L|L].
    + cbn [find].
      destruct (Z.eqb_spec (cmp data x) Equal); [contradiction|].
      destruct (Z.eqb_spec (cmp data x) Less); [|contradiction].
      destruct c0 as [l|].
      * destruct (IH0 0 (Some here) (here ++ [0])) as (c & p & q & node & E1 & E2 & E3).
        exists c, p, (0 :: q), node. rewrite E1, <- app_assoc.
        split; [reflexivity|]. split; [exact E2 | exact E3].
      * exists 0, (Some here), [0], (mkNode (Some data) None None).
        rewrite Efound, app_nil_r. split; [reflexivity | split; reflexivity].
    + assert (cmp data x = Greater) as G
        by (destruct (Hcmp data x) as [H|[H|H]]; congruence).
      cbn [find].
      destruct (Z.eqb_spec (cmp data x) Equal); [contradiction|].
      destruct (Z.eqb_spec (cmp data x) Less); [contradiction|].
      destruct (Z.eqb_spec (cmp data x) Greater); [|contradiction].
      destruct c1 as [r|].
      * destruct (IH1 1 (Some here) (here ++ [1])) as (c & p & q & node & E1 & E2 & E3).
        exists c, p, (1 :: q), node. rewrite E1, <- app_assoc.
        split; [reflexivity|]. split; [exact E2 | exact E3].
      * exists 1, (Some here), [1], (mkNode (Some data) None None).
        rewrite Efound, app_nil_r. split; [reflexivity | split; reflexivity].
  - exists child, parent, [], (mkNode (Some data) c0 c1).
    split; [apply Efound | split; reflexivity].
Qed.

(** X22. What was added is found: with a comparison that answers
    [Less], [Equal] or [Greater] only and finds every value equal to
    itself, [Add] ends well on any tree, and [Find] for the same data on
    the new root returns a pointer to a node that holds the data. *)
Theorem Add_then_Find (t : Tree A) data :
  answers (TreeCompare t) ->
  TreeCompare t data data = Equal ->
  exists t' child parent np node,
    Add t data = Done t' /\
    Find (Root t') data (TreeCompare t') = Done (child, parent, Some np) /\
    load np (Root t') = Some node /\
    Data node = Some data.
Proof.
  intros Hcmp Hrefl.
  destruct (find_insert (TreeCompare t) data Hcmp Hrefl (Root t) (-1) None [])
    as (c & p & q & node & E1 & E2 & E3).
  eexists. exists c, p, q, node.
  split; [apply Add_insert; exact Hcmp|]. cbn [TreeCompare Root].
  split; [exact E1 | split; [exact E2 | exact E3]].
Qed.

(** ** Delete *)

Lemma Walk_node (d : option A) c0 c1 :
  Walk (mkNode d c0 c1) = walk c0 ++ sent d ++ walk c1.
Proof. reflexivity. Qed.

(** The pointer [find] returns for a node it found leads to a node, and
    the parent it returns is nil for the node the search started at
    only. *)
Lemma find_found cmp data : forall n child parent here c p np,
  find n data cmp child parent here = Done (c, p, Some np) ->
  exists q m,
    np = here ++ q /\ load q n = Some m /\
    ((q = [] /\ p = parent) \/ (q <> [] /\ exists pp, p = Some pp)).
Proof.
  induction n as [d c0 c1 IH0 IH1] using Node_induction.
  intros child parent here c p np H. cbn [find] in H.
  assert (Done (child, parent, Some here) = Done (c, p, Some np) ->
          exists q m, np = here ++ q /\ load q (mkNode d c0 c1) = Some m /\
            ((q = [] /\ p = parent) \/ (q <> [] /\ exists pp, p = Some pp))) as Hhere.
  { intros E. inversion E; subst. exists [], (mkNode d c0 c1).
    rewrite app_nil_r. split; [reflexivity|]. split; [reflexivity|]. left. auto. }
  destruct d as [x|]; [|apply Hhere; exact H].
  destruct (cmp data x =? Equal); [apply Hhere; exact H|].
  destruct (cmp data x =? Less).
  { destruct c0 as [l|]; [|discriminate H].
    destruct (IH0 _ _ _ _ _ _ H) as (q & m & E1 & E2 & E3).
    exists (0 :: q), m. rewrite E1, <- app_assoc.
    split; [reflexivity|]. split; [exact E2|]. right. split; [discriminate|].
    destruct E3 as [[_ ->]|[_ E3]]; [eexists; reflexivity | exact E3]. }
  destruct (cmp data x =? Greater); [|discriminate H].
  destruct c1 as [r|]; [|discriminate H].
  destruct (IH1 _ _ _ _ _ _ H) as (q & m & E1 & E2 & E3).
  exists (1 :: q), m. rewrite E1, <- app_assoc.
  split; [reflexivity|]. split; [exact E2|]. right. split; [discriminate|].
  destruct E3 as [[_ ->]|[_ E3]]; [eexists; reflexivity | exact E3].
Qed.

(** The walk around the subtree behind a pointer does not change when
    the pointer is assigned to. *)
Lemma Walk_store : forall p root m,
  load p root = Some m ->
  exists pre post,
    Walk root = pre ++ Walk m ++ post /\
    forall slot, walk (store p slot (Some root)) = pre ++ walk slot ++ post.
Proof.
  induction p as [|i p IH]; intros root m H.
  - simpl in H. inversion H; subst. exists [], [].
    split; [rewrite app_nil_r; reflexivity|].
    intros slot. cbn [store app]. rewrite app_nil_r. reflexivity.
  - destruct root as [d c0 c1]. cbn [load Children] in H. cbn [store].
    destruct (i =? 0).
    + destruct c0 as [c|]; [|discriminate H].
      destruct (IH c m H) as (pre & post & E1 & E2).
      exists pre, (post ++ sent d ++ walk c1). split.
      * rewrite Walk_node. cbn [walk]. rewrite E1, <- !app_assoc. reflexivity.
      * intros slot. cbn [walk]. rewrite Walk_node, E2, <- !app_assoc. reflexivity.
    + destruct c1 as [c|]; [|discriminate H].
      destruct (IH c m H) as (pre & post & E1 & E2).
      exists (walk c0 ++ sent d ++ pre), post. split.
      * rewrite Walk_node. cbn [walk]. rewrite E1, <- !app_assoc. reflexivity.
      * intros slot. cbn [walk]. rewrite Walk_node, E2, <- !app_assoc. reflexivity.
Qed.

Lemma delete_root n slot : delete n false = Done slot -> slot <> None.
Proof.
  destruct n as [d [[ad al [nac|]]|] [nb|]]; cbn [delete]; intros H;
    try (inversion H; discriminate).
  destruct (delete nac true); inversion H; discriminate.
Qed.

(** What [Delete] makes of a node that was found. *)
Lemma Delete_found (t : Tree A) data child p np :
  Find (Root t) data (TreeCompare t) = Done (child, p, Some np) ->
  exists node pre post,
    load np (Root t) = Some node /\
    Walk (Root t) = pre ++ Walk node ++ post /\
    match delete node (match p with Some _ => true | None => false end) with
    | Done slot =>
        exists t', Delete t data = Done t' /\
                   TreeCompare t' = TreeCompare t /\
                   Walk (Root t') = pre ++ walk slot ++ post
    | Panic v => Delete t data = Panic v
    end.
Proof.
  intros HF. unfold Delete. rewrite HF. unfold Find in HF.
  destruct (find_found _ _ _ _ _ _ _ _ _ HF) as (q & node & E1 & E2 & E3).
  simpl in E1. subst q.
  destruct (Walk_store np (Root t) node E2) as (pre & post & W1 & W2).
  exists node, pre, post. split; [exact E2|]. split; [exact W1|]. rewrite E2.
  destruct (delete node (match p with Some _ => true | None => false end))
    as [slot|v] eqn:ED; [|reflexivity].
  eexists. split; [reflexivity|]. cbn [TreeCompare Root]. split; [reflexivity|].
  specialize (W2 slot). unfold assign.
  destruct (store np slot (Some (Root t))) as [root'|] eqn:ES; [exact W2|].
  (* nil is stored at a slot of a node, never at the root *)
  exfalso. destruct np as [|i np'].
  - cbn [store] in ES. subst slot.
    destruct E3 as [[_ ->]|[Hq _]]; [|congruence].
    apply delete_root in ED. congruence.
  - cbn [store] in ES. destruct (Root t). discriminate ES.
Qed.

(** X23. [Delete] by the node [Find] returns.  Without a node it panics
    with "Unable to find that node".  A node without a first child is
    taken out: the walk loses the value of the node and nothing else
    (the empty root counts as found, and the call changes nothing).  A
    node with two children is replaced by the first child: the walk
    loses the value of the node and the whole second subtree.  A node
    with a first child only, whose own second child is nil, makes the
    call follow a nil pointer. *)
Theorem Delete_cases (t : Tree A) data child p (node : option pointer) :
  Find (Root t) data (TreeCompare t) = Done (child, p, node) ->
  match node with
  | None => Delete t data = Panic (PString "Unable to find that node")
  | Some np =>
      exists d c0 c1 pre post,
        load np (Root t) = Some (mkNode d c0 c1) /\
        Walk (Root t) = pre ++ (walk c0 ++ sent d ++ walk c1) ++ post /\
        match c0, c1 with
        | None, _ =>
            exists t', Delete t data = Done t' /\
                       Walk (Root t') = pre ++ walk c1 ++ post
        | Some a, Some b =>
            exists t', Delete t data = Done t' /\
                       Walk (Root t') = pre ++ Walk a ++ post
        | Some a, None =>
            Children a 1 = None -> Delete t data = Panic PNilDereference
        end
  end.
Proof.
  intros HF. destruct node as [np|]; [|unfold Delete; rewrite HF; reflexivity].
  destruct (Delete_found t data child p np HF) as (m & pre & post & E & W & HD).
  destruct m as [d c0 c1]. exists d, c0, c1, pre, post.
  split; [exact E|]. split; [exact W|].
  destruct c0 as [a|]; [destruct c1 as [b|]|].
  - cbn [delete] in HD. destruct HD as (t' & E1 & _ & E2). exists t'. auto.
  - intros Ha. destruct a as [ad al ac]. cbn [Children] in Ha.
    change (1 =? 0) with false in Ha. cbv iota in Ha. subst ac.
    cbn [delete] in HD. exact HD.
  - destruct c1 as [b|]; cbn [delete] in HD.
    + destruct HD as (t' & E1 & _ & E2). exists t'. auto.
    + destruct p; destruct HD as (t' & E1 & _ & E2); exists t'; auto.
Qed.

(** Nothing is added by [delete]. *)
Lemma delete_In : forall n,
  (forall parent slot x,
     delete n parent = Done slot -> In x (walk slot) -> In x (Walk n)) /\
  match n with
  | mkNode _ _ (Some r) =>
      forall parent slot x,
        delete r parent = Done slot -> In x (walk slot) -> In x (Walk r)
  | _ => True
  end.
Proof.
  induction n as [d c0 c1 IH0 IH1] using Node_induction.
  split; [|destruct c1 as [r|]; [apply IH1 | exact I]].
  intros parent slot x H Hx. rewrite Walk_node.
  destruct c0 as [na|]; [destruct c1 as [nb|]|destruct c1 as [nb|]];
    cbn [delete] in H.
  - inversion H; subst. cbn [walk] in *. apply in_or_app. left. exact Hx.
  - destruct na as [ad al [nac|]]; [|discriminate H].
    destruct IH0 as [_ IHac].
    destruct (delete nac true) as [slot'|] eqn:ED; [|discriminate H].
    inversion H; subst. cbn [walk] in *. rewrite !Walk_node in *.
    cbn [walk sent] in *. rewrite !in_app_iff in *.
    assert (In x (walk slot') -> In x (Walk nac)) as Hsub
      by (apply (IHac true slot' x ED)).
    assert (In x (sent (Data nac)) -> In x (Walk nac)) as Hd.
    { destruct nac as [acd acl acr]. rewrite Walk_node. cbn [Data].
      rewrite !in_app_iff. tauto. }
    rewrite ?Walk_node, ?in_app_iff in Hx. simpl in Hx. tauto.
  - inversion H; subst. cbn [walk] in *. rewrite !in_app_iff. tauto.
  - destruct parent; inversion H; subst; simpl in Hx; tauto.
Qed.

(** X24. [Delete] adds nothing: when the call ends well, every value a
    walk of the tree sends afterwards was sent by a walk before. *)
Theorem Delete_adds_nothing (t t' : Tree A) data x :
  Delete t data = Done t' ->
  In x (Walk (Root t')) -> In x (Walk (Root t)).
Proof.
  intros HD Hx.
  destruct (Find (Root t) data (TreeCompare t)) as [[[child p] [np|]]|v] eqn:HF;
    try (unfold Delete in HD; rewrite HF in HD; discriminate HD).
  destruct (Delete_found t data child p np HF) as (node & pre & post & E & W & H).
  destruct (delete node match p with Some _ => true | None => false end)
    as [slot|v] eqn:ED.
  - destruct H as (t'' & E1 & _ & E2). rewrite E1 in HD. inversion HD; subst t''.
    rewrite E2 in Hx. rewrite W. rewrite !in_app_iff in *.
    destruct Hx as [Hx|[Hx|Hx]]; [tauto| |tauto].
    right. left. exact (proj1 (delete_In node) _ _ _ ED Hx).
  - rewrite H in HD. discriminate HD.
Qed.

End Facts.

(** ** The arrays *)

Lemma copy_shorter {T} (dst src : list T) :
  (length src <= length dst)%nat -> copy dst src = src ++ drop (length src) dst.
Proof. intros H. unfold copy. rewrite take_ge by lia. reflexivity. Qed.

(** The slice [Insert] builds is the model with the data at the index. *)
Lemma nmodel_inserted {T} (zero : T) (l : list T) (i : nat) (x : T) :
  (i <= length l)%nat ->
  nmodel zero l (Z.of_nat i) x = take i l ++ x :: drop i l.
Proof.
  intros Hi. unfold nmodel. rewrite Nat2Z.id.
  rewrite copy_shorter by (rewrite length_take, length_replicate; lia).
  rewrite length_take, drop_replicate.
  replace (i `min` length l)%nat with i by lia.
  replace (length l + 1 - i)%nat with (S (length l - i)) by lia.
  cbn [replicate].
  assert (length (take i l) = i) as Hl by (rewrite length_take; lia).
  rewrite (insert_app_r_alt (take i l)) by lia. rewrite Hl, Nat.sub_diag.
  cbn [insert list_insert].
  replace (i + 1)%nat with (length (take i l) + 1)%nat by lia.
  rewrite take_app_add', drop_app_add' by reflexivity.
  change (take 1 (<[0%nat:=x]> (zero :: replicate (length l - i) zero)))
    with [x].
  change (drop 1 (<[0%nat:=x]> (zero :: replicate (length l - i) zero)))
    with (replicate (length l - i) zero).
  rewrite copy_shorter by (rewrite length_drop, length_replicate; lia).
  rewrite length_drop, drop_replicate, Nat.sub_diag. cbn [replicate].
  rewrite app_nil_r, <- app_assoc. reflexivity.
Qed.

(** The elements after a removal. *)
Lemma removed_nth {T} (l : list T) (i j : nat) (d : T) :
  (i < length l)%nat -> (j < length l)%nat ->
  let l' := take i l ++ copy (drop i l) (drop (i + 1) l) in
  length l' = length l /\
  nth j l' d =
  nth (if (j <? i)%nat then j else if (j <? length l - 1)%nat then S j else j) l d.
Proof.
  intros Hi Hj l'.
  assert (l' = take i l ++ drop (i + 1) l ++ drop (length l - 1) l) as E.
  { unfold l'. rewrite copy_shorter by (rewrite !length_drop; lia).
    rewrite length_drop, drop_drop. repeat f_equal. lia. }
  rewrite E. split.
  - rewrite !length_app, length_take, !length_drop. lia.
  - rewrite !nth_lookup.
    destruct (Nat.ltb_spec j i).
    + rewrite lookup_app_l by (rewrite length_take; lia).
      rewrite lookup_take_lt by lia. reflexivity.
    + rewrite lookup_app_r by (rewrite length_take; lia).
      rewrite length_take. replace (i `min` length l)%nat with i by lia.
      destruct (Nat.ltb_spec j (length l - 1)).
      * rewrite lookup_app_l by (rewrite length_drop; lia).
        rewrite lookup_drop. repeat f_equal. lia.
      * rewrite lookup_app_r by (rewrite length_drop; lia).
        rewrite length_drop, lookup_drop. repeat f_equal. lia.
Qed.

(** X25. [Insert] stores nothing: in [IntArray] and in [BasicArray] the
    slice with the data at the index is built, and the array is left as
    it was.  Whenever [Insert] returns, whatever it returns, the array
    is the same; for an index within the bounds it returns nil. *)
Theorem Insert_stores_nothing :
  (forall (a : IntArray) index data out a',
     Insert a index data = Done (out, a') -> a' = a) /\
  (forall (a : BasicArray) index data out a',
     Insert a index data = Done (out, a') -> a' = a) /\
  (forall (a : IntArray) index ii,
     0 <= index <= Len a ->
     Insert a index (Int ii) = Done (None, a) /\
     nmodel 0 (model a) index ii =
     take (Z.to_nat index) (model a) ++ ii :: drop (Z.to_nat index) (model a)) /\
  (forall (a : BasicArray) index data,
     0 <= index <= Len a ->
     Insert a index data = Done (None, a) /\
     nmodel Nil (items a) index data =
     take (Z.to_nat index) (items a) ++ data :: drop (Z.to_nat index) (items a)).
Proof.
  cbn [Insert Len IntArray_Array BasicArray_Array].
  unfold IntArray_Insert, BasicArray_Insert, IntArray_Len, BasicArray_Len, inBounds.
  split; [|split; [|split]].
  - intros a index data out a' H. destruct data; try (inversion H; reflexivity).
    destruct (_ && _); inversion H. reflexivity.
  - intros a index data out a' H. destruct (_ && _); inversion H. reflexivity.
  - intros a index ii Hi.
    destruct (Z.leb_spec 0 index); [|lia].
    destruct (Z.leb_spec index (Z.of_nat (length (model a)))); [|lia].
    split; [reflexivity|].
    rewrite <- (Z2Nat.id index) at 1 by lia. apply nmodel_inserted. lia.
  - intros a index data Hi.
    destruct (Z.leb_spec 0 index); [|lia].
    destruct (Z.leb_spec index (Z.of_nat (length (items a)))); [|lia].
    split; [reflexivity|].
    rewrite <- (Z2Nat.id index) at 1 by lia. apply nmodel_inserted. lia.
Qed.

Lemma Insert_stores_nothing_witness :
  Insert (mkIntArray [1; 2; 3]) 1 (Int 7) = Done (None, mkIntArray [1; 2; 3]) /\
  nmodel 0 [1; 2; 3] 1 7 = [1; 7; 2; 3].
Proof.
  exact (proj1 (proj2 (proj2 Insert_stores_nothing)) (mkIntArray [1; 2; 3]) 1 7
           ltac:(vm_compute; split; discriminate)).
Defined.

(** X26. [Remove] with an index within the array returns the element
    there and no error, and leaves the length as it was: the elements
    before the index stay, those behind it move down by one, and the
    last element stays in its place, where it now is a second time. *)
Theorem Remove_shifts :
  (forall (a : IntArray) index,
     0 <= index < Len a ->
     exists x a',
       Remove a index = Done (x, None, a') /\
       Get a index = Done x /\
       Len a' = Len a /\
       forall j, 0 <= j < Len a -> Get a' j = Get a (origin (Len a) index j)) /\
  (forall (a : BasicArray) index,
     0 <= index < Len a ->
     exists x a',
       Remove a index = Done (x, None, a') /\
       Get a index = Done x /\
       Len a' = Len a /\
       forall j, 0 <= j < Len a -> Get a' j = Get a (origin (Len a) index j)).
Proof.
  cbn [Remove Get Len IntArray_Array BasicArray_Array].
  unfold IntArray_Remove, BasicArray_Remove, IntArray_Get, BasicArray_Get,
    IntArray_Len, BasicArray_Len, inRange, origin.
  split.
  - intros [l] index Hi. cbn [model] in *.
    destruct (Z.leb_spec 0 index); [|lia].
    destruct (Z.ltb_spec index (Z.of_nat (length l))); [|lia].
    eexists. eexists. split; [reflexivity|]. split; [reflexivity|].
    cbn [model andb].
    split.
    + f_equal. apply (removed_nth l (Z.to_nat index) 0%nat 0); lia.
    + intros j Hj.
      destruct (removed_nth l (Z.to_nat index) (Z.to_nat j) 0 ltac:(lia) ltac:(lia))
        as [El En].
      rewrite El.
      destruct (Z.leb_spec 0 j); [|lia].
      destruct (Z.ltb_spec j (Z.of_nat (length l))); [|lia].
      cbn [andb]. rewrite En.
      destruct (Z.ltb_spec j index), (Nat.ltb_spec (Z.to_nat j) (Z.to_nat index));
        try lia.
      * destruct (Z.leb_spec 0 j); [|lia].
        destruct (Z.ltb_spec j (Z.of_nat (length l))); [|lia]. reflexivity.
      * destruct (Z.ltb_spec j (Z.of_nat (length l) - 1)),
          (Nat.ltb_spec (Z.to_nat j) (length l - 1)); try lia.
        -- destruct (Z.leb_spec 0 (j + 1)); [|lia].
           destruct (Z.ltb_spec (j + 1) (Z.of_nat (length l))); [|lia].
           cbn [andb]. repeat f_equal. lia.
        -- destruct (Z.leb_spec 0 j); [|lia].
           destruct (Z.ltb_spec j (Z.of_nat (length l))); [|lia]. reflexivity.
  - intros [l] index Hi. cbn [items] in *.
    destruct (Z.leb_spec 0 index); [|lia].
    destruct (Z.ltb_spec index (Z.of_nat (length l))); [|lia].
    eexists. eexists. split; [reflexivity|]. split; [reflexivity|].
    cbn [items andb].
    split.
    + f_equal. apply (removed_nth l (Z.to_nat index) 0%nat Nil); lia.
    + intros j Hj.
      destruct (removed_nth l (Z.to_nat index) (Z.to_nat j) Nil ltac:(lia) ltac:(lia))
        as [El En].
      rewrite El.
      destruct (Z.leb_spec 0 j); [|lia].
      destruct (Z.ltb_spec j (Z.of_nat (length l))); [|lia].
      cbn [andb]. rewrite En.
      destruct (Z.ltb_spec j index), (Nat.ltb_spec (Z.to_nat j) (Z.to_nat index));
        try lia.
      * destruct (Z.leb_spec 0 j); [|lia].
        destruct (Z.ltb_spec j (Z.of_nat (length l))); [|lia]. reflexivity.
      * destruct (Z.ltb_spec j (Z.of_nat (length l) - 1)),
          (Nat.ltb_spec (Z.to_nat j) (length l - 1)); try lia.
        -- destruct (Z.leb_spec 0 (j + 1)); [|lia].
           destruct (Z.ltb_spec (j + 1) (Z.of_nat (length l))); [|lia].
           cbn [andb]. repeat f_equal. lia.
        -- destruct (Z.leb_spec 0 j); [|lia].
           destruct (Z.ltb_spec j (Z.of_nat (length l))); [|lia]. reflexivity.
Qed.

Lemma Remove_shifts_witness :
  exists x a',
    Remove (mkIntArray [10; 20; 30]) 0 = Done (x, None, a') /\
    Get (mkIntArray [10; 20; 30]) 0 = Done x /\
    Len a' = 3 /\
    forall j, 0 <= j < 3 ->
      Get a' j = Get (mkIntArray [10; 20; 30]) (origin 3 0 j).
Proof.
  exact (proj1 Remove_shifts (mkIntArray [10; 20; 30]) 0
           ltac:(vm_compute; split; [discriminate | reflexivity])).
Defined.

Lemma IntArray_safeWithin : safeWithin IntArray.
Proof.
  intros a index. cbn [Insert Remove Get Len IntArray_Array].
  unfold IntArray_Insert, IntArray_Remove, IntArray_Get, IntArray_Len,
    inBounds, inRange.
  split; [|split].
  - intros Hi data. destruct (Z.leb_spec 0 index); [|lia].
    destruct (Z.leb_spec index (Z.of_nat (length (model a)))); [|lia].
    destruct data; eexists; reflexivity.
  - intros Hi. destruct (Z.leb_spec 0 index); [|lia].
    destruct (Z.ltb_spec index (Z.of_nat (length (model a)))); [|lia].
    eexists; reflexivity.
  - intros Hi. destruct (Z.leb_spec 0 index); [|lia].
    destruct (Z.ltb_spec index (Z.of_nat (length (model a)))); [|lia].
    eexists; reflexivity.
Qed.

Lemma BasicArray_safeWithin : safeWithin BasicArray.
Proof.
  intros a index. cbn [Insert Remove Get Len BasicArray_Array].
  unfold BasicArray_Insert, BasicArray_Remove, BasicArray_Get, BasicArray_Len,
    inBounds, inRange.
  split; [|split].
  - intros Hi data. destruct (Z.leb_spec 0 index); [|lia].
    destruct (Z.leb_spec index (Z.of_nat (length (items a)))); [|lia].
    eexists; reflexivity.
  - intros Hi. destruct (Z.leb_spec 0 index); [|lia].
    destruct (Z.ltb_spec index (Z.of_nat (length (items a)))); [|lia].
    eexists; reflexivity.
  - intros Hi. destruct (Z.leb_spec 0 index); [|lia].
    destruct (Z.ltb_spec index (Z.of_nat (length (items a)))); [|lia].
    eexists; reflexivity.
Qed.

(** X27. A [BoundsCheckingArray] around an array whose methods do not
    panic within its bounds never panics: for every index, [Insert],
    [Remove] and [Get] return.  Outside the bounds the array is not
    called: [Insert] and [Remove] return "Index is out of bounds" and
    [Get] returns nil, the array being left as it was; the index equal
    to the length is within the bounds of [Insert] only. *)
Theorem BoundsCheckingArray_never_panics {T} `{Array T} :
  safeWithin T ->
  forall (b : BoundsCheckingArray T) index data,
    (exists out, Insert b index data = Done out) /\
    (exists out, Remove b index = Done out) /\
    (exists x, Get b index = Done x) /\
    (~ 0 <= index <= Len b -> Insert b index data = Done (Some ErrIndexOOB, b)) /\
    (~ 0 <= index < Len b ->
     Remove b index = Done (Nil, Some ErrIndexOOB, b) /\ Get b index = Done Nil).
Proof.
  intros Hsafe b index data.
  destruct (Hsafe (embedded b) index) as (HI & HR & HG).
  cbn [Insert Remove Get Len BoundsCheckingArray_Array].
  unfold BoundsCheckingArray_Insert, BoundsCheckingArray_Remove,
    BoundsCheckingArray_Get, BoundsCheckingArray_Len.
  destruct (Z.ltb_spec index 0) as [Hneg|Hpos]; cbn [orb].
  { repeat split; try (eexists; reflexivity). }
  split; [|split; [|split; [|split]]].
  - destruct (Z.gtb_spec index (Len (embedded b))); [eexists; reflexivity|].
    destruct (HI ltac:(lia) data) as [[err a] ->]. eexists. reflexivity.
  - destruct (Z.geb_spec index (Len (embedded b))); [eexists; reflexivity|].
    destruct (HR ltac:(lia)) as [[[old err] a] ->]. eexists. reflexivity.
  - destruct (Z.geb_spec index (Len (embedded b))); [eexists; reflexivity|].
    apply HG. lia.
  - intros Hout. destruct (Z.gtb_spec index (Len (embedded b))); [reflexivity | lia].
  - intros Hout. destruct (Z.geb_spec index (Len (embedded b))); [|lia].
    split; reflexivity.
Qed.

Lemma BoundsCheckingArray_never_panics_witness :
  let b := mkBoundsCheckingArray (mkBasicArray [Int 1; Other "x"]) in
  Get b 2 = Done Nil /\ Remove b (-1) = Done (Nil, Some ErrIndexOOB, b).
Proof.
  intros b.
  destruct (BoundsCheckingArray_never_panics BasicArray_safeWithin b 2 Nil)
    as (_ & _ & _ & _ & H2).
  destruct (BoundsCheckingArray_never_panics BasicArray_safeWithin b (-1) Nil)
    as (_ & _ & _ & _ & H1).
  split.
  - apply H2. vm_compute. intros [_ Hlt]. discriminate Hlt.
  - apply H1. vm_compute. intros [Hle _]. apply Hle. reflexivity.
Defined.

(** ** The sample comparison *)

Lemma compareZ_Order : Order compareZ.
Proof.
  split; unfold answers, compareZ, Less, Equal, Greater.
  - intros a b. destruct (Z.ltb_spec a b); [auto|].
    destruct (Z.eqb_spec a b); auto.
  - intros a. destruct (Z.ltb_spec a a); [lia|].
    destruct (Z.eqb_spec a a); [reflexivity | lia].
  - intros a b x. destruct (Z.ltb_spec a b); [discriminate|].
    destruct (Z.eqb_spec a b); [|discriminate]. intros _. subst. reflexivity.
  - intros a b. destruct (Z.ltb_spec a b), (Z.ltb_spec b a);
      destruct (Z.eqb_spec a b), (Z.eqb_spec b a); split; intros Hc;
      try discriminate; try reflexivity; lia.
  - intros a b c. destruct (Z.ltb_spec a b), (Z.ltb_spec b c), (Z.ltb_spec a c);
      destruct (Z.eqb_spec a b), (Z.eqb_spec b c), (Z.eqb_spec a c);
      intros; try discriminate; try reflexivity; lia.
Qed.

Lemma Add_Walk_witness :
  let t := mkTree compareZ
             (mkNode (Some 5) (Some (mkNode (Some 2) None None))
                              (Some (mkNode (Some 8) None None))) in
  exists t', Add t 6 = Done t' /\ Walk (Root t') = [2; 5; 6; 8].
Proof.
  intros t.
  destruct (Add_Walk t 6 compareZ_Order eq_refl) as (t' & E & _ & _ & W).
  exists t'. split; [exact E | exact W].
Defined.

Lemma Delete_cases_witness :
  let t := mkTree compareZ
             (mkNode (Some 5) (Some (mkNode (Some 2) None None)) None) in
  Delete t 5 = Panic PNilDereference.
Proof.
  intros t.
  destruct (Delete_cases t 5 (-1) None (Some []) eq_refl)
    as (d & c0 & c1 & pre & post & E & _ & H).
  inversion E; subst d c0 c1. exact (H eq_refl).
Defined.

Lemma Delete_adds_nothing_witness :
  let t := mkTree compareZ
             (mkNode (Some 5) None (Some (mkNode (Some 8) None None))) in
  In 8 (Walk (Root t)).
Proof.
  intros t.
  exact (Delete_adds_nothing t (mkTree compareZ (mkNode (Some 8) None None)) 5 8
           eq_refl (or_introl eq_refl)).
Defined.

Lemma Add_then_Find_witness :
  let t := mkTree compareZ (mkNode (Some 5) None None) in
  exists t' child parent np node,
    Add t 7 = Done t' /\
    Find (Root t') 7 (TreeCompare t') = Done (child, parent, Some np) /\
    load np (Root t') = Some node /\ Data node = Some 7.
Proof.
  intros t.
  exact (Add_then_Find t 7 (order_answers _ compareZ_Order) eq_refl).
Defined.

End container_facts.

(** * Properties of the region set *)

Module text_facts.
Import text.

(** A sample region type: the two ends of the region. *)
Definition span : Type := Z * Z.

Section Facts.

Context {Region : Type}.
Variable Begin End_ : Region -> Z.
Variable Empty : Region -> bool.

Lemma Less_at (r : RegionSet Region) i j ri rj :
  at_ r i = Some ri -> at_ r j = Some rj ->
  Less Begin End_ r i j =
  Some ((Begin ri <? Begin rj)
        || ((Begin ri =? Begin rj) && (End_ ri <? End_ rj))).
Proof.
  intros Hi Hj. unfold Less. rewrite Hi, Hj. cbv zeta.
  destruct (Begin ri <? Begin rj); [reflexivity|].
  destruct (Begin ri =? Begin rj); reflexivity.
Qed.

Lemma at_within (r : RegionSet Region) i :
  0 <= i < Len r -> exists ri, at_ r i = Some ri.
Proof.
  intros H. unfold at_.
  destruct (Z.leb_spec 0 i); [|lia]. destruct (Z.ltb_spec i (Len r)); [|lia].
  cbn [andb]. destruct (nth_error (regions r) (Z.to_nat i)) as [ri|] eqn:E.
  - exists ri. reflexivity.
  - apply nth_error_None in E. unfold Len in H. lia.
Qed.

(** X28. [Less] orders the indices of the set by the beginning of their
    regions and, for equal beginnings, by their end.  On indices within
    the set it is a strict weak order, as sorting needs: no index is
    less than itself, [Less] is transitive, of two indices at most one
    is less than the other, and neither is exactly when the regions
    begin and end alike. *)
Theorem Less_orders (r : RegionSet Region) i j k :
  0 <= i < Len r -> 0 <= j < Len r -> 0 <= k < Len r ->
  exists ri rj,
    at_ r i = Some ri /\ at_ r j = Some rj /\
    Less Begin End_ r i i = Some false /\
    (Less Begin End_ r i j = Some true -> Less Begin End_ r j i = Some false) /\
    (Less Begin End_ r i j = Some true -> Less Begin End_ r j k = Some true ->
     Less Begin End_ r i k = Some true) /\
    (Less Begin End_ r i j = Some false /\ Less Begin End_ r j i = Some false ->
     Begin ri = Begin rj /\ End_ ri = End_ rj) /\
    (Begin ri = Begin rj /\ End_ ri = End_ rj ->
     Less Begin End_ r i j = Some false /\ Less Begin End_ r j i = Some false).
Proof.
  intros Hi Hj Hk.
  destruct (at_within r i Hi) as [ri Ei].
  destruct (at_within r j Hj) as [rj Ej].
  destruct (at_within r k Hk) as [rk Ek].
  exists ri, rj. split; [exact Ei|]. split; [exact Ej|].
  rewrite (Less_at r i i ri ri Ei Ei), (Less_at r i j ri rj Ei Ej),
    (Less_at r j i rj ri Ej Ei), (Less_at r j k rj rk Ej Ek),
    (Less_at r i k ri rk Ei Ek).
  split; [|split; [|split; [|split]]].
  - f_equal. rewrite !Z.ltb_irrefl, andb_false_r. reflexivity.
  - intros HL. inversion HL as [H1]. f_equal.
    destruct (Z.ltb_spec (Begin ri) (Begin rj)), (Z.ltb_spec (Begin rj) (Begin ri)),
      (Z.eqb_spec (Begin ri) (Begin rj)), (Z.eqb_spec (Begin rj) (Begin ri)),
      (Z.ltb_spec (End_ ri) (End_ rj)), (Z.ltb_spec (End_ rj) (End_ ri));
      try reflexivity; try discriminate H1; lia.
  - intros HL HL'. inversion HL as [H1]. inversion HL' as [H2]. f_equal.
    destruct (Z.ltb_spec (Begin ri) (Begin rj)), (Z.ltb_spec (Begin rj) (Begin rk)),
      (Z.ltb_spec (Begin ri) (Begin rk)),
      (Z.eqb_spec (Begin ri) (Begin rj)), (Z.eqb_spec (Begin rj) (Begin rk)),
      (Z.eqb_spec (Begin ri) (Begin rk)),
      (Z.ltb_spec (End_ ri) (End_ rj)), (Z.ltb_spec (End_ rj) (End_ rk)),
      (Z.ltb_spec (End_ ri) (End_ rk));
      try reflexivity; try discriminate H1; try discriminate H2; lia.
  - intros [HL HL']. inversion HL as [H1]. inversion HL' as [H2].
    destruct (Z.ltb_spec (Begin ri) (Begin rj)), (Z.ltb_spec (Begin rj) (Begin ri)),
      (Z.eqb_spec (Begin ri) (Begin rj)), (Z.eqb_spec (Begin rj) (Begin ri)),
      (Z.ltb_spec (End_ ri) (End_ rj)), (Z.ltb_spec (End_ rj) (End_ ri));
      try discriminate H1; try discriminate H2; lia.
  - intros [H1 H2]. rewrite H1, H2, !Z.ltb_irrefl, andb_false_r.
    split; reflexivity.
Qed.

(** X29. [HasEmpty] and [HasNonEmpty] are no opposites.  Both are false
    for the set without regions and for it only; [HasEmpty] holds
    exactly when some region of the set is empty and [HasNonEmpty]
    exactly when some region is not, so that both hold for a set with
    regions of the two sorts. *)
Theorem HasEmpty_HasNonEmpty (r : RegionSet Region) :
  (HasEmpty Empty r = false /\ HasNonEmpty Empty r = false <-> regions r = []) /\
  (HasEmpty Empty r = true <-> exists x, In x (regions r) /\ Empty x = true) /\
  (HasNonEmpty Empty r = true <-> exists x, In x (regions r) /\ Empty x = false).
Proof.
  destruct r as [l]. unfold HasEmpty, HasNonEmpty. cbn [regions].
  induction l as [|x l (IH1 & IH2 & IH3)].
  - split; [|split].
    + split; [reflexivity | auto].
    + split; [discriminate | intros (x & [] & _)].
    + split; [discriminate | intros (x & [] & _)].
  - split; [|split].
    + split; [|discriminate]. intros [H1 H2].
      destruct (Empty x); discriminate.
    + destruct (Empty x) eqn:E.
      * split; [|reflexivity]. intros _. exists x. split; [left; reflexivity | exact E].
      * rewrite IH2. split.
        -- intros (y & Hy & Ey). exists y. split; [right; exact Hy | exact Ey].
        -- intros (y & [<-|Hy] & Ey); [congruence|]. exists y. auto.
    + destruct (Empty x) eqn:E; cbn [negb].
      * rewrite IH3. split.
        -- intros (y & Hy & Ey). exists y. split; [right; exact Hy | exact Ey].
        -- intros (y & [<-|Hy] & Ey); [congruence|]. exists y. auto.
      * split; [|reflexivity]. intros _. exists x. split; [left; reflexivity | exact E].
Qed.

End Facts.

Lemma Less_orders_witness :
  let r := mkRegionSet [(1, 4); (1, 2); (0, 9)] in
  Less fst snd r 1 0 = Some true /\ Less fst snd r 0 1 = Some false.
Proof.
  intros r.
  destruct (Less_orders fst snd r 1 0 2
              ltac:(vm_compute; split; [discriminate | reflexivity])
              ltac:(vm_compute; split; [discriminate | reflexivity])
              ltac:(vm_compute; split; [discriminate | reflexivity]))
    as (ri & rj & _ & _ & _ & H & _).
  split; [reflexivity | apply H; reflexivity].
Defined.

End text_facts.
